(** * An interval index on a red-black tree: model and verification

    The development embeds [app/core/algorithms/red_black_tree.py].
    Python objects live in an object store (a list of node records,
    addressed by position); a reference is an address, and [None] is the
    absent reference.  Every method is a function in a state-and-error
    monad over the tree object and its store, loops and recursive
    methods carry a step budget taken from the size of the store.  The
    limits of the interpreter on memory and on the depth of recursion are
    not part of the model.

    The model comes first, then the trees that a store holds and the
    algorithms on such trees, then the proofs: that the methods compute
    what the algorithms on trees compute, what these keep, and last the
    properties of the interface, C1 to C10, and further properties of
    the methods, X1 to X17. *)

From Stdlib Require Import NArith ZArith String.
From stdpp Require Import base tactics option list numbers sets sorting.

(* stdpp's [set_solver] clears hypotheses that are already gone. *)
Set Warnings "-clear-no-such-hyp".

Local Open Scope N_scope.

(** ** Values *)

(** [datetime]: microseconds elapsed since [datetime.min]; instants are
    naive datetimes, totally ordered. *)
Definition datetime := N.
Definition datetime_min : datetime := 0.
Definition timedelta (days : N) : N := days * 86400000000.

(** The Python values a caller can hand to the constructor. *)
Inductive pyval :=
  | PDatetime (t : datetime)
  | PInt (z : Z)
  | PStr (s : string)
  | PNone.

Inductive exn :=
  | ValueError
  | TypeError
  | AttributeError
  | NoSuchObject
  | StepBudget.

Inductive result (A : Type) :=
  | Ok (x : A)
  | Raise (e : exn).
Arguments Ok {A} x.
Arguments Raise {A} e.

(** [a >= b] of Python: defined inside one type, a [TypeError] across. *)
Definition py_ge (a b : pyval) : result bool :=
  match a, b with
  | PDatetime x, PDatetime y => Ok (y <=? x)
  | PInt x, PInt y => Ok (y <=? x)%Z
  | PStr x, PStr y => Ok (String.leb y x)
  | _, _ => Raise TypeError
  end.

Definition isinstance_datetime (v : pyval) : bool :=
  match v with PDatetime _ => true | _ => false end.

(** ** Nodes *)

Inductive NodeColor := RED | BLACK.

Definition NodeColor_eqb (a b : NodeColor) : bool :=
  match a, b with
  | RED, RED | BLACK, BLACK => true
  | _, _ => false
  end.

Definition addr := nat.

Record IntervalNode := mkNode {
  start : datetime;
  end_ : datetime;
  max_end : datetime;
  color : NodeColor;
  left : option addr;
  right : option addr;
  parent : option addr;
  data : pyval
}.

Definition with_max_end (m : datetime) (n : IntervalNode) : IntervalNode :=
  mkNode (start n) (end_ n) m (color n) (left n) (right n) (parent n) (data n).
Definition with_color (c : NodeColor) (n : IntervalNode) : IntervalNode :=
  mkNode (start n) (end_ n) (max_end n) c (left n) (right n) (parent n) (data n).
Definition with_left (l : option addr) (n : IntervalNode) : IntervalNode :=
  mkNode (start n) (end_ n) (max_end n) (color n) l (right n) (parent n) (data n).
Definition with_right (r : option addr) (n : IntervalNode) : IntervalNode :=
  mkNode (start n) (end_ n) (max_end n) (color n) (left n) r (parent n) (data n).
Definition with_parent (p : option addr) (n : IntervalNode) : IntervalNode :=
  mkNode (start n) (end_ n) (max_end n) (color n) (left n) (right n) p (data n).

(** [IntervalNode.__init__]: the comparison comes first, the type test
    second; the new object is appended to the store. *)
Definition IntervalNode_init (start_ end' data_ : pyval) (h : list IntervalNode)
  : result (addr * list IntervalNode) :=
  match py_ge start_ end' with
  | Raise e => Raise e
  | Ok true => Raise ValueError
  | Ok false =>
      match start_, end' with
      | PDatetime s, PDatetime e =>
          Ok (length h, h ++ [mkNode s e e RED None None None data_])
      | _, _ => Raise TypeError
      end
  end.

(** ** The tree object and its monad *)

Record RedBlackIntervalTree := mkTree {
  heap : list IntervalNode;
  NIL_LEAF : addr;
  root : addr
}.

Definition M (A : Type) := RedBlackIntervalTree -> result (A * RedBlackIntervalTree).

Definition ret {A} (x : A) : M A := fun s => Ok (x, s).
Definition bind {A B} (m : M A) (k : A -> M B) : M B :=
  fun s => match m s with
           | Ok (x, s') => k x s'
           | Raise e => Raise e
           end.
Definition raise {A} (e : exn) : M A := fun _ => Raise e.

Notation "x <- m ;; k" := (bind m (fun x => k))
  (at level 100, m at next level, right associativity).
Notation "m ;;; k" := (bind m (fun _ => k))
  (at level 100, right associativity).

Definition get_node (a : addr) : M IntervalNode :=
  fun s => match heap s !! a with
           | Some n => Ok (n, s)
           | None => Raise NoSuchObject
           end.

Definition put_node (a : addr) (n : IntervalNode) : M unit :=
  fun s => match heap s !! a with
           | Some _ => Ok (tt, mkTree (<[a := n]> (heap s)) (NIL_LEAF s) (root s))
           | None => Raise NoSuchObject
           end.

Definition get {A} (f : IntervalNode -> A) (a : addr) : M A :=
  n <- get_node a ;; ret (f n).
Definition set (upd : IntervalNode -> IntervalNode) (a : addr) : M unit :=
  n <- get_node a ;; put_node a (upd n).

Definition get_root : M addr := fun s => Ok (root s, s).
Definition set_root (a : addr) : M unit :=
  fun s => Ok (tt, mkTree (heap s) (NIL_LEAF s) a).
Definition get_NIL : M addr := fun s => Ok (NIL_LEAF s, s).
Definition budget : M nat := fun s => Ok (S (length (heap s)), s).

(** Attribute access through a reference that may be [None]. *)
Definition deref {A} (o : option addr) (k : addr -> M A) : M A :=
  match o with
  | Some a => k a
  | None => raise AttributeError
  end.

Definition is_None (o : option addr) : bool :=
  match o with Some _ => false | None => true end.

(** [o is a] for a reference [o] and an object [a]. *)
Definition is_obj (o : option addr) (a : addr) : bool :=
  match o with
  | Some b => Nat.eqb b a
  | None => false
  end.

(** [o1 == o2] on references: identity, [None] equal to itself only. *)
Definition ref_eqb (o1 o2 : option addr) : bool :=
  match o1, o2 with
  | Some a, Some b => Nat.eqb a b
  | None, None => true
  | _, _ => false
  end.

(** ** Methods of [IntervalNode] *)

Definition grandparent (n : addr) : M (option addr) :=
  p <- get parent n ;;
  match p with
  | None => ret None
  | Some p => get parent p
  end.

Definition sibling (n : addr) : M (option addr) :=
  p <- get parent n ;;
  match p with
  | None => ret None
  | Some p =>
      l <- get left p ;;
      if is_obj l n then get right p else ret l
  end.

Definition uncle (n : addr) : M (option addr) :=
  p <- get parent n ;;
  match p with
  | None => ret None
  | Some p => sibling p
  end.

(** ** Methods of [RedBlackIntervalTree] *)

Definition RedBlackIntervalTree_init (h : list IntervalNode)
  : result RedBlackIntervalTree :=
  match IntervalNode_init (PDatetime datetime_min)
          (PDatetime (datetime_min + timedelta 1)) PNone h with
  | Raise e => Raise e
  | Ok (leaf, h') =>
      match set (with_color BLACK) leaf (mkTree h' leaf leaf) with
      | Ok (_, s) => Ok (mkTree (heap s) leaf leaf)
      | Raise e => Raise e
      end
  end.

(** The [max_end] of a child reference, [datetime.min] when it is absent
    or the sentinel. *)
Definition child_max_end (o : option addr) : M datetime :=
  NIL <- get_NIL ;;
  match o with
  | None => ret datetime_min
  | Some c => if Nat.eqb c NIL then ret datetime_min else get max_end c
  end.

Definition _update_max_end (node : option addr) : M unit :=
  NIL <- get_NIL ;;
  match node with
  | None => ret tt
  | Some a =>
      if Nat.eqb a NIL then ret tt
      else
        e <- get end_ a ;;
        l <- get left a ;;
        lm <- child_max_end l ;;
        r <- get right a ;;
        rm <- child_max_end r ;;
        set (with_max_end (N.max e (N.max lm rm))) a
  end.

Fixpoint _update_max_end_up_to_root_loop (fuel : nat) (current : option addr)
  : M unit :=
  match fuel with
  | O => raise StepBudget
  | S fuel =>
      NIL <- get_NIL ;;
      match current with
      | None => ret tt
      | Some a =>
          if Nat.eqb a NIL then ret tt
          else
            _update_max_end (Some a) ;;;
            p <- get parent a ;;
            _update_max_end_up_to_root_loop fuel p
      end
  end.

Definition _update_max_end_up_to_root (node : addr) : M unit :=
  n <- budget ;;
  _update_max_end_up_to_root_loop n (Some node).

Definition _left_rotate (node : addr) : M unit :=
  NIL <- get_NIL ;;
  r <- get right node ;;
  match r with
  | None => ret tt
  | Some right_child =>
      if Nat.eqb right_child NIL then ret tt
      else
        rl <- get left right_child ;;
        set (with_right rl) node ;;;
        (match rl with
         | Some c => if Nat.eqb c NIL then ret tt
                     else set (with_parent (Some node)) c
         | None => ret tt
         end) ;;;
        p <- get parent node ;;
        set (with_parent p) right_child ;;;
        (match p with
         | None => set_root right_child
         | Some p =>
             pl <- get left p ;;
             if is_obj pl node then set (with_left (Some right_child)) p
             else set (with_right (Some right_child)) p
         end) ;;;
        set (with_left (Some node)) right_child ;;;
        set (with_parent (Some right_child)) node ;;;
        _update_max_end (Some node) ;;;
        _update_max_end (Some right_child)
  end.

Definition _right_rotate (node : addr) : M unit :=
  NIL <- get_NIL ;;
  l <- get left node ;;
  match l with
  | None => ret tt
  | Some left_child =>
      if Nat.eqb left_child NIL then ret tt
      else
        lr <- get right left_child ;;
        set (with_left lr) node ;;;
        (match lr with
         | Some c => if Nat.eqb c NIL then ret tt
                     else set (with_parent (Some node)) c
         | None => ret tt
         end) ;;;
        p <- get parent node ;;
        set (with_parent p) left_child ;;;
        (match p with
         | None => set_root left_child
         | Some p =>
             pr <- get right p ;;
             if is_obj pr node then set (with_right (Some left_child)) p
             else set (with_left (Some left_child)) p
         end) ;;;
        set (with_right (Some node)) left_child ;;;
        set (with_parent (Some left_child)) node ;;;
        _update_max_end (Some node) ;;;
        _update_max_end (Some left_child)
  end.

(** What one turn of a [while] loop with [break] hands back. *)
Inductive turn :=
  | Continue (new_node : addr)
  | Break (new_node : addr).

Definition color_is (o : option addr) (c : NodeColor) : M bool :=
  match o with
  | None => ret false
  | Some a => k <- get color a ;; ret (NodeColor_eqb k c)
  end.

(** The body of the loop of [_insert_fixup]. *)
Definition _insert_fixup_body (new_node : addr) : M turn :=
  g <- grandparent new_node ;;
  p <- get parent new_node ;;
  on_left <- match g with
             | Some g' => gl <- get left g' ;; ret (ref_eqb p gl)
             | None => ret false
             end ;;
  if on_left then
    u <- uncle new_node ;;
    ured <- color_is u RED ;;
    if ured then
      deref p (set (with_color BLACK)) ;;;
      deref u (set (with_color BLACK)) ;;;
      match g with
      | Some g' => set (with_color RED) g' ;;; ret (Continue g')
      | None => ret (Break new_node)
      end
    else
      pr <- deref p (get right) ;;
      new_node <- (if is_obj pr new_node
                   then
                     deref p (fun p' => _left_rotate p' ;;; ret p')
                   else ret new_node) ;;
      p2 <- get parent new_node ;;
      match p2 with
      | Some p' => set (with_color BLACK) p'
      | None => ret tt
      end ;;;
      deref g (set (with_color RED)) ;;;
      deref g _right_rotate ;;;
      ret (Continue new_node)
  else
    u <- uncle new_node ;;
    ured <- color_is u RED ;;
    if ured then
      deref p (set (with_color BLACK)) ;;;
      deref u (set (with_color BLACK)) ;;;
      match g with
      | Some g' => set (with_color RED) g' ;;; ret (Continue g')
      | None => ret (Break new_node)
      end
    else
      pl <- deref p (get left) ;;
      new_node <- (if is_obj pl new_node
                   then
                     deref p (fun p' => _right_rotate p' ;;; ret p')
                   else ret new_node) ;;
      p2 <- get parent new_node ;;
      match p2 with
      | Some p' => set (with_color BLACK) p'
      | None => ret tt
      end ;;;
      match g with
      | Some g' => set (with_color RED) g' ;;; _left_rotate g'
      | None => ret tt
      end ;;;
      ret (Continue new_node).

Fixpoint _insert_fixup_loop (fuel : nat) (new_node : addr) : M unit :=
  match fuel with
  | O => raise StepBudget
  | S fuel =>
      p <- get parent new_node ;;
      pred <- color_is p RED ;;
      if pred then
        t <- _insert_fixup_body new_node ;;
        match t with
        | Continue n => _insert_fixup_loop fuel n
        | Break _ => ret tt
        end
      else ret tt
  end.

Definition _insert_fixup (new_node : addr) : M unit :=
  n <- budget ;;
  _insert_fixup_loop n new_node ;;;
  r <- get_root ;;
  set (with_color BLACK) r.

(** The descent of [insert]: returns the last real node met. *)
Fixpoint insert_descent (fuel : nat) (node : addr) (parent_ current : option addr)
  : M (option addr) :=
  match fuel with
  | O => raise StepBudget
  | S fuel =>
      NIL <- get_NIL ;;
      match current with
      | None => ret parent_
      | Some c =>
          if Nat.eqb c NIL then ret parent_
          else
            ns <- get start node ;;
            cs <- get start c ;;
            next <- (if ns <? cs then get left c else get right c) ;;
            insert_descent fuel node (Some c) next
      end
  end.

Definition insert (node : addr) : M unit :=
  NIL <- get_NIL ;;
  set (with_left (Some NIL)) node ;;;
  set (with_right (Some NIL)) node ;;;
  set (with_color RED) node ;;;
  n <- budget ;;
  r <- get_root ;;
  parent_ <- insert_descent n node None (Some r) ;;
  set (with_parent parent_) node ;;;
  match parent_ with
  | None => set_root node
  | Some p =>
      ns <- get start node ;;
      ps <- get start p ;;
      if ns <? ps then set (with_left (Some node)) p
      else set (with_right (Some node)) p
  end ;;;
  _update_max_end_up_to_root node ;;;
  _insert_fixup node.

(** [x is None or x.color == BLACK] for a child reference [x]. *)
Definition none_or_black (o : option addr) : M bool :=
  match o with
  | None => ret true
  | Some a => k <- get color a ;; ret (NodeColor_eqb k BLACK)
  end.

(** The body of the loop of [_delete_fixup]. *)
Definition _delete_fixup_body (new_node : addr) : M turn :=
  g <- grandparent new_node ;;
  on_left <- match g with
             | Some g' => gl <- get left g' ;; ret (is_obj gl new_node)
             | None => ret false
             end ;;
  if on_left then
    s <- sibling new_node ;;
    sred <- color_is s RED ;;
    s <- (if sred then
            deref s (set (with_color BLACK)) ;;;
            deref g (set (with_color RED)) ;;;
            deref g _left_rotate ;;;
            sibling new_node
          else ret s) ;;
    both <- match s with
            | None => ret false
            | Some s' =>
                sl <- get left s' ;;
                lb <- none_or_black sl ;;
                sr <- get right s' ;;
                rb <- none_or_black sr ;;
                ret (lb && rb)
            end ;;
    if both then
      deref s (set (with_color RED)) ;;;
      match g with
      | Some g' => ret (Continue g')
      | None => ret (Break new_node)
      end
    else
      far <- match s with
             | None => ret false
             | Some s' => sr <- get right s' ;; none_or_black sr
             end ;;
      s <- (if far then
              sl <- deref s (get left) ;;
              match sl with
              | Some c => set (with_color BLACK) c
              | None => ret tt
              end ;;;
              deref s (set (with_color RED)) ;;;
              deref s _right_rotate ;;;
              sibling new_node
            else ret s) ;;
      p <- get parent new_node ;;
      match s with
      | Some s' => pc <- deref p (get color) ;; set (with_color pc) s'
      | None => ret tt
      end ;;;
      deref p (set (with_color BLACK)) ;;;
      match s with
      | Some s' =>
          sr <- get right s' ;;
          match sr with
          | Some c => set (with_color BLACK) c
          | None => ret tt
          end
      | None => ret tt
      end ;;;
      deref g _left_rotate ;;;
      ret (Break new_node)
  else
    s <- sibling new_node ;;
    sred <- color_is s RED ;;
    go <- (if sred then
             deref s (set (with_color BLACK)) ;;;
             match g with
             | Some g' =>
                 set (with_color RED) g' ;;;
                 _right_rotate g' ;;;
                 s <- sibling new_node ;;
                 ret (Some s)
             | None => ret None
             end
           else ret (Some s)) ;;
    match go with
    | None => ret (Break new_node)
    | Some s =>
    both <- match s with
            | None => ret false
            | Some s' =>
                sl <- get left s' ;;
                lb <- none_or_black sl ;;
                sr <- get right s' ;;
                rb <- none_or_black sr ;;
                ret (lb && rb)
            end ;;
    if both then
      deref s (set (with_color RED)) ;;;
      match g with
      | Some g' => ret (Continue g')
      | None => ret (Break new_node)
      end
    else
      near <- match s with
              | None => ret false
              | Some s' => sl <- get left s' ;; none_or_black sl
              end ;;
      s <- (if near then
              sr <- deref s (get right) ;;
              match sr with
              | Some c => set (with_color BLACK) c
              | None => ret tt
              end ;;;
              deref s (set (with_color RED)) ;;;
              deref s _left_rotate ;;;
              sibling new_node
            else ret s) ;;
      p <- get parent new_node ;;
      match s with
      | Some s' => pc <- deref p (get color) ;; set (with_color pc) s'
      | None => ret tt
      end ;;;
      deref p (set (with_color BLACK)) ;;;
      match s with
      | Some s' =>
          sl <- get left s' ;;
          match sl with
          | Some c => set (with_color BLACK) c
          | None => ret tt
          end
      | None => ret tt
      end ;;;
      match g with
      | Some g' => _right_rotate g'
      | None => ret tt
      end ;;;
      ret (Break new_node)
    end.

Fixpoint _delete_fixup_loop (fuel : nat) (new_node : addr) : M addr :=
  match fuel with
  | O => raise StepBudget
  | S fuel =>
      p <- get parent new_node ;;
      k <- get color new_node ;;
      if negb (is_None p) && NodeColor_eqb k BLACK then
        t <- _delete_fixup_body new_node ;;
        match t with
        | Continue n => _delete_fixup_loop fuel n
        | Break n => ret n
        end
      else ret new_node
  end.

Definition _delete_fixup (new_node : addr) : M unit :=
  n <- budget ;;
  last <- _delete_fixup_loop n new_node ;;
  set (with_color BLACK) last.

Definition delete (node : addr) : M unit := _delete_fixup node.

Fixpoint find_conflict_loop (fuel : nat) (start_ end' : datetime)
    (current : option addr) : M (option addr) :=
  match fuel with
  | O => raise StepBudget
  | S fuel =>
      NIL <- get_NIL ;;
      match current with
      | None => ret None
      | Some c =>
          if Nat.eqb c NIL then ret None
          else
            cs <- get start c ;;
            ce <- get end_ c ;;
            if (cs <? end') && (start_ <? ce) then ret (Some c)
            else
              l <- get left c ;;
              go_left <- match l with
                         | None => ret false
                         | Some l' =>
                             if Nat.eqb l' NIL then ret false
                             else m <- get max_end l' ;; ret (start_ <=? m)
                         end ;;
              next <- (if go_left then ret l else get right c) ;;
              find_conflict_loop fuel start_ end' next
      end
  end.

Definition find_conflict (start_ end' : datetime) : M (option addr) :=
  n <- budget ;;
  r <- get_root ;;
  find_conflict_loop n start_ end' (Some r).

(** ** Running a program *)

(** [node = IntervalNode(start, end, data); tree.insert(node)]. *)
Definition insert_interval (start_ end' : datetime) (data_ : pyval) : M addr :=
  fun s =>
    match IntervalNode_init (PDatetime start_) (PDatetime end') data_ (heap s) with
    | Raise e => Raise e
    | Ok (a, h) =>
        match insert a (mkTree h (NIL_LEAF s) (root s)) with
        | Ok (_, s') => Ok (a, s')
        | Raise e => Raise e
        end
    end.

Fixpoint insert_all (l : list (datetime * datetime * pyval)) : M unit :=
  match l with
  | [] => ret tt
  | (s, e, d) :: l => insert_interval s e d ;;; insert_all l
  end.

(** A program that starts with a new tree in an empty store. *)
Definition run {A} (m : M A) : result (A * RedBlackIntervalTree) :=
  match RedBlackIntervalTree_init [] with
  | Ok s => m s
  | Raise e => Raise e
  end.


(** ** Printing *)

(** A [str] is the sequence of the bytes of its UTF-8 encoding; the
    literals of the source outside ASCII are given by their bytes. *)
Definition of_bytes (l : list nat) : string :=
  string_of_list_ascii (Ascii.ascii_of_nat <$> l).

Definition newline : string := of_bytes [10%nat].

Definition red_symbol : string :=
  of_bytes [195; 176; 197; 184; 226; 128; 157; 194; 180]%nat.
Definition black_symbol : string := of_bytes [195; 162; 197; 161; 194; 171]%nat.

(** [color_symbol] of the three displays. *)
Definition color_symbol (c : NodeColor) : string :=
  match c with RED => red_symbol | BLACK => black_symbol end.

(** The three pieces that [display_tree_ascii] draws branches with: the
    bar and three spaces, the lower corner, the upper corner. *)
Definition ascii_bar : string :=
  of_bytes [195; 162; 226; 128; 157; 226; 128; 154; 32; 32; 32]%nat.
Definition ascii_lower : string :=
  of_bytes [195; 162; 226; 128; 157; 226; 128; 157; 195; 162; 226; 128; 157;
            226; 130; 172; 195; 162; 226; 128; 157; 226; 130; 172; 32]%nat.
Definition ascii_upper : string :=
  of_bytes [195; 162; 226; 128; 157; 197; 146; 195; 162; 226; 128; 157;
            226; 130; 172; 195; 162; 226; 128; 157; 226; 130; 172; 32]%nat.

(** [s * n] on a [str]. *)
Fixpoint str_mul (s : string) (n : nat) : string :=
  match n with
  | O => EmptyString
  | S n => (s ++ str_mul s n)%string
  end.

(** [NodeColor.name]. *)
Definition NodeColor_name (c : NodeColor) : string :=
  match c with RED => "RED"%string | BLACK => "BLACK"%string end.

Section printing.

(** The formatting that the Python library does: [str(v)], which is also
    what a replacement field of an f-string puts for [v], and
    [t.strftime(fmt)]. *)
Variable py_str : pyval -> string.
Variable strftime : datetime -> string -> string.

(** [IntervalNode.__repr__]. *)
Definition IntervalNode_repr (n : IntervalNode) : string :=
  ("IntervalNode(start=" ++ py_str (PDatetime (start n)) ++
   ", end=" ++ py_str (PDatetime (end_ n)) ++
   ", max_end=" ++ py_str (PDatetime (max_end n)) ++
   ", color=" ++ NodeColor_name (color n) ++ ")")%string.

(** [__repr_inorder_traversal]: the list [result] is handed on from call
    to call; the budget bounds the depth of the recursion, which ends
    in a store without cycles. *)
Fixpoint __repr_inorder_traversal (fuel : nat) (node : option addr)
    (result : list string) : M (list string) :=
  match fuel with
  | O => raise StepBudget
  | S fuel =>
      NIL <- get_NIL ;;
      match node with
      | None => ret result
      | Some a =>
          if Nat.eqb a NIL then ret result
          else
            l <- get left a ;;
            result <- __repr_inorder_traversal fuel l result ;;
            n <- get_node a ;;
            r <- get right a ;;
            __repr_inorder_traversal fuel r (result ++ [IntervalNode_repr n])
      end
  end.

(** [RedBlackIntervalTree.__repr__]. *)
Definition RedBlackIntervalTree_repr : M string :=
  n <- budget ;;
  r <- get_root ;;
  result <- __repr_inorder_traversal n (Some r) [] ;;
  ret (String.concat " " result).

(** The line of a node in [display_tree]. *)
Definition display_tree_line (level : nat) (prefix : string) (n : IntervalNode)
  : string :=
  (str_mul "  " level ++ prefix ++
   (color_symbol (color n) ++ " [" ++ strftime (start n) "%Y-%m-%d" ++ " - " ++
    strftime (end_ n) "%Y-%m-%d" ++ "] (max_end: " ++
    strftime (max_end n) "%Y-%m-%d" ++ ") - " ++ py_str (data n) ++ newline))%string.

(** [display_tree]: an absent [node] stands for the root. *)
Fixpoint display_tree (fuel : nat) (node : option addr) (level : nat)
    (prefix : string) : M string :=
  match fuel with
  | O => raise StepBudget
  | S fuel =>
      r <- get_root ;;
      NIL <- get_NIL ;;
      let node := match node with None => r | Some a => a end in
      if Nat.eqb node NIL then ret EmptyString
      else
        n <- get_node node ;;
        let result := display_tree_line level prefix n in
        if negb (ref_eqb (left n) (Some NIL)) || negb (ref_eqb (right n) (Some NIL))
        then
          result <- (if negb (ref_eqb (left n) (Some NIL))
                     then
                       sub <- display_tree fuel (left n) (level + 1) "L--- " ;;
                       ret (result ++ sub)%string
                     else
                       ret (result ++ (str_mul "  " (level + 1) ++ "L--- NIL" ++ newline))%string) ;;
          if negb (ref_eqb (right n) (Some NIL))
          then
            sub <- display_tree fuel (right n) (level + 1) "R--- " ;;
            ret (result ++ sub)%string
          else
            ret (result ++ (str_mul "  " (level + 1) ++ "R--- NIL" ++ newline))%string
        else ret result
  end.

(** [tree.display_tree()], with the defaults of the arguments. *)
Definition display_tree_call : M string :=
  n <- budget ;;
  display_tree n None O "Root: ".

(** The text of a node in [display_tree_ascii], after the branch. *)
Definition display_tree_ascii_text (n : IntervalNode) : string :=
  (color_symbol (color n) ++ " [" ++ strftime (start n) "%m-%d" ++ " - " ++
   strftime (end_ n) "%m-%d" ++ "] (" ++ py_str (data n) ++ ")" ++ newline)%string.

(** [display_tree_ascii]. *)
Fixpoint display_tree_ascii (fuel : nat) (node : option addr) (depth : nat)
    (prefix : string) (is_left : bool) : M string :=
  match fuel with
  | O => raise StepBudget
  | S fuel =>
      r <- get_root ;;
      NIL <- get_NIL ;;
      let node := match node with None => r | Some a => a end in
      if Nat.eqb node NIL then ret EmptyString
      else
        n <- get_node node ;;
        result <- (if negb (ref_eqb (right n) (Some NIL))
                   then
                     display_tree_ascii fuel (right n) (depth + 1)
                       (prefix ++ (if is_left then ascii_bar else "    "))%string
                       false
                   else ret EmptyString) ;;
        let connector :=
          if Nat.eqb depth 0 then EmptyString
          else if is_left then ascii_lower else ascii_upper in
        let result :=
          (result ++ (prefix ++ connector ++ display_tree_ascii_text n))%string in
        if negb (ref_eqb (left n) (Some NIL))
        then
          sub <- display_tree_ascii fuel (left n) (depth + 1)
                   (prefix ++ (if is_left then "    " else ascii_bar))%string
                   true ;;
          ret (result ++ sub)%string
        else ret result
  end.

(** [tree.display_tree_ascii()], with the defaults of the arguments. *)
Definition display_tree_ascii_call : M string :=
  n <- budget ;;
  display_tree_ascii n None O "" true.

(** A line of [print_tree_levels]. *)
Definition level_line (current_level : nat) (level_nodes : list string) : string :=
  ("Level " ++ py_str (PInt (Z.of_nat current_level)) ++ ": " ++
   String.concat " | " level_nodes)%string.

(** The text of a node in [print_tree_levels]. *)
Definition level_text (n : IntervalNode) : string :=
  (color_symbol (color n) ++ "[" ++ strftime (start n) "%m-%d" ++ " - " ++
   strftime (end_ n) "%m-%d" ++ "]")%string.

(** The loop of [print_tree_levels]; [out] are the lines printed so far. *)
Fixpoint print_tree_levels_loop (fuel : nat) (queue : list (addr * nat))
    (current_level : nat) (level_nodes out : list string) : M (list string) :=
  match fuel with
  | O => raise StepBudget
  | S fuel =>
      match queue with
      | [] =>
          match level_nodes with
          | [] => ret out
          | _ => ret (out ++ [level_line current_level level_nodes])
          end
      | (node, level) :: queue =>
          let '(out, level_nodes, current_level) :=
            if negb (Nat.eqb level current_level)
            then (out ++ [level_line current_level level_nodes], [], level)
            else (out, level_nodes, current_level) in
          n <- get_node node ;;
          let level_nodes := level_nodes ++ [level_text n] in
          NIL <- get_NIL ;;
          let queue :=
            match left n with
            | Some l => if Nat.eqb l NIL then queue else queue ++ [(l, (level + 1)%nat)]
            | None => queue
            end in
          let queue :=
            match right n with
            | Some r => if Nat.eqb r NIL then queue else queue ++ [(r, (level + 1)%nat)]
            | None => queue
            end in
          print_tree_levels_loop fuel queue current_level level_nodes out
      end
  end.

(** [print_tree_levels]: returns the lines it prints, in order. *)
Definition print_tree_levels : M (list string) :=
  r <- get_root ;;
  NIL <- get_NIL ;;
  if Nat.eqb r NIL then ret ["Empty tree"%string]
  else
    n <- budget ;;
    print_tree_levels_loop n [(r, O)] O [] [].

End printing.
(** * The tree a store holds *)

(** A snapshot of the part of a node the invariants speak about. *)
Record item := mkItem {
  i_addr : addr;
  i_start : datetime;
  i_end : datetime;
  i_max : datetime;
  i_color : NodeColor
}.

Definition item_of (a : addr) (n : IntervalNode) : item :=
  mkItem a (start n) (end_ n) (max_end n) (color n).

Inductive tree :=
  | E
  | T (l : tree) (v : item) (r : tree).

(** The full-tree walk: follows [left] and [right] from a reference until
    the sentinel, and fails on an absent reference or a cycle. *)
Fixpoint walk (fuel : nat) (s : RedBlackIntervalTree) (o : option addr)
  : option tree :=
  match fuel with
  | O => None
  | S fuel =>
      match o with
      | None => None
      | Some a =>
          if Nat.eqb a (NIL_LEAF s) then Some E
          else
            match heap s !! a with
            | None => None
            | Some n =>
                match walk fuel s (left n), walk fuel s (right n) with
                | Some l, Some r => Some (T l (item_of a n) r)
                | _, _ => None
                end
            end
      end
  end.

Definition tree_of (s : RedBlackIntervalTree) : option tree :=
  walk (S (length (heap s))) s (Some (root s)).

Fixpoint elements (t : tree) : list item :=
  match t with
  | E => []
  | T l v r => elements l ++ v :: elements r
  end.

Definition addrs (t : tree) : list addr := i_addr <$> elements t.

Fixpoint size (t : tree) : nat :=
  match t with
  | E => O
  | T l _ r => S (size l + size r)
  end.

Fixpoint height (t : tree) : nat :=
  match t with
  | E => O
  | T l _ r => S (Nat.max (height l) (height r))
  end.

Definition max_of (t : tree) : datetime :=
  match t with
  | E => datetime_min
  | T _ v _ => i_max v
  end.

(** Invariant 3, the augmentation, at every node. *)
Fixpoint aug (t : tree) : bool :=
  match t with
  | E => true
  | T l v r =>
      (i_max v =? N.max (i_end v) (N.max (max_of l) (max_of r)))
      && aug l && aug r
  end.

(** Invariant 1 as the specification words it: keys on the left strictly
    smaller, keys on the right greater or equal. *)
Fixpoint bst_strict (t : tree) : bool :=
  match t with
  | E => true
  | T l v r =>
      forallb (fun x => i_start x <? i_start v) (elements l)
      && forallb (fun x => i_start v <=? i_start x) (elements r)
      && bst_strict l && bst_strict r
  end.

(** The order the code keeps: keys on the left smaller or equal. *)
Fixpoint bst_weak (t : tree) : bool :=
  match t with
  | E => true
  | T l v r =>
      forallb (fun x => i_start x <=? i_start v) (elements l)
      && forallb (fun x => i_start v <=? i_start x) (elements r)
      && bst_weak l && bst_weak r
  end.

Definition color_of (t : tree) : NodeColor :=
  match t with
  | E => BLACK
  | T _ v _ => i_color v
  end.

(** No RED node has a RED child. *)
Fixpoint no_red_red (t : tree) : bool :=
  match t with
  | E => true
  | T l v r =>
      match i_color v with
      | RED =>
          NodeColor_eqb (color_of l) BLACK && NodeColor_eqb (color_of r) BLACK
      | BLACK => true
      end && no_red_red l && no_red_red r
  end.

(** The number of BLACK nodes on every path to a sentinel, when it is the
    same on all of them. *)
Fixpoint black_height (t : tree) : option nat :=
  match t with
  | E => Some O
  | T l v r =>
      match black_height l, black_height r with
      | Some n, Some m =>
          if Nat.eqb n m
          then Some (match i_color v with BLACK => S n | RED => n end)
          else None
      | _, _ => None
      end
  end.

Definition sentinel_color (s : RedBlackIntervalTree) : option NodeColor :=
  color <$> heap s !! NIL_LEAF s.

Definition root_color (s : RedBlackIntervalTree) : option NodeColor :=
  color <$> heap s !! root s.

(** ** One-hole contexts *)

(** [InL v sib]: the hole is the left child of [v], [sib] is the right
    subtree of [v]; [InR sib v]: the hole is the right child. *)
Inductive frame :=
  | InL (v : item) (sib : tree)
  | InR (sib : tree) (v : item).

Definition ctx := list frame.

Definition fill (f : frame) (t : tree) : tree :=
  match f with
  | InL v sib => T t v sib
  | InR sib v => T sib v t
  end.

Fixpoint plug (c : ctx) (t : tree) : tree :=
  match c with
  | [] => t
  | f :: c => plug c (fill f t)
  end.

Definition frame_item (f : frame) : item :=
  match f with InL v _ | InR _ v => v end.

Definition frame_sib (f : frame) : tree :=
  match f with InL _ sib | InR sib _ => sib end.

Definition ctx_parent (c : ctx) : option addr :=
  match c with
  | [] => None
  | f :: _ => Some (i_addr (frame_item f))
  end.

Fixpoint before (c : ctx) : list item :=
  match c with
  | [] => []
  | InL _ _ :: c => before c
  | InR sib v :: c => before c ++ elements sib ++ [v]
  end.

Fixpoint after (c : ctx) : list item :=
  match c with
  | [] => []
  | InL v sib :: c => v :: elements sib ++ after c
  | InR _ _ :: c => after c
  end.

(** ** The store represents a tree *)

Definition root_of (s : RedBlackIntervalTree) (t : tree) : addr :=
  match t with
  | E => NIL_LEAF s
  | T _ v _ => i_addr v
  end.

Definition node_at (s : RedBlackIntervalTree) (v : item) (l r : addr)
    (p : option addr) : Prop :=
  exists n, heap s !! i_addr v = Some n /\ item_of (i_addr v) n = v /\
            left n = Some l /\ right n = Some r /\ parent n = p.

Fixpoint rep (s : RedBlackIntervalTree) (t : tree) (p : option addr) : Prop :=
  match t with
  | E => True
  | T l v r =>
      i_addr v <> NIL_LEAF s /\
      node_at s v (root_of s l) (root_of s r) p /\
      rep s l (Some (i_addr v)) /\ rep s r (Some (i_addr v))
  end.

Definition frame_left (s : RedBlackIntervalTree) (f : frame) (child : addr) : addr :=
  match f with InL _ _ => child | InR sib _ => root_of s sib end.
Definition frame_right (s : RedBlackIntervalTree) (f : frame) (child : addr) : addr :=
  match f with InL _ sib => root_of s sib | InR _ _ => child end.

Fixpoint rep_ctx (s : RedBlackIntervalTree) (c : ctx) (child : addr) : Prop :=
  match c with
  | [] => root s = child
  | f :: c =>
      i_addr (frame_item f) <> NIL_LEAF s /\
      node_at s (frame_item f) (frame_left s f child) (frame_right s f child)
        (ctx_parent c) /\
      rep s (frame_sib f) (Some (i_addr (frame_item f))) /\
      rep_ctx s c (i_addr (frame_item f))
  end.

(** The sentinel: no links, colour [nc]. *)
Definition sentinel_ok (s : RedBlackIntervalTree) (nc : NodeColor) : Prop :=
  exists n, heap s !! NIL_LEAF s = Some n /\ color n = nc /\
            left n = None /\ right n = None /\ parent n = None.

(** [Rep nc s t]: from [root], the store of [s] holds exactly the tree
    [t], every node once, every [parent] link the inverse of a child
    link, and the sentinel has colour [nc]. *)
Definition Rep (nc : NodeColor) (s : RedBlackIntervalTree) (t : tree) : Prop :=
  sentinel_ok s nc /\ root s = root_of s t /\ rep s t None /\ NoDup (addrs t).

(** ** The algorithms on trees *)

Definition recolor (k : NodeColor) (v : item) : item :=
  mkItem (i_addr v) (i_start v) (i_end v) (i_max v) k.

Definition remax (m : datetime) (v : item) : item :=
  mkItem (i_addr v) (i_start v) (i_end v) m (i_color v).

Definition fresh_max (l : tree) (v : item) (r : tree) : item :=
  remax (N.max (i_end v) (N.max (max_of l) (max_of r))) v.

Definition rot_left (t : tree) : tree :=
  match t with
  | T l x (T rl y rr) =>
      let x' := fresh_max l x rl in
      T (T l x' rl) (fresh_max (T l x' rl) y rr) rr
  | _ => t
  end.

Definition rot_right (t : tree) : tree :=
  match t with
  | T (T ll y lr) x r =>
      let x' := fresh_max lr x r in
      T ll (fresh_max ll y (T lr x' r)) (T lr x' r)
  | _ => t
  end.

(** The context in which a key lands. *)
Fixpoint descend (k : datetime) (c : ctx) (t : tree) : ctx :=
  match t with
  | E => c
  | T l v r =>
      if k <? i_start v then descend k (InL v r :: c) l
      else descend k (InR l v :: c) r
  end.

(** [max_end] recomputed along a context, the hole having maximum [m]. *)
Fixpoint refresh (c : ctx) (m : datetime) : ctx :=
  match c with
  | [] => []
  | InL v sib :: c =>
      let v' := remax (N.max (i_end v) (N.max m (max_of sib))) v in
      InL v' sib :: refresh c (i_max v')
  | InR sib v :: c =>
      let v' := remax (N.max (i_end v) (N.max (max_of sib) m)) v in
      InR sib v' :: refresh c (i_max v')
  end.

Definition blacken (t : tree) : tree :=
  match t with
  | E => E
  | T l v r => T l (recolor BLACK v) r
  end.

Definition recolor_frame (k : NodeColor) (f : frame) : frame :=
  match f with
  | InL v sib => InL (recolor k v) sib
  | InR sib v => InR sib (recolor k v)
  end.

(** The colour read through a child link: the sentinel's for [E]. *)
Definition link_color (nc : NodeColor) (t : tree) : NodeColor :=
  match t with
  | E => nc
  | T _ v _ => i_color v
  end.

(** One turn of the loop of [_insert_fixup], on the context [c] of the
    node in focus and the subtree [t] under it; [nc] is the sentinel's
    colour.  [None]: the loop condition is false. *)
Definition fixup_turn (nc : NodeColor) (c : ctx) (t : tree)
  : option (NodeColor * ctx * tree) :=
  match c with
  | [] => None
  | fP :: c1 =>
      match i_color (frame_item fP) with
      | BLACK => None
      | RED =>
          match c1 with
          | [] =>
              match fP with
              | InL P sP =>
                  match rot_right (T t P sP) with
                  | T l x' r => Some (nc, [InR l (recolor BLACK x')], r)
                  | E => None
                  end
              | InR sP P => Some (nc, [InR sP (recolor BLACK P)], t)
              end
          | InL G U :: c2 =>
              match link_color nc U with
              | RED =>
                  Some (match U with E => BLACK | _ => nc end, c2,
                        T (fill (recolor_frame BLACK fP) t) (recolor RED G)
                          (blacken U))
              | BLACK =>
                  match fP with
                  | InR sP P =>
                      match rot_left (T sP P t) with
                      | T p x' r =>
                          match rot_right (T (T p (recolor BLACK x') r)
                                             (recolor RED G) U) with
                          | T p' x'' g => Some (nc, InL x'' g :: c2, p')
                          | E => None
                          end
                      | E => None
                      end
                  | InL P sP =>
                      match rot_right (T (T t (recolor BLACK P) sP)
                                         (recolor RED G) U) with
                      | T t' P' g => Some (nc, InL P' g :: c2, t')
                      | E => None
                      end
                  end
              end
          | InR U G :: c2 =>
              match link_color nc U with
              | RED =>
                  Some (match U with E => BLACK | _ => nc end, c2,
                        T (blacken U) (recolor RED G)
                          (fill (recolor_frame BLACK fP) t))
              | BLACK =>
                  match fP with
                  | InL P sP =>
                      match rot_right (T t P sP) with
                      | T l x' p =>
                          match rot_left (T U (recolor RED G)
                                            (T l (recolor BLACK x') p)) with
                          | T g x'' p' => Some (nc, InR g x'' :: c2, p')
                          | E => None
                          end
                      | E => None
                      end
                  | InR sP P =>
                      match rot_left (T U (recolor RED G)
                                        (T sP (recolor BLACK P) t)) with
                      | T g P' t' => Some (nc, InR g P' :: c2, t')
                      | E => None
                      end
                  end
              end
          end
      end
  end.

Fixpoint fixup_loop (fuel : nat) (nc : NodeColor) (c : ctx) (t : tree)
  : option (NodeColor * tree) :=
  match fuel with
  | O => None
  | S fuel =>
      match fixup_turn nc c t with
      | None => Some (nc, plug c t)
      | Some (nc', c', t') => fixup_loop fuel nc' c' t'
      end
  end.

(** ** Auxiliary notions of the proofs *)

(** The state after an assignment to an attribute. *)
Definition store (a : addr) (n : IntervalNode) (s : RedBlackIntervalTree) :=
  mkTree (<[a := n]> (heap s)) (NIL_LEAF s) (root s).

Definition reroot (a : addr) (s : RedBlackIntervalTree) :=
  mkTree (heap s) (NIL_LEAF s) a.

(** Two states that agree on the nodes of [t]. *)
Definition agree_on (l : list addr) (s s' : RedBlackIntervalTree) : Prop :=
  NIL_LEAF s' = NIL_LEAF s /\ forall a, a ∈ l -> heap s' !! a = heap s !! a.

Definition ctx_addrs (c : ctx) : list addr :=
  (i_addr <$> before c) ++ (i_addr <$> after c).

(** What [Rep] says around the node in focus. *)
Record focused (nc : NodeColor) (s : RedBlackIntervalTree) (c : ctx)
    (l : tree) (v : item) (r : tree) : Prop := {
  foc_nil : sentinel_ok s nc;
  foc_ctx : rep_ctx s c (i_addr v);
  foc_ne : i_addr v <> NIL_LEAF s;
  foc_node : node_at s v (root_of s l) (root_of s r) (ctx_parent c);
  foc_l : rep s l (Some (i_addr v));
  foc_r : rep s r (Some (i_addr v));
  foc_nodup : NoDup ((i_addr <$> before c) ++ (addrs l ++ i_addr v :: addrs r)
                       ++ (i_addr <$> after c))
}.

Definition child_known (s : RedBlackIntervalTree) (t : tree) : Prop :=
  forall l v r, t = T l v r ->
    i_addr v <> NIL_LEAF s /\
    exists n, heap s !! i_addr v = Some n /\ max_end n = i_max v.

Definition ctx_sibling (s : RedBlackIntervalTree) (c : ctx) : option addr :=
  match c with
  | [] => None
  | f :: _ => Some (root_of s (frame_sib f))
  end.

(** ** Insertion on trees *)

(** The snapshot of a node when [insert] links it. *)
Definition linked (a : addr) (n : IntervalNode) : item :=
  mkItem a (start n) (end_ n) (max_end n) RED.


(** The same after its [max_end] is recomputed. *)
Definition leaf_item (x : item) : item := fresh_max E (recolor RED x) E.

Definition ins (nc : NodeColor) (t : tree) (x : item) : option (NodeColor * tree) :=
  let c := descend (i_start x) [] t in
  match fixup_loop (S (length c)) nc (refresh c (i_max (leaf_item x)))
          (T E (leaf_item x) E) with
  | Some (nc', t') => Some (match t' with E => BLACK | _ => nc' end, blacken t')
  | None => None
  end.

(** The direction a frame records agrees with the comparison of [insert]. *)
Definition dir_ok (k : datetime) (f : frame) : Prop :=
  match f with
  | InL v _ => (k <? i_start v) = true
  | InR _ v => (k <? i_start v) = false
  end.

(** ** What insertion keeps *)

(** A node apart from its colour and its [max_end]: the object, and the
    interval it carries. *)
Definition key (v : item) : addr * datetime * datetime :=
  (i_addr v, i_start v, i_end v).

(** The nodes of a tree in in-order. *)
Definition keys (t : tree) : list (addr * datetime * datetime) :=
  key <$> elements t.

Definition key_le (a b : addr * datetime * datetime) : Prop := a.1.2 <= b.1.2.

(** The in-order walk meets the start times in non-decreasing order. *)
Definition ordered (t : tree) : Prop := StronglySorted key_le (keys t).

(** The red-black invariants of a whole tree. *)
Definition rb_valid (t : tree) : Prop :=
  color_of t = BLACK /\ no_red_red t = true /\
  exists n, black_height t = Some n.

(** The same around a hole of black height [n]: the only place where a
    RED node may have a RED child is above the hole. *)
Definition ctx_top_black (c : ctx) : Prop :=
  match c with
  | [] => False
  | f :: _ => i_color (frame_item f) = BLACK
  end.

Fixpoint ctx_rb (c : ctx) (n : nat) : Prop :=
  match c with
  | [] => True
  | f :: c' =>
      black_height (frame_sib f) = Some n /\
      no_red_red (frame_sib f) = true /\
      (i_color (frame_item f) = RED ->
       color_of (frame_sib f) = BLACK /\ ctx_top_black c') /\
      ctx_rb c' (match i_color (frame_item f) with BLACK => S n | RED => n end)
  end.

(** The augmentation around a hole whose subtree has maximum [m]. *)
Fixpoint ctx_aug (c : ctx) (m : datetime) : Prop :=
  match c with
  | [] => True
  | f :: c' =>
      aug (frame_sib f) = true /\
      i_max (frame_item f) =
        N.max (i_end (frame_item f)) (N.max m (max_of (frame_sib f))) /\
      ctx_aug c' (i_max (frame_item f))
  end.

(** ** The search on trees *)

(** The node [find_conflict] stops at. *)
Fixpoint search (st en : datetime) (t : tree) : option item :=
  match t with
  | E => None
  | T l v r =>
      if (i_start v <? en) && (st <? i_end v) then Some v
      else if match l with
              | E => false
              | T _ lv _ => st <=? i_max lv
              end
           then search st en l
           else search st en r
  end.

(** Half-open overlap of a stored interval with the bounds of a query. *)
Definition overlaps (st en : datetime) (v : item) : Prop :=
  i_start v < en /\ st < i_end v.

(** ** Recolouring and depth *)

(** The tree after [node.color = k] for the node at address [a]. *)
Fixpoint paint (a : addr) (k : NodeColor) (t : tree) : tree :=
  match t with
  | E => E
  | T l v r =>
      T (paint a k l) (if Nat.eqb (i_addr v) a then recolor k v else v)
        (paint a k r)
  end.

(** The number of proper ancestors of the node at address [b]. *)
Fixpoint depth (b : addr) (t : tree) : nat :=
  match t with
  | E => O
  | T l v r =>
      if Nat.eqb (i_addr v) b then O
      else if bool_decide (b ∈ addrs l) then S (depth b l)
      else S (depth b r)
  end.

Definition sdepth (s : RedBlackIntervalTree) (b : addr) : nat :=
  match tree_of s with
  | Some t => depth b t
  | None => O
  end.

(** ** Reasoning on monadic programs *)

(** [m] returns from [s], with a result and a state that satisfy [Q]. *)
Definition wp {A} (m : M A) (Q : A -> RedBlackIntervalTree -> Prop)
    (s : RedBlackIntervalTree) : Prop :=
  exists x s', m s = Ok (x, s') /\ Q x s'.

(** The links of a node. *)
Definition links (n : IntervalNode) : option addr * option addr * option addr :=
  (left n, right n, parent n).

Definition same_links (s s' : RedBlackIntervalTree) : Prop :=
  NIL_LEAF s' = NIL_LEAF s /\
  forall a, links <$> heap s' !! a = links <$> heap s !! a.

(** ** States that hold a given set of nodes *)

(** The state holds a tree in the sense of [Rep], with the nodes [K] in
    in-order and the sentinel at [N0]; the augmentation holds in it when
    [au] is set. *)
Definition good (K : list (addr * datetime * datetime)) (N0 : addr) (au : bool)
    (s : RedBlackIntervalTree) : Prop :=
  exists nc t, Rep nc s t /\ keys t = K /\ NIL_LEAF s = N0 /\
               (au = true -> aug t = true).

(** A node of the tree. *)
Definition real (K : list (addr * datetime * datetime)) (a : addr) : Prop :=
  a ∈ (fun k => k.1.1) <$> K.

(** A node of the tree or the sentinel. *)
Definition valid (K : list (addr * datetime * datetime)) (N0 : addr) (a : addr)
  : Prop := real K a \/ a = N0.

Definition ovalid (K : list (addr * datetime * datetime)) (N0 : addr)
    (o : option addr) : Prop :=
  match o with
  | Some a => valid K N0 a
  | None => True
  end.

(** [b] is not a child of [a]. *)
Definition not_child (s : RedBlackIntervalTree) (a b : addr) : Prop :=
  forall n, heap s !! a = Some n -> left n <> Some b /\ right n <> Some b.

Definition has_parent (s : RedBlackIntervalTree) (b : addr) : Prop :=
  exists n p, heap s !! b = Some n /\ parent n = Some p.

(** What a change of colours leaves as it is. *)
Definition painted (s s' : RedBlackIntervalTree) : Prop :=
  same_links s s' /\ forall b, sdepth s' b = sdepth s b.

(** What a turn of the loop of [_delete_fixup] leaves: such a state again,
    and either a node higher up to go on with, or the node to stop at. *)
Definition delete_turn_post (K : list (addr * datetime * datetime)) (N0 : addr)
    (au : bool) (s : RedBlackIntervalTree) (new : addr)
    (r : turn) (s' : RedBlackIntervalTree) : Prop :=
  good K N0 au s' /\
  match r with
  | Continue g => valid K N0 g /\ (sdepth s' g < sdepth s new)%nat
  | Break n => valid K N0 n
  end.

(** ** Client programs *)

(** A call of the public interface; [CallDelete i] deletes the node that
    the [i]-th insertion of the program made. *)
Inductive call :=
  | CallInsert (st en : datetime) (d : pyval)
  | CallDelete (i : nat)
  | CallFind (st en : datetime).

Definition call_ok (c : call) : Prop :=
  match c with
  | CallInsert st en _ => st < en
  | _ => True
  end.

(** The calls in turn, on the nodes made so far. *)
Fixpoint client (cs : list call) (nodes : list addr) : M (list addr) :=
  match cs with
  | [] => ret nodes
  | CallInsert st en d :: cs =>
      a <- insert_interval st en d ;; client cs (nodes ++ [a])
  | CallDelete i :: cs =>
      match nodes !! i with
      | Some a => delete a ;;; client cs nodes
      | None => client cs nodes
      end
  | CallFind st en :: cs => find_conflict st en ;;; client cs nodes
  end.

Definition valid_interval (x : datetime * datetime * pyval) : Prop :=
  x.1.1 < x.1.2.

(** ** What no method writes *)

(** The interval and the payload of a node. *)
Definition payload (n : IntervalNode) : datetime * datetime * pyval :=
  (start n, end_ n, data n).

(** The store has the same objects, each with its interval and payload. *)
Definition same_payload (s s' : RedBlackIntervalTree) : Prop :=
  payload <$> heap s' = payload <$> heap s.

(** A program that leaves the intervals and the payloads as they are. *)
Definition safe {A} (m : M A) : Prop :=
  forall s x s', m s = Ok (x, s') -> same_payload s s'.

(** The intervals a program inserts, in the order of the calls. *)
Fixpoint inserted (cs : list call) : list (datetime * datetime * pyval) :=
  match cs with
  | [] => []
  | CallInsert st en d :: cs => (st, en, d) :: inserted cs
  | _ :: cs => inserted cs
  end.

(** ** The traversals *)

(** The objects of a list of nodes. *)
Definition records (s : RedBlackIntervalTree) (l : list item)
  : list IntervalNode :=
  omap (fun v => heap s !! i_addr v) l.

(** The nodes at a depth, from left to right. *)
Fixpoint at_depth (i : nat) (t : tree) : list item :=
  match t with
  | E => []
  | T l v r =>
      match i with
      | O => [v]
      | S i => at_depth i l ++ at_depth i r
      end
  end.

(** The levels of a tree, the root first. *)
Definition levels (t : tree) : list (list item) :=
  (fun i => at_depth i t) <$> seq 0 (height t).

(** The subtrees of a node that hold a node, the left one first. *)
Definition nonempty (t : tree) : list tree :=
  match t with
  | E => []
  | _ => [t]
  end.

Definition kids (t : tree) : list tree :=
  match t with
  | E => []
  | T l _ r => nonempty l ++ nonempty r
  end.

(** A forest: its height, and its nodes at a depth from left to right. *)
Definition forest_height (F : list tree) : nat :=
  foldr Nat.max O (height <$> F).

Definition forest_level (i : nat) (F : list tree) : list item :=
  F ≫= at_depth i.

(** The references to the roots of a forest, as [print_tree_levels] queues
    them at a level. *)
Definition queued (s : RedBlackIntervalTree) (k : nat) (F : list tree)
  : list (addr * nat) :=
  (fun t => (root_of s t, k)) <$> F.

(** The lines that [print_tree_levels] prints for a forest whose roots
    are at level [k]. *)
Definition level_lines (py_str : pyval -> string)
    (strftime : datetime -> string -> string) (s : RedBlackIntervalTree)
    (k : nat) (F : list tree) : list string :=
  (fun j => level_line py_str (k + j)
              (level_text strftime <$> records s (forest_level j F)))
    <$> seq 0 (forest_height F).

(** ** The displays *)

(** The rows of a display, put one after the other. *)
Definition rows_text (rows : list string) : string :=
  foldr String.append EmptyString rows.

(** The nodes of a tree, every node before the nodes below it, the left
    subtree before the right one. *)
Fixpoint preorder (t : tree) : list item :=
  match t with
  | E => []
  | T l v r => v :: preorder l ++ preorder r
  end.

(** The rows of [display_tree]: the level, the prefix, and the node, or
    nothing for the row of an absent child. *)
Fixpoint outline_rows (level : nat) (prefix : string) (t : tree)
  : list (nat * string * option item) :=
  match t with
  | E => []
  | T l v r =>
      (level, prefix, Some v) ::
      match l, r with
      | E, E => []
      | _, _ =>
          match l with
          | E => [(S level, "L--- "%string, None)]
          | _ => outline_rows (S level) "L--- " l
          end ++
          match r with
          | E => [(S level, "R--- "%string, None)]
          | _ => outline_rows (S level) "R--- " r
          end
      end
  end.

(** The rows of [display_tree_ascii]: the branch, and the node. *)
Fixpoint ascii_rows (depth : nat) (prefix : string) (is_left : bool) (t : tree)
  : list (string * item) :=
  match t with
  | E => []
  | T l v r =>
      ascii_rows (S depth) (prefix ++ (if is_left then ascii_bar else "    "))
        false r ++
      ((prefix ++
        (if Nat.eqb depth 0 then EmptyString
         else if is_left then ascii_lower else ascii_upper))%string, v) ::
      ascii_rows (S depth) (prefix ++ (if is_left then "    " else ascii_bar))
        true l
  end.

Section rows.

Variable py_str : pyval -> string.
Variable strftime : datetime -> string -> string.
Variable s : RedBlackIntervalTree.

(** A row of [display_tree] as text. *)
Definition outline_row (row : nat * string * option item) : string :=
  match row.2 with
  | Some v =>
      match heap s !! i_addr v with
      | Some n => display_tree_line py_str strftime row.1.1 row.1.2 n
      | None => EmptyString
      end
  | None => (str_mul "  " row.1.1 ++ row.1.2 ++ "NIL" ++ newline)%string
  end.

(** A row of [display_tree_ascii] as text. *)
Definition ascii_row (row : string * item) : string :=
  match heap s !! i_addr row.2 with
  | Some n => (row.1 ++ display_tree_ascii_text py_str strftime n)%string
  | None => EmptyString
  end.

End rows.

(** ** Example programs and states *)

(** Seven disjoint intervals, in increasing order. *)
Definition seven : list call :=
  [CallInsert 10 15 PNone; CallInsert 20 25 PNone; CallInsert 30 35 PNone;
   CallInsert 40 45 PNone; CallInsert 50 55 PNone; CallInsert 60 65 PNone;
   CallInsert 70 75 PNone].

(** The tree they make: the node of [40, 45) is RED, below the root, with
    the nodes of [30, 35) and [60, 65) as children. *)
Definition seven_tree : tree :=
  T (T E (mkItem 1%nat 10 15 15 BLACK) E)
    (mkItem 2%nat 20 25 75 BLACK)
    (T (T E (mkItem 3%nat 30 35 35 BLACK) E)
       (mkItem 4%nat 40 45 75 RED)
       (T (T E (mkItem 5%nat 50 55 55 RED) E)
          (mkItem 6%nat 60 65 75 BLACK)
          (T E (mkItem 7%nat 70 75 75 RED) E))).

(** Three intervals, the last of which touches the second. *)
Definition touching : list call :=
  [CallInsert 2 4 PNone; CallInsert 1 6 PNone; CallInsert 6 7 PNone].

Definition touching_tree : tree :=
  T (T E (mkItem 2%nat 1 6 6 RED) E)
    (mkItem 1%nat 2 4 7 BLACK)
    (T E (mkItem 3%nat 6 7 7 RED) E).

(** Two deletions between four insertions. *)
Definition two_deletions : list call :=
  [CallInsert 1 2 PNone; CallInsert 2 3 PNone; CallDelete 1;
   CallInsert 3 4 PNone; CallInsert 4 5 PNone; CallDelete 2].

(** Intervals that start at the same instant. *)
Definition same_start3 : list (datetime * datetime * pyval) :=
  [(1, 2, PNone); (1, 3, PNone); (1, 4, PNone)].

Definition same_start3_tree : tree :=
  T (T E (mkItem 1%nat 1 2 2 RED) E)
    (mkItem 2%nat 1 3 4 BLACK)
    (T E (mkItem 3%nat 1 4 4 RED) E).

Definition same_start4 : list (datetime * datetime * pyval) :=
  [(1, 2, PNone); (1, 3, PNone); (1, 4, PNone); (1, 5, PNone)].

Definition same_start4_tree : tree :=
  T (T E (mkItem 1%nat 1 2 2 BLACK) E)
    (mkItem 2%nat 1 3 5 BLACK)
    (T E (mkItem 3%nat 1 4 5 BLACK) (T E (mkItem 4%nat 1 5 5 RED) E)).

(** The state after [insert] of [1, 5) and [2, 6) into a new tree. *)
Definition two_node_state : RedBlackIntervalTree :=
  mkTree
    [mkNode datetime_min (datetime_min + timedelta 1)
       (datetime_min + timedelta 1) BLACK None None None PNone;
     mkNode 1 5 6 BLACK (Some 0%nat) (Some 2%nat) None PNone;
     mkNode 2 6 6 RED (Some 0%nat) (Some 0%nat) (Some 1%nat) PNone]
    0%nat 1%nat.

Definition two_node_tree : tree :=
  T E (mkItem 1%nat 1 5 6 BLACK) (T E (mkItem 2%nat 2 6 6 RED) E).

(** * The monad *)

Lemma bind_Ok {A B} (m : M A) (k : A -> M B) s x s' :
  m s = Ok (x, s') -> bind m k s = k x s'.
Proof. unfold bind. intros ->. reflexivity. Qed.

Lemma bind_ret {A B} (x : A) (k : A -> M B) s : bind (ret x) k s = k x s.
Proof. reflexivity. Qed.

Lemma get_Ok {A} (f : IntervalNode -> A) a s n :
  heap s !! a = Some n -> get f a s = Ok (f n, s).
Proof. unfold get, bind, get_node. intros ->. reflexivity. Qed.

Lemma set_Ok upd a s n :
  heap s !! a = Some n -> set upd a s = Ok (tt, store a (upd n) s).
Proof.
  intros H. unfold set, bind, get_node. rewrite H.
  unfold put_node. rewrite H. reflexivity.
Qed.

Lemma heap_store_eq a n s :
  is_Some (heap s !! a) -> heap (store a n s) !! a = Some n.
Proof.
  intros [m Hm]. simpl. apply list_lookup_insert_eq.
  eapply lookup_lt_Some, Hm.
Qed.

Lemma heap_store_ne a b n s :
  a <> b -> heap (store a n s) !! b = heap s !! b.
Proof. intros. simpl. by apply list_lookup_insert_ne. Qed.

Lemma eqb_addr_false (a b : addr) : a <> b -> Nat.eqb a b = false.
Proof. apply Nat.eqb_neq. Qed.

(** * Trees and contexts *)

Lemma elements_plug c t : elements (plug c t) = before c ++ elements t ++ after c.
Proof.
  revert t. induction c as [|[v sib|sib v] c IH]; intros t; simpl.
  - by rewrite app_nil_r.
  - rewrite IH. simpl. by rewrite <- !app_assoc.
  - rewrite IH. simpl. by rewrite <- !app_assoc.
Qed.

Lemma addrs_T l v r : addrs (T l v r) = addrs l ++ i_addr v :: addrs r.
Proof. unfold addrs. simpl. by rewrite fmap_app. Qed.

Lemma addrs_plug c t :
  addrs (plug c t) = (i_addr <$> before c) ++ addrs t ++ (i_addr <$> after c).
Proof. unfold addrs. by rewrite elements_plug, !fmap_app. Qed.

Lemma size_elements t : size t = length (elements t).
Proof.
  induction t as [|l IHl v r IHr]; simpl; [done|].
  rewrite length_app. simpl. lia.
Qed.

Lemma height_le_size t : (height t <= size t)%nat.
Proof. induction t; simpl; lia. Qed.

Lemma size_plug c t : (length c + size t <= size (plug c t))%nat.
Proof.
  revert t. induction c as [|f c IH]; intros t; simpl; [lia|].
  specialize (IH (fill f t)). destruct f; simpl in *; lia.
Qed.

(** * The representation predicate *)

Lemma rep_plug s c t :
  rep s (plug c t) None /\ root s = root_of s (plug c t) <->
  rep_ctx s c (root_of s t) /\ rep s t (ctx_parent c).
Proof.
  revert t. induction c as [|f c IH]; intros t.
  - simpl. tauto.
  - simpl plug. rewrite IH. destruct f as [v sib|sib v]; simpl; tauto.
Qed.

Lemma agree_on_app l k s s' :
  agree_on (l ++ k) s s' <-> agree_on l s s' /\ agree_on k s s'.
Proof.
  unfold agree_on. split.
  - intros [? H]. repeat split; try done; intros; apply H; set_solver.
  - intros [[? H1] [_ H2]]. split; [done|]. intros a [?|?]%elem_of_app; auto.
Qed.

Lemma root_of_agree l s s' t : agree_on l s s' -> root_of s' t = root_of s t.
Proof. intros [HN _]. destruct t; simpl; congruence. Qed.

Lemma node_at_agree l s s' v a b p :
  agree_on l s s' -> i_addr v ∈ l -> node_at s v a b p -> node_at s' v a b p.
Proof.
  intros [_ H] Hin (n & Hn & ?). exists n. split; [|done].
  rewrite H; done.
Qed.

Lemma rep_agree s s' t p :
  agree_on (addrs t) s s' -> rep s t p -> rep s' t p.
Proof.
  revert p. induction t as [|l IHl v r IHr]; intros p Hag; simpl; [done|].
  rewrite addrs_T in Hag. apply agree_on_app in Hag as [Hl Hvr].
  change (i_addr v :: addrs r) with ([i_addr v] ++ addrs r) in Hvr.
  apply agree_on_app in Hvr as [Hv Hr].
  intros (Hnil & Hn & Hrl & Hrr).
  rewrite (root_of_agree _ _ _ _ Hl), (root_of_agree _ _ _ _ Hr).
  destruct (Hl) as [-> _]. split; [done|]. split.
  - eapply node_at_agree; [exact Hv| set_solver | done].
  - split; [apply IHl | apply IHr]; done.
Qed.

Lemma agree_on_mono l k s s' :
  (forall a, a ∈ k -> a ∈ l) -> agree_on l s s' -> agree_on k s s'.
Proof. intros Hsub [? H]. split; [done|]. intros a Ha. apply H, Hsub, Ha. Qed.

Lemma rep_ctx_agree s s' c x :
  agree_on (ctx_addrs c) s s' -> root s' = root s ->
  rep_ctx s c x -> rep_ctx s' c x.
Proof.
  intros Hag Hroot. revert x. induction c as [|f c IH]; intros x; simpl.
  { congruence. }
  intros (Hnil & Hn & Hsib & Hc).
  assert (Hv : i_addr (frame_item f) ∈ ctx_addrs (f :: c)).
  { unfold ctx_addrs. destruct f; simpl; rewrite ?fmap_app; simpl; set_solver. }
  assert (Hs : forall a, a ∈ addrs (frame_sib f) -> a ∈ ctx_addrs (f :: c)).
  { unfold ctx_addrs, addrs. destruct f; simpl; rewrite ?fmap_app; simpl;
      set_solver. }
  assert (Hr : forall a, a ∈ ctx_addrs c -> a ∈ ctx_addrs (f :: c)).
  { unfold ctx_addrs. destruct f; simpl; rewrite ?fmap_app; simpl; set_solver. }
  assert (HN : NIL_LEAF s' = NIL_LEAF s) by apply Hag.
  split; [congruence|]. split; [|split].
  - assert (frame_left s' f x = frame_left s f x) as ->.
    { destruct f; simpl; [done|]. eapply root_of_agree, Hag. }
    assert (frame_right s' f x = frame_right s f x) as ->.
    { destruct f; simpl; [|done]. eapply root_of_agree, Hag. }
    eapply node_at_agree; [exact Hag|exact Hv|exact Hn].
  - eapply rep_agree; [|exact Hsib]. eapply agree_on_mono; [exact Hs|exact Hag].
  - apply IH; [|exact Hc]. eapply agree_on_mono; [exact Hr|exact Hag].
Qed.

Lemma Rep_focused nc s c l v r :
  Rep nc s (plug c (T l v r)) <-> focused nc s c l v r.
Proof.
  unfold Rep. rewrite addrs_plug, addrs_T. split.
  - intros (Hnil & Hroot & Hrep & Hnd).
    destruct (proj1 (rep_plug s c (T l v r)) (conj Hrep Hroot)) as [Hc Ht].
    simpl in Hc, Ht. destruct Ht as (? & ? & ? & ?). by constructor.
  - intros [Hnil Hc Hne Hn Hl Hr Hnd].
    destruct (proj2 (rep_plug s c (T l v r))) as [? ?]; [|done].
    simpl. done.
Qed.

Lemma focused_notin nc s c l v r :
  focused nc s c l v r ->
  (i_addr v ∉ ctx_addrs c) /\ (i_addr v ∉ addrs l) /\ (i_addr v ∉ addrs r).
Proof.
  intros [_ _ _ _ _ _ Hnd]. unfold ctx_addrs.
  apply NoDup_app in Hnd as (_ & H1 & Hnd).
  apply NoDup_app in Hnd as (Hnd & H2 & _).
  apply NoDup_app in Hnd as (_ & H3 & Hnd).
  apply NoDup_cons in Hnd as (H4 & _).
  set_solver.
Qed.

(** Reading the node in focus. *)
Lemma focus_get {A} (f : IntervalNode -> A) nc s c l v r :
  Rep nc s (plug c (T l v r)) ->
  exists n, get f (i_addr v) s = Ok (f n, s) /\
            heap s !! i_addr v = Some n /\
            item_of (i_addr v) n = v /\ left n = Some (root_of s l) /\
            right n = Some (root_of s r) /\ parent n = ctx_parent c.
Proof.
  intros [_ _ _ (n & Hn & ?) _ _ _]%Rep_focused. exists n.
  split; [by apply get_Ok|done].
Qed.

Lemma focus_parent nc s c l v r :
  Rep nc s (plug c (T l v r)) -> get parent (i_addr v) s = Ok (ctx_parent c, s).
Proof. intros (n & -> & _ & _ & _ & _ & ->)%(focus_get parent). done. Qed.

Lemma focus_left nc s c l v r :
  Rep nc s (plug c (T l v r)) -> get left (i_addr v) s = Ok (Some (root_of s l), s).
Proof. intros (n & -> & _ & _ & -> & _)%(focus_get left). done. Qed.

Lemma focus_right nc s c l v r :
  Rep nc s (plug c (T l v r)) -> get right (i_addr v) s = Ok (Some (root_of s r), s).
Proof. intros (n & -> & _ & _ & _ & -> & _)%(focus_get right). done. Qed.

Lemma focus_color nc s c l v r :
  Rep nc s (plug c (T l v r)) -> get color (i_addr v) s = Ok (i_color v, s).
Proof. intros (n & -> & _ & <- & _)%(focus_get color). done. Qed.

Lemma focus_start nc s c l v r :
  Rep nc s (plug c (T l v r)) -> get start (i_addr v) s = Ok (i_start v, s).
Proof. intros (n & -> & _ & <- & _)%(focus_get start). done. Qed.

Lemma focus_end nc s c l v r :
  Rep nc s (plug c (T l v r)) -> get end_ (i_addr v) s = Ok (i_end v, s).
Proof. intros (n & -> & _ & <- & _)%(focus_get end_). done. Qed.

Lemma focus_max_end nc s c l v r :
  Rep nc s (plug c (T l v r)) -> get max_end (i_addr v) s = Ok (i_max v, s).
Proof. intros (n & -> & _ & <- & _)%(focus_get max_end). done. Qed.

Lemma focus_real nc s c l v r :
  Rep nc s (plug c (T l v r)) -> Nat.eqb (i_addr v) (NIL_LEAF s) = false.
Proof. intros [_ _ ? _ _ _ _]%Rep_focused. by apply Nat.eqb_neq. Qed.

(** Reading the sentinel. *)
Lemma sentinel_get {A} (f : IntervalNode -> A) nc s t :
  Rep nc s t ->
  exists n, get f (NIL_LEAF s) s = Ok (f n, s) /\ color n = nc /\
            left n = None /\ right n = None /\ parent n = None.
Proof.
  intros ((n & Hn & ?) & _). exists n. split; [by apply get_Ok|done].
Qed.

(** An assignment to the node in focus that keeps its links. *)
Lemma focus_set upd nc s c l v r :
  Rep nc s (plug c (T l v r)) ->
  (forall n, left (upd n) = left n /\ right (upd n) = right n /\
             parent (upd n) = parent n) ->
  exists n s', heap s !! i_addr v = Some n /\ item_of (i_addr v) n = v /\
    set upd (i_addr v) s = Ok (tt, s') /\
    NIL_LEAF s' = NIL_LEAF s /\
    Rep nc s' (plug c (T l (item_of (i_addr v) (upd n)) r)).
Proof.
  intros H Hupd. pose proof H as Hfoc%Rep_focused.
  destruct (focused_notin _ _ _ _ _ _ Hfoc) as (Hc & Hl & Hr).
  destruct Hfoc as [Hnil Hctx Hne (n & Hn & Hv & Hnl & Hnr & Hnp) Hrl Hrr Hnd].
  exists n, (store (i_addr v) (upd n) s).
  split; [done|]. split; [done|]. split; [by apply set_Ok|].
  split; [done|].
  assert (Hag : forall k, i_addr v ∉ k ->
                          agree_on k s (store (i_addr v) (upd n) s)).
  { intros k Hk. split; [done|]. intros a Ha. apply heap_store_ne.
    intros Heq. by rewrite <- Heq in Ha. }
  apply Rep_focused. destruct (Hupd n) as (Hul & Hur & Hup).
  constructor.
  - destruct Hnil as (m & Hm & ?). exists m. split; [|done].
    change (NIL_LEAF (store (i_addr v) (upd n) s)) with (NIL_LEAF s).
    rewrite heap_store_ne; done.
  - eapply rep_ctx_agree; [by apply Hag|done|done].
  - done.
  - exists (upd n). simpl i_addr. rewrite heap_store_eq by (by eexists).
    split; [done|]. split; [done|].
    rewrite (root_of_agree _ _ _ l (Hag [] ltac:(set_solver))),
      (root_of_agree _ _ _ r (Hag [] ltac:(set_solver))).
    split; [congruence|]. split; congruence.
  - eapply rep_agree; [by apply Hag|done].
  - eapply rep_agree; [by apply Hag|done].
  - done.
Qed.

(** * Executing programs on a known store *)

Lemma run_get {A B} (f : IntervalNode -> A) (k : A -> M B) a s n :
  heap s !! a = Some n -> bind (get f a) k s = k (f n) s.
Proof. intros H. apply bind_Ok, get_Ok, H. Qed.

Lemma run_set {B} upd (k : unit -> M B) a s n :
  heap s !! a = Some n -> bind (set upd a) k s = k tt (store a (upd n) s).
Proof. intros H. apply bind_Ok, set_Ok, H. Qed.

Lemma run_set_last upd a s n :
  heap s !! a = Some n -> set upd a s = Ok (tt, store a (upd n) s).
Proof. apply set_Ok. Qed.

Lemma run_set_root {B} (k : unit -> M B) a s :
  bind (set_root a) k s = k tt (reroot a s).
Proof. reflexivity. Qed.

Lemma heap_reroot a s : heap (reroot a s) = heap s.
Proof. reflexivity. Qed.

Lemma NIL_store a n s : NIL_LEAF (store a n s) = NIL_LEAF s.
Proof. reflexivity. Qed.

Lemma NIL_reroot a s : NIL_LEAF (reroot a s) = NIL_LEAF s.
Proof. reflexivity. Qed.

Lemma root_store a n s : root (store a n s) = root s.
Proof. reflexivity. Qed.

Lemma root_reroot a s : root (reroot a s) = a.
Proof. reflexivity. Qed.

Lemma run_get_NIL {B} (k : addr -> M B) s : bind get_NIL k s = k (NIL_LEAF s) s.
Proof. reflexivity. Qed.

Lemma child_max_end_at s t :
  child_known s t ->
  child_max_end (Some (root_of s t)) s = Ok (max_of t, s).
Proof.
  intros H. unfold child_max_end. rewrite run_get_NIL.
  destruct t as [|l v r]; simpl.
  - by rewrite Nat.eqb_refl.
  - destruct (H l v r eq_refl) as (Hne & n & Hn & Hm).
    rewrite eqb_addr_false by done. rewrite (get_Ok _ _ _ _ Hn). by rewrite Hm.
Qed.

Lemma rep_root s t p l v r :
  rep s t p -> t = T l v r ->
  exists n, i_addr v <> NIL_LEAF s /\ heap s !! i_addr v = Some n /\
            item_of (i_addr v) n = v /\ left n = Some (root_of s l) /\
            right n = Some (root_of s r) /\ parent n = p /\
            rep s l (Some (i_addr v)) /\ rep s r (Some (i_addr v)).
Proof.
  intros H ->. destruct H as (? & (n & ? & ? & ? & ? & ?) & ? & ?).
  exists n. done.
Qed.

Lemma ctx_addrs_cons f c a :
  a ∈ ctx_addrs (f :: c) <->
  a = i_addr (frame_item f) \/ a ∈ addrs (frame_sib f) \/ a ∈ ctx_addrs c.
Proof.
  unfold ctx_addrs, addrs. destruct f; simpl; rewrite ?fmap_app; simpl;
    set_solver.
Qed.

(** The context after the child in the hole is replaced. *)
Lemma rep_ctx_rechild s s' c x y :
  rep_ctx s c x -> NIL_LEAF s' = NIL_LEAF s ->
  match c with
  | [] => root s' = y
  | f :: c' =>
      root s' = root s /\
      node_at s' (frame_item f) (frame_left s f y) (frame_right s f y)
        (ctx_parent c') /\
      agree_on (addrs (frame_sib f) ++ ctx_addrs c') s s'
  end ->
  rep_ctx s' c y.
Proof.
  destruct c as [|f c]; simpl; [done|].
  intros (Hne & _ & Hsib & Hc) HN (Hroot & Hn & Hag).
  apply agree_on_app in Hag as [Hag1 Hag2].
  split; [congruence|]. split; [|split].
  - assert (frame_left s' f y = frame_left s f y) as ->.
    { destruct f; simpl; [done|]. eapply root_of_agree, Hag1. }
    assert (frame_right s' f y = frame_right s f y) as ->.
    { destruct f; simpl; [|done]. eapply root_of_agree, Hag1. }
    done.
  - eapply rep_agree; done.
  - eapply rep_ctx_agree; done.
Qed.

Lemma agree_on_refl k s : agree_on k s s.
Proof. by split. Qed.

Lemma agree_on_store k s s' a n :
  a ∉ k -> agree_on k s s' -> agree_on k s (store a n s').
Proof.
  intros Ha [HN H]. split; [done|]. intros b Hb.
  rewrite heap_store_ne; [by apply H|]. intros ->. done.
Qed.

Lemma agree_on_reroot k s s' a :
  agree_on k s s' -> agree_on k s (reroot a s').
Proof. intros [HN H]. by split. Qed.

Lemma NoDup_ctx_addrs c m :
  NoDup ((i_addr <$> before c) ++ m ++ (i_addr <$> after c)) ->
  NoDup (ctx_addrs c) /\ NoDup m /\ (forall a, a ∈ m -> a ∉ ctx_addrs c).
Proof.
  unfold ctx_addrs. rewrite !NoDup_app. set_solver.
Qed.

Lemma frame_item_notin f c :
  NoDup (ctx_addrs (f :: c)) ->
  i_addr (frame_item f) ∉ addrs (frame_sib f) ++ ctx_addrs c.
Proof.
  unfold ctx_addrs, addrs.
  destruct f as [v sib|sib v]; simpl; rewrite ?fmap_app; simpl;
    rewrite ?fmap_app; simpl.
  - intros Hnd. apply NoDup_app in Hnd as (H1 & H2 & H3).
    apply NoDup_cons in H3 as (H3 & H4). set_solver.
  - rewrite <- !app_assoc. simpl. intros Hnd.
    apply NoDup_app in Hnd as (H1 & H2 & H3).
    apply NoDup_app in H3 as (H3 & H4 & H5).
    apply NoDup_cons in H5 as (H5 & H6). set_solver.
Qed.

(** [_update_max_end] on a node whose children are known. *)
Lemma update_max_end_at s a n tl tr :
  heap s !! a = Some n -> a <> NIL_LEAF s ->
  left n = Some (root_of s tl) -> right n = Some (root_of s tr) ->
  child_known s tl -> child_known s tr ->
  _update_max_end (Some a) s =
    Ok (tt, store a (with_max_end
                       (N.max (end_ n) (N.max (max_of tl) (max_of tr))) n) s).
Proof.
  intros Hn Hne Hl Hr Htl Htr. unfold _update_max_end.
  rewrite run_get_NIL, eqb_addr_false by done.
  rewrite (run_get _ _ _ _ _ Hn), (run_get _ _ _ _ _ Hn), Hl.
  rewrite (bind_Ok _ _ _ _ _ (child_max_end_at _ _ Htl)).
  rewrite (run_get _ _ _ _ _ Hn), Hr.
  rewrite (bind_Ok _ _ _ _ _ (child_max_end_at _ _ Htr)).
  by apply set_Ok.
Qed.

Ltac nsimp :=
  cbn [parent left right color max_end end_ start data
       with_right with_left with_parent with_color with_max_end].

Ltac hlook :=
  repeat first
    [ rewrite heap_reroot
    | rewrite heap_store_eq by (eexists; hlook)
    | rewrite heap_store_ne by congruence ];
  first [ eassumption | reflexivity ].

Lemma bind_assoc {A B C} (m : M A) (k1 : A -> M B) (k2 : B -> M C) s :
  bind (bind m k1) k2 s = bind m (fun x => bind (k1 x) k2) s.
Proof. unfold bind. destruct (m s) as [[x s']|e]; reflexivity. Qed.

Ltac step :=
  lazymatch goal with
  | |- bind (bind _ _) _ _ = _ => rewrite bind_assoc
  | |- bind get_NIL _ _ = _ => rewrite run_get_NIL
  | |- bind (ret _) _ _ = _ => rewrite bind_ret
  | |- bind (set_root _) _ _ = _ => rewrite run_set_root
  | |- bind (get ?f ?a) _ ?S = _ => erewrite (run_get f _ a S) by hlook
  | |- bind (set ?u ?a) _ ?S = _ => erewrite (run_set u _ a S) by hlook
  | |- set ?u ?a ?S = _ => erewrite (run_set_last u a S) by hlook
  end; nsimp; rewrite ?NIL_store, ?NIL_reroot.

Lemma rep_child_known s t p : rep s t p -> child_known s t.
Proof.
  destruct t as [|l v r]; [done|].
  intros (Hne & (n & Hn & Hv & _) & _). intros ? ? ? [= <- <- <-].
  split; [done|]. exists n. split; [done|]. by rewrite <- Hv.
Qed.

Lemma Rep_of_focused nc s c l v r :
  focused nc s c l v r -> Rep nc s (plug c (T l v r)).
Proof. apply Rep_focused. Qed.

(** * Distinct addresses *)

Lemma NoDup_mid (L RL RR : list addr) xa ya :
  NoDup (L ++ xa :: RL ++ ya :: RR) ->
  xa <> ya /\ (xa ∉ L) /\ (xa ∉ RL) /\ (xa ∉ RR) /\
  (ya ∉ L) /\ (ya ∉ RL) /\ (ya ∉ RR) /\
  (forall a, a ∈ L -> a ∉ RL) /\ (forall a, a ∈ L -> a ∉ RR) /\
  (forall a, a ∈ RL -> a ∉ RR).
Proof.
  rewrite !NoDup_app, !NoDup_cons, !NoDup_app, !NoDup_cons. set_solver.
Qed.

Lemma elem_mid (L RL RR : list addr) xa ya a :
  a ∈ L ++ xa :: RL ++ ya :: RR <->
  a ∈ L \/ a = xa \/ a ∈ RL \/ a = ya \/ a ∈ RR.
Proof. set_solver. Qed.

Lemma root_in t l v r : t = T l v r -> i_addr v ∈ addrs t.
Proof. intros ->. rewrite addrs_T. set_solver. Qed.

Lemma root_of_ne s t a :
  a <> NIL_LEAF s -> a ∉ addrs t -> root_of s t <> a.
Proof.
  intros Hne Hnot. destruct t as [|l v r]; simpl; [congruence|].
  intros <-. apply Hnot. rewrite addrs_T. set_solver.
Qed.

Lemma notin_sub (k l : list addr) a :
  (forall b, b ∈ k -> b ∈ l) -> a ∉ l -> a ∉ k.
Proof. intros Hs Hn Hin. apply Hn, Hs, Hin. Qed.

Lemma sentinel_ok_agree s s' nc :
  agree_on [NIL_LEAF s] s s' -> sentinel_ok s nc -> sentinel_ok s' nc.
Proof.
  intros [HN H] (n & Hn & ?). exists n. split; [|done].
  rewrite HN, H; [done|]. set_solver.
Qed.

Lemma notin_singleton (a b : addr) : a <> b -> a ∉ [b].
Proof. set_solver. Qed.

Lemma root_of_store a n s t : root_of (store a n s) t = root_of s t.
Proof. by destruct t. Qed.

Lemma root_of_reroot a s t : root_of (reroot a s) t = root_of s t.
Proof. by destruct t. Qed.

Lemma notin_T_l a l v r : a ∉ addrs (T l v r) -> a ∉ addrs l.
Proof. rewrite addrs_T. set_solver. Qed.
Lemma notin_T_r a l v r : a ∉ addrs (T l v r) -> a ∉ addrs r.
Proof. rewrite addrs_T. set_solver. Qed.
Lemma notin_T_ne a l v r : a ∉ addrs (T l v r) -> a <> i_addr v.
Proof. rewrite addrs_T. set_solver. Qed.
Lemma notin_swap (k m : list addr) b :
  (forall a, a ∈ k -> a ∉ m) -> b ∈ m -> b ∉ k.
Proof. intros H Hb Hk. by apply (H b). Qed.
Lemma notin_app (k m : list addr) a : a ∉ k -> a ∉ m -> a ∉ k ++ m.
Proof. set_solver. Qed.
Lemma notin_app_l (k m : list addr) a : a ∉ k ++ m -> a ∉ k.
Proof. set_solver. Qed.
Lemma notin_app_r (k m : list addr) a : a ∉ k ++ m -> a ∉ m.
Proof. set_solver. Qed.
Lemma notin_ctx_sib f c a : a ∉ ctx_addrs (f :: c) -> a ∉ addrs (frame_sib f).
Proof. rewrite ctx_addrs_cons. tauto. Qed.
Lemma notin_ctx_tl f c a : a ∉ ctx_addrs (f :: c) -> a ∉ ctx_addrs c.
Proof. rewrite ctx_addrs_cons. tauto. Qed.
Lemma notin_ctx_hd f c a : a ∉ ctx_addrs (f :: c) -> a <> i_addr (frame_item f).
Proof. rewrite ctx_addrs_cons. tauto. Qed.
Lemma elem_ctx_hd f c : i_addr (frame_item f) ∈ ctx_addrs (f :: c).
Proof. rewrite ctx_addrs_cons. tauto. Qed.
Lemma NoDup_T_root l v r : NoDup (addrs (T l v r)) ->
  (i_addr v ∉ addrs l) /\ (i_addr v ∉ addrs r).
Proof. rewrite addrs_T, NoDup_app, NoDup_cons. set_solver. Qed.
Lemma elem_root l v r : i_addr v ∈ addrs (T l v r).
Proof. rewrite addrs_T. set_solver. Qed.

Create HintDb nd discriminated.
#[export] Hint Resolve notin_T_l notin_T_r notin_singleton : nd.

Ltac agree :=
  repeat first
    [ apply agree_on_reroot
    | apply agree_on_store; [solve [eauto 3 with nd]|] ];
  apply agree_on_refl.

Lemma run_update_max_end {B} (k : unit -> M B) s a n tl tr :
  heap s !! a = Some n ->
  a <> NIL_LEAF s ->
  left n = Some (root_of s tl) -> right n = Some (root_of s tr) ->
  child_known s tl -> child_known s tr ->
  bind (_update_max_end (Some a)) k s =
    k tt (store a (with_max_end
                     (N.max (end_ n) (N.max (max_of tl) (max_of tr))) n) s).
Proof.
  intros. apply bind_Ok. by eapply update_max_end_at.
Qed.

Lemma child_known_agree s s' t :
  child_known s t -> agree_on (addrs t) s s' -> child_known s' t.
Proof.
  intros H [HN Hag] l v r Ht. destruct (H l v r Ht) as (? & n & ? & ?).
  rewrite HN, Hag; [|eapply root_in, Ht]. split; [done|]. by exists n.
Qed.

Ltac child_side :=
  first
    [ by (intros ? ? ? ?)
    | intros ? ? ? [= <- <- <-];
      rewrite ?NIL_store, ?NIL_reroot; simpl i_addr;
      (split; [done|]); eexists; (split; [hlook|nsimp; done])
    | eapply child_known_agree; [eassumption|agree] ].

Ltac step_update tl tr :=
  lazymatch goal with
  | |- bind (_update_max_end (Some ?a)) ?k ?S = _ =>
      erewrite (run_update_max_end k S a _ tl tr)
  | |- _update_max_end (Some ?a) ?S = _ =>
      erewrite (update_max_end_at S a _ tl tr)
  end;
  [ | hlook
    | rewrite ?NIL_store, ?NIL_reroot; done
    | nsimp; rewrite ?root_of_store, ?root_of_reroot; done
    | nsimp; rewrite ?root_of_store, ?root_of_reroot; done
    | child_side
    | child_side ];
  nsimp.

Ltac node_tac :=
  eexists; split; [simpl i_addr; hlook|]; nsimp;
  rewrite ?root_of_store, ?root_of_reroot; done.

Ltac rep_frame := eapply rep_agree; [|eassumption]; agree.

(** * Rotations *)

Lemma left_rotate_focus nc s c l x rl y rr :
  Rep nc s (plug c (T l x (T rl y rr))) ->
  exists s', _left_rotate (i_addr x) s = Ok (tt, s') /\
             NIL_LEAF s' = NIL_LEAF s /\
             Rep nc s' (plug c (rot_left (T l x (T rl y rr)))).
Proof.
  intros H. pose proof H as Hfoc%Rep_focused.
  destruct Hfoc as [Hnil Hctx Hxne (nx & Hnx & Hvx & Hxl & Hxr & Hxp) Hrl Hrr Hnd].
  destruct (rep_root _ _ _ _ _ _ Hrr eq_refl)
    as (ny & Hyne & Hny & Hvy & Hyl & Hyr & Hyp & Hrrl & Hrrr).
  simpl in Hxr. rewrite addrs_T in Hnd.
  assert (Hnd' : NoDup ((i_addr <$> before c) ++
                        ((addrs l ++ i_addr x :: addrs rl) ++ i_addr y :: addrs rr)
                        ++ (i_addr <$> after c))).
  { rewrite <- (app_assoc (addrs l)). exact Hnd. }
  destruct (NoDup_ctx_addrs _ _ Hnd) as (Hndc & Hndm & Hdisj).
  destruct (NoDup_mid _ _ _ _ _ Hndm)
    as (Hxy & HxL & HxRL & HxRR & HyL & HyRL & HyRR & HLRL & HLRR & HRLRR).
  assert (HxC : i_addr x ∉ ctx_addrs c) by (apply Hdisj, elem_mid; auto).
  assert (HyC : i_addr y ∉ ctx_addrs c) by (apply Hdisj, elem_mid; auto).
  assert (HLC : forall a, a ∈ addrs l -> a ∉ ctx_addrs c)
    by (intros; apply Hdisj, elem_mid; auto).
  assert (HRLC : forall a, a ∈ addrs rl -> a ∉ ctx_addrs c)
    by (intros; apply Hdisj, elem_mid; auto).
  assert (HRRC : forall a, a ∈ addrs rr -> a ∉ ctx_addrs c)
    by (intros; apply Hdisj, elem_mid; auto 6).
  assert (HndRL : NoDup (addrs rl)).
  { clear -Hndm. rewrite !NoDup_app, !NoDup_cons, !NoDup_app in Hndm. tauto. }
  pose proof (rep_child_known _ _ _ Hrl) as Hnl.
  pose proof (rep_child_known _ _ _ Hrrr) as Hnrr.
  clear Hdisj Hndm H Hnd.
  destruct x as [xa xs xe xm xc], y as [ya ys ye ym yc].
  simpl i_addr in *. injection Hvx as <- <- <- <-. injection Hvy as <- <- <- <-.
  unfold _left_rotate.
  assert (Hpar : match c with
                 | [] => True
                 | f :: c' =>
                     exists np, heap s !! i_addr (frame_item f) = Some np /\
                       item_of (i_addr (frame_item f)) np = frame_item f /\
                       left np = Some (frame_left s f xa) /\
                       right np = Some (frame_right s f xa) /\
                       parent np = ctx_parent c' /\
                       i_addr (frame_item f) <> NIL_LEAF s /\
                       (i_addr (frame_item f) ∉ addrs (frame_sib f) ++ ctx_addrs c') /\
                       i_addr (frame_item f) <> xa /\
                       i_addr (frame_item f) <> ya /\
                       (i_addr (frame_item f) ∉ addrs l) /\
                       (i_addr (frame_item f) ∉ addrs rl) /\
                       (i_addr (frame_item f) ∉ addrs rr) /\
                       (xa ∉ addrs (frame_sib f) ++ ctx_addrs c') /\
                       (ya ∉ addrs (frame_sib f) ++ ctx_addrs c') /\
                       (forall a, a ∈ addrs rl ->
                                  a ∉ addrs (frame_sib f) ++ ctx_addrs c')
                 end).
  { destruct c as [|f c']; [done|].
    destruct Hctx as (? & (np & ? & ? & ? & ? & ?) & _). exists np.
    pose proof (elem_ctx_hd f c') as Hin.
    repeat (split; [done|]). split; [by apply frame_item_notin|].
    split; [by intros <-|]. split; [by intros <-|].
    split; [by apply (notin_swap _ _ _ HLC)|].
    split; [by apply (notin_swap _ _ _ HRLC)|].
    split; [by apply (notin_swap _ _ _ HRRC)|].
    split; [apply notin_app; eauto using notin_ctx_sib, notin_ctx_tl|].
    split; [apply notin_app; eauto using notin_ctx_sib, notin_ctx_tl|].
    intros a Ha. apply notin_app; eauto using notin_ctx_sib, notin_ctx_tl. }
  assert (Hroot : match c with
                  | [] => True
                  | f :: _ => root_of s (frame_sib f) <> xa
                  end).
  { destruct c as [|f c']; [done|]. apply root_of_ne; [done|].
    eapply notin_ctx_sib, HxC. }
  destruct rl as [|rll z rlr];
  [ | destruct (rep_root _ _ _ _ _ _ Hrrl eq_refl)
        as (nz & Hzne & Hnz & Hvz & Hzl & Hzr & Hzp & Hrz1 & Hrz2);
      destruct (NoDup_T_root _ _ _ HndRL) as (HzRLL & HzRLR);
      destruct z as [za zs ze zm zc]; simpl i_addr in *;
      injection Hvz as <- <- <- <- ];
  (destruct c as [|[p sib|sib p] c'];
   [ | destruct Hpar as (np & Hnp & Hvp & Hpl & Hpr & Hpp & Hpne & Hpnot &
                         Hpx & Hpy & HpL & HpRL & HpRR & Hxs & Hys & HRLs);
       destruct p as [pa ps pe pm pc]; simpl i_addr in *;
       injection Hvp as <- <- <- <-
     | destruct Hpar as (np & Hnp & Hvp & Hpl & Hpr & Hpp & Hpne & Hpnot &
                         Hpx & Hpy & HpL & HpRL & HpRR & Hxs & Hys & HRLs);
       destruct p as [pa ps pe pm pc]; simpl i_addr in *;
       injection Hvp as <- <- <- <- ]);
  simpl frame_item in *; simpl frame_sib in *; simpl frame_left in *;
  simpl frame_right in *.
  all: try (assert (Hxz : xa <> za) by exact (notin_T_ne _ _ _ _ HxRL)).
  all: try (assert (Hyz : ya <> za) by exact (notin_T_ne _ _ _ _ HyRL)).
  all: try (assert (Hpz : pa <> za) by exact (notin_T_ne _ _ _ _ HpRL)).
  all: try (assert (HzL : za ∉ addrs l)
              by exact (notin_swap _ _ _ HLRL (elem_root _ _ _))).
  all: try (assert (HzRR : za ∉ addrs rr) by exact (HRLRR _ (elem_root _ _ _))).
  all: try (assert (Hzs : za ∉ addrs sib ++ ctx_addrs c')
              by exact (HRLs _ (elem_root _ _ _))).
  all: eexists; split;
    [ step; step; rewrite Hxr; rewrite eqb_addr_false by done;
      step; rewrite Hyl; step; simpl root_of; nsimp;
      first [ rewrite Nat.eqb_refl; step
            | rewrite (eqb_addr_false _ _ Hzne); step ];
      step; rewrite Hxp; simpl ctx_parent; nsimp;
      step;
      first [ step; step; rewrite Hpl; unfold is_obj;
              first [ rewrite Nat.eqb_refl
                    | rewrite (eqb_addr_false _ _ Hroot) ]; step
            | step ];
      step; step;
      first [ step_update l (E : tree);
              step_update (T l (fresh_max l (item_of xa nx) E) E) rr
            | step_update l (T rll (item_of za nz) rlr);
              step_update (T l (fresh_max l (item_of xa nx)
                                  (T rll (item_of za nz) rlr))
                             (T rll (item_of za nz) rlr)) rr ];
      reflexivity
    | split; [reflexivity|] ].
  all: simpl rot_left; apply Rep_of_focused; constructor;
    [ eapply sentinel_ok_agree; [|exact Hnil]; agree
    | eapply rep_ctx_rechild; [exact Hctx|reflexivity|];
      first [ reflexivity | split; [reflexivity|]; split; [node_tac|agree] ]
    | done
    | simpl in Hxp; node_tac
    | split; [done|]; split; [node_tac|]; split; [rep_frame|];
      first [ done
            | split; [done|]; split; [node_tac|]; split; rep_frame ]
    | rep_frame
    | rewrite addrs_T; exact Hnd' ].
Qed.

Lemma right_rotate_focus nc s c ll y lr x r :
  Rep nc s (plug c (T (T ll y lr) x r)) ->
  exists s', _right_rotate (i_addr x) s = Ok (tt, s') /\
             NIL_LEAF s' = NIL_LEAF s /\
             Rep nc s' (plug c (rot_right (T (T ll y lr) x r))).
Proof.
  intros H. pose proof H as Hfoc%Rep_focused.
  destruct Hfoc as [Hnil Hctx Hxne (nx & Hnx & Hvx & Hxl & Hxr & Hxp) Hrl Hrr Hnd].
  destruct (rep_root _ _ _ _ _ _ Hrl eq_refl)
    as (ny & Hyne & Hny & Hvy & Hyl & Hyr & Hyp & Hrll & Hrlr).
  simpl in Hxl. rewrite addrs_T in Hnd.
  assert (Hnd' : NoDup ((i_addr <$> before c) ++
                        (addrs ll ++ i_addr y :: addrs lr ++ i_addr x :: addrs r)
                        ++ (i_addr <$> after c))).
  { rewrite <- (app_assoc (addrs ll)) in Hnd. exact Hnd. }
  destruct (NoDup_ctx_addrs _ _ Hnd') as (Hndc & Hndm & Hdisj).
  destruct (NoDup_mid _ _ _ _ _ Hndm)
    as (Hyx & HyL & HyRL & HyRR & HxL & HxRL & HxRR & HLRL & HLRR & HRLRR).
  assert (HxC : i_addr x ∉ ctx_addrs c) by (apply Hdisj, elem_mid; auto).
  assert (HyC : i_addr y ∉ ctx_addrs c) by (apply Hdisj, elem_mid; auto).
  assert (HLC : forall a, a ∈ addrs ll -> a ∉ ctx_addrs c)
    by (intros; apply Hdisj, elem_mid; auto).
  assert (HRLC : forall a, a ∈ addrs lr -> a ∉ ctx_addrs c)
    by (intros; apply Hdisj, elem_mid; auto).
  assert (HRRC : forall a, a ∈ addrs r -> a ∉ ctx_addrs c)
    by (intros; apply Hdisj, elem_mid; auto 6).
  assert (HndRL : NoDup (addrs lr)).
  { clear -Hndm. rewrite !NoDup_app, !NoDup_cons, !NoDup_app in Hndm. tauto. }
  pose proof (rep_child_known _ _ _ Hrll) as Hnl.
  pose proof (rep_child_known _ _ _ Hrr) as Hnrr.
  clear Hdisj Hndm H Hnd.
  destruct x as [xa xs xe xm xc], y as [ya ys ye ym yc].
  simpl i_addr in *. injection Hvx as <- <- <- <-. injection Hvy as <- <- <- <-.
  unfold _right_rotate.
  assert (Hpar : match c with
                 | [] => True
                 | f :: c' =>
                     exists np, heap s !! i_addr (frame_item f) = Some np /\
                       item_of (i_addr (frame_item f)) np = frame_item f /\
                       left np = Some (frame_left s f xa) /\
                       right np = Some (frame_right s f xa) /\
                       parent np = ctx_parent c' /\
                       i_addr (frame_item f) <> NIL_LEAF s /\
                       (i_addr (frame_item f) ∉ addrs (frame_sib f) ++ ctx_addrs c') /\
                       i_addr (frame_item f) <> xa /\
                       i_addr (frame_item f) <> ya /\
                       (i_addr (frame_item f) ∉ addrs ll) /\
                       (i_addr (frame_item f) ∉ addrs lr) /\
                       (i_addr (frame_item f) ∉ addrs r) /\
                       (xa ∉ addrs (frame_sib f) ++ ctx_addrs c') /\
                       (ya ∉ addrs (frame_sib f) ++ ctx_addrs c') /\
                       (forall a, a ∈ addrs lr ->
                                  a ∉ addrs (frame_sib f) ++ ctx_addrs c')
                 end).
  { destruct c as [|f c']; [done|].
    destruct Hctx as (? & (np & ? & ? & ? & ? & ?) & _). exists np.
    pose proof (elem_ctx_hd f c') as Hin.
    repeat (split; [done|]). split; [by apply frame_item_notin|].
    split; [by intros <-|]. split; [by intros <-|].
    split; [by apply (notin_swap _ _ _ HLC)|].
    split; [by apply (notin_swap _ _ _ HRLC)|].
    split; [by apply (notin_swap _ _ _ HRRC)|].
    split; [apply notin_app; eauto using notin_ctx_sib, notin_ctx_tl|].
    split; [apply notin_app; eauto using notin_ctx_sib, notin_ctx_tl|].
    intros a Ha. apply notin_app; eauto using notin_ctx_sib, notin_ctx_tl. }
  assert (Hroot : match c with
                  | [] => True
                  | f :: _ => root_of s (frame_sib f) <> xa
                  end).
  { destruct c as [|f c']; [done|]. apply root_of_ne; [done|].
    eapply notin_ctx_sib, HxC. }
  destruct lr as [|lrl z lrr];
  [ | destruct (rep_root _ _ _ _ _ _ Hrlr eq_refl)
        as (nz & Hzne & Hnz & Hvz & Hzl & Hzr & Hzp & Hrz1 & Hrz2);
      destruct (NoDup_T_root _ _ _ HndRL) as (HzRLL & HzRLR);
      destruct z as [za zs ze zm zc]; simpl i_addr in *;
      injection Hvz as <- <- <- <- ];
  (destruct c as [|[p sib|sib p] c'];
   [ | destruct Hpar as (np & Hnp & Hvp & Hpl & Hpr & Hpp & Hpne & Hpnot &
                         Hpx & Hpy & HpL & HpRL & HpRR & Hxs & Hys & HRLs);
       destruct p as [pa ps pe pm pc]; simpl i_addr in *;
       injection Hvp as <- <- <- <-
     | destruct Hpar as (np & Hnp & Hvp & Hpl & Hpr & Hpp & Hpne & Hpnot &
                         Hpx & Hpy & HpL & HpRL & HpRR & Hxs & Hys & HRLs);
       destruct p as [pa ps pe pm pc]; simpl i_addr in *;
       injection Hvp as <- <- <- <- ]);
  simpl frame_item in *; simpl frame_sib in *; simpl frame_left in *;
  simpl frame_right in *.
  all: try (assert (Hxz : xa <> za) by exact (notin_T_ne _ _ _ _ HxRL)).
  all: try (assert (Hyz : ya <> za) by exact (notin_T_ne _ _ _ _ HyRL)).
  all: try (assert (Hpz : pa <> za) by exact (notin_T_ne _ _ _ _ HpRL)).
  all: try (assert (HzL : za ∉ addrs ll)
              by exact (notin_swap _ _ _ HLRL (elem_root _ _ _))).
  all: try (assert (HzRR : za ∉ addrs r) by exact (HRLRR _ (elem_root _ _ _))).
  all: try (assert (Hzs : za ∉ addrs sib ++ ctx_addrs c')
              by exact (HRLs _ (elem_root _ _ _))).
  all: eexists; split;
    [ step; step; rewrite Hxl; rewrite eqb_addr_false by done;
      step; rewrite Hyr; step; simpl root_of; nsimp;
      first [ rewrite Nat.eqb_refl; step
            | rewrite (eqb_addr_false _ _ Hzne); step ];
      step; rewrite Hxp; simpl ctx_parent; nsimp;
      step;
      first [ step; step; rewrite Hpr; unfold is_obj;
              first [ rewrite Nat.eqb_refl
                    | rewrite (eqb_addr_false _ _ Hroot) ]; step
            | step ];
      step; step;
      first [ step_update (E : tree) r;
              step_update ll (T E (fresh_max E (item_of xa nx) r) r)
            | step_update (T lrl (item_of za nz) lrr) r;
              step_update ll (T (T lrl (item_of za nz) lrr)
                                (fresh_max (T lrl (item_of za nz) lrr)
                                   (item_of xa nx) r) r) ];
      reflexivity
    | split; [reflexivity|] ].
  all: simpl rot_right; apply Rep_of_focused; constructor;
    [ eapply sentinel_ok_agree; [|exact Hnil]; agree
    | eapply rep_ctx_rechild; [exact Hctx|reflexivity|];
      first [ reflexivity | split; [reflexivity|]; split; [node_tac|agree] ]
    | done
    | simpl in Hxp; node_tac
    | rep_frame
    | split; [done|]; split; [node_tac|]; split; [|rep_frame];
      first [ done
            | split; [done|]; split; [node_tac|]; split; rep_frame ]
    | rewrite addrs_T; exact Hnd' ].
Qed.

(** A rotation whose pivot child is the sentinel changes nothing. *)
Lemma left_rotate_noop nc s c l x :
  Rep nc s (plug c (T l x E)) -> _left_rotate (i_addr x) s = Ok (tt, s).
Proof.
  intros H. unfold _left_rotate. rewrite run_get_NIL.
  rewrite (bind_Ok _ _ _ _ _ (focus_right _ _ _ _ _ _ H)). simpl.
  by rewrite Nat.eqb_refl.
Qed.

Lemma right_rotate_noop nc s c x r :
  Rep nc s (plug c (T E x r)) -> _right_rotate (i_addr x) s = Ok (tt, s).
Proof.
  intros H. unfold _right_rotate. rewrite run_get_NIL.
  rewrite (bind_Ok _ _ _ _ _ (focus_left _ _ _ _ _ _ H)). simpl.
  by rewrite Nat.eqb_refl.
Qed.

(** * Programs on a focused tree *)

Lemma root_of_NIL s s' t : NIL_LEAF s' = NIL_LEAF s -> root_of s' t = root_of s t.
Proof. intros H. destruct t; simpl; congruence. Qed.

Lemma focus_recolor k nc s c l v r :
  Rep nc s (plug c (T l v r)) ->
  exists s', set (with_color k) (i_addr v) s = Ok (tt, s') /\
             NIL_LEAF s' = NIL_LEAF s /\
             Rep nc s' (plug c (T l (recolor k v) r)).
Proof.
  intros H.
  destruct (focus_set (with_color k) _ _ _ _ _ _ H) as (n & s' & _ & Hv & Hs & HN & HR).
  { done. }
  exists s'. split; [done|]. split; [done|].
  replace (recolor k v) with (item_of (i_addr v) (with_color k n)); [done|].
  rewrite <- Hv. reflexivity.
Qed.

Lemma focus_update_max nc s c l v r :
  Rep nc s (plug c (T l v r)) ->
  exists s', _update_max_end (Some (i_addr v)) s = Ok (tt, s') /\
             NIL_LEAF s' = NIL_LEAF s /\
             Rep nc s' (plug c (T l (fresh_max l v r) r)).
Proof.
  intros H.
  pose proof H as [_ _ Hne _ Hl Hr _]%Rep_focused.
  destruct (focus_set (with_max_end (N.max (i_end v) (N.max (max_of l) (max_of r))))
              _ _ _ _ _ _ H) as (n & s' & Hn & Hv & Hs & HN & HR).
  { done. }
  destruct (focus_get left _ _ _ _ _ _ H) as (n' & _ & Hn' & _ & Hnl & Hnr & _).
  assert (n' = n) as -> by congruence.
  exists s'. split; [|split; [done|]].
  - rewrite (update_max_end_at s (i_addr v) n l r); try done.
    + rewrite (set_Ok _ _ _ _ Hn) in Hs.
      assert (i_end v = end_ n) as <- by (by rewrite <- Hv). exact Hs.
    + by eapply rep_child_known.
    + by eapply rep_child_known.
  - replace (fresh_max l v r) with
      (item_of (i_addr v)
         (with_max_end (N.max (i_end v) (N.max (max_of l) (max_of r))) n));
      [done|].
    rewrite <- Hv. reflexivity.
Qed.

Lemma sentinel_recolor k nc s t :
  Rep nc s t ->
  exists s', set (with_color k) (NIL_LEAF s) s = Ok (tt, s') /\
             NIL_LEAF s' = NIL_LEAF s /\ Rep k s' t.
Proof.
  intros ((n & Hn & Hc & Hl & Hr & Hp) & Hroot & Hrep & Hnd).
  exists (store (NIL_LEAF s) (with_color k n) s).
  split; [by apply set_Ok|]. split; [done|].
  assert (Hnot : NIL_LEAF s ∉ addrs t).
  { clear -Hrep. revert Hrep. generalize (@None addr).
    induction t as [|l IHl v r IHr]; intros p; [set_solver|].
    intros (Hne & _ & H1 & H2). rewrite addrs_T.
    apply IHl in H1. apply IHr in H2. set_solver. }
  split; [|split; [|split]].
  - exists (with_color k n). split; [|done].
    rewrite NIL_store. apply heap_store_eq. by eexists.
  - rewrite root_store. by rewrite (root_of_store _ _ _ t).
  - eapply rep_agree; [|done]. by apply agree_on_store, agree_on_refl.
  - done.
Qed.

(** The colour seen through a child link. *)
Lemma link_color_read k nc s c t :
  Rep nc s (plug c t) ->
  color_is (Some (root_of s t)) k s = Ok (NodeColor_eqb (link_color nc t) k, s).
Proof.
  intros H. unfold color_is. destruct t as [|l v r]; simpl.
  - destruct (sentinel_get color _ _ _ H) as (n & Hg & <- & _).
    by rewrite (bind_Ok _ _ _ _ _ Hg).
  - by rewrite (bind_Ok _ _ _ _ _ (focus_color _ _ _ _ _ _ H)).
Qed.

Lemma link_recolor_black nc s c t :
  Rep nc s (plug c t) ->
  exists s', set (with_color BLACK) (root_of s t) s = Ok (tt, s') /\
             NIL_LEAF s' = NIL_LEAF s /\
             Rep (match t with E => BLACK | _ => nc end) s' (plug c (blacken t)).
Proof.
  intros H. destruct t as [|l v r]; simpl.
  - by eapply sentinel_recolor.
  - by eapply focus_recolor.
Qed.

(** ** The navigation methods *)

Lemma Rep_up nc s f c t : Rep nc s (plug (f :: c) t) -> Rep nc s (plug c (fill f t)).
Proof. done. Qed.

Lemma grandparent_focus nc s c l v r :
  Rep nc s (plug c (T l v r)) ->
  grandparent (i_addr v) s = Ok (ctx_parent (tail c), s).
Proof.
  intros H. unfold grandparent.
  rewrite (bind_Ok _ _ _ _ _ (focus_parent _ _ _ _ _ _ H)).
  destruct c as [|[p sib|sib p] c]; simpl; [done| |].
  - apply (focus_parent nc s c (T l v r) p sib H).
  - apply (focus_parent nc s c sib p (T l v r) H).
Qed.

Lemma sibling_focus nc s c l v r :
  Rep nc s (plug c (T l v r)) ->
  sibling (i_addr v) s = Ok (ctx_sibling s c, s).
Proof.
  intros H. unfold sibling.
  rewrite (bind_Ok _ _ _ _ _ (focus_parent _ _ _ _ _ _ H)).
  pose proof H as Hf%Rep_focused.
  destruct (focused_notin _ _ _ _ _ _ Hf) as (Hc & _ & _).
  destruct Hf as [_ _ Hne _ _ _ _].
  destruct c as [|[p sib|sib p] c]; simpl; [done| |].
  - rewrite (bind_Ok _ _ _ _ _ (focus_left nc s c (T l v r) p sib H)).
    simpl. rewrite Nat.eqb_refl.
    apply (focus_right nc s c (T l v r) p sib H).
  - rewrite (bind_Ok _ _ _ _ _ (focus_left nc s c sib p (T l v r) H)).
    simpl. rewrite eqb_addr_false; [done|].
    apply root_of_ne; [done|]. by eapply (notin_ctx_sib (InR sib p)).
Qed.

Lemma uncle_focus nc s c l v r :
  Rep nc s (plug c (T l v r)) ->
  uncle (i_addr v) s = Ok (ctx_sibling s (tail c), s).
Proof.
  intros H. unfold uncle.
  rewrite (bind_Ok _ _ _ _ _ (focus_parent _ _ _ _ _ _ H)).
  destruct c as [|[p sib|sib p] c]; simpl; [done| |].
  - apply (sibling_focus nc s c (T l v r) p sib H).
  - apply (sibling_focus nc s c sib p (T l v r) H).
Qed.

(** * The loop of [_insert_fixup] *)

Lemma root_of_fill s f t : root_of s (fill f t) = i_addr (frame_item f).
Proof. by destruct f. Qed.

Lemma frame_recolor k nc s f c t :
  Rep nc s (plug (f :: c) t) ->
  exists s', set (with_color k) (i_addr (frame_item f)) s = Ok (tt, s') /\
             NIL_LEAF s' = NIL_LEAF s /\
             Rep nc s' (plug (recolor_frame k f :: c) t).
Proof. destruct f; apply focus_recolor. Qed.

Lemma frame_get_parent nc s f c t :
  Rep nc s (plug (f :: c) t) ->
  get parent (i_addr (frame_item f)) s = Ok (ctx_parent c, s).
Proof. destruct f; apply focus_parent. Qed.

Lemma frame_get_left nc s f c t :
  Rep nc s (plug (f :: c) t) ->
  get left (i_addr (frame_item f)) s = Ok (Some (frame_left s f (root_of s t)), s).
Proof. destruct f; apply focus_left. Qed.

Lemma frame_get_right nc s f c t :
  Rep nc s (plug (f :: c) t) ->
  get right (i_addr (frame_item f)) s = Ok (Some (frame_right s f (root_of s t)), s).
Proof. destruct f; apply focus_right. Qed.

Lemma frame_get_color nc s f c t :
  Rep nc s (plug (f :: c) t) ->
  get color (i_addr (frame_item f)) s = Ok (i_color (frame_item f), s).
Proof. destruct f; apply focus_color. Qed.

(** The node in focus is not the root of the sibling of a frame above. *)
Lemma focus_ne_sib nc s f c l v r :
  Rep nc s (plug (f :: c) (T l v r)) -> root_of s (frame_sib f) <> i_addr v.
Proof.
  intros H. pose proof H as Hf%Rep_focused.
  destruct (focused_notin _ _ _ _ _ _ Hf) as (Hc & _ & _).
  destruct Hf as [_ _ Hne _ _ _ _].
  apply root_of_ne; [done|]. by eapply notin_ctx_sib.
Qed.

Lemma frame_ne_sib nc s f g c t :
  Rep nc s (plug (f :: g :: c) t) ->
  root_of s (frame_sib g) <> i_addr (frame_item f).
Proof.
  intros H. destruct f; eapply focus_ne_sib; exact H.
Qed.

(** The loop condition. *)
Lemma insert_fixup_cond nc s c l v r :
  Rep nc s (plug c (T l v r)) ->
  (p <- get parent (i_addr v) ;; color_is p RED) s =
  Ok (match c with
      | [] => false
      | f :: _ => NodeColor_eqb (i_color (frame_item f)) RED
      end, s).
Proof.
  intros H. rewrite (bind_Ok _ _ _ _ _ (focus_parent _ _ _ _ _ _ H)).
  destruct c as [|f c]; simpl; [done|].
  by rewrite (bind_Ok _ _ _ _ _ (frame_get_color _ _ _ _ _ H)).
Qed.

(** The reads at the head of the body. *)
Lemma insert_fixup_on_left nc s fP fG c2 l v r :
  Rep nc s (plug (fP :: fG :: c2) (T l v r)) ->
  (gl <- get left (i_addr (frame_item fG)) ;;
   ret (ref_eqb (Some (i_addr (frame_item fP))) gl)) s =
  Ok (match fG with InL _ _ => true | InR _ _ => false end, s).
Proof.
  intros H.
  rewrite (bind_Ok _ _ _ _ _ (frame_get_left nc s fG c2 (fill fP (T l v r)) H)).
  rewrite root_of_fill. destruct fG as [G U|U G]; simpl.
  - by rewrite Nat.eqb_refl.
  - rewrite eqb_addr_false; [done|]. apply not_eq_sym.
    apply (frame_ne_sib nc s fP (InR U G) c2 (T l v r) H).
Qed.

Ltac zsimp :=
  cbn [tail ctx_parent ctx_sibling frame_item frame_sib frame_left frame_right
       deref is_obj ref_eqb is_None negb andb root_of fill
       NodeColor_eqb link_color];
  rewrite ?bind_ret, ?Nat.eqb_refl.

Ltac zstep E := rewrite (bind_Ok _ _ _ _ _ E); zsimp.

Ltac zfalse Hne :=
  let H := fresh in
  pose proof Hne as H; cbn [frame_sib frame_item] in H;
  rewrite (eqb_addr_false _ _ H); clear H; zsimp.

Lemma insert_fixup_body_top nc s fP l v r :
  Rep nc s (plug [fP] (T l v r)) ->
  i_color (frame_item fP) = RED ->
  exists nc' c' l' v' r' s',
    fixup_turn nc [fP] (T l v r) = Some (nc', c', T l' v' r') /\
    _insert_fixup_body (i_addr v) s = Ok (Continue (i_addr v'), s') /\
    NIL_LEAF s' = NIL_LEAF s /\
    Rep nc' s' (plug c' (T l' v' r')).
Proof.
  intros H Hred. unfold fixup_turn. rewrite Hred.
  unfold _insert_fixup_body.
  zstep (grandparent_focus _ _ _ _ _ _ H).
  zstep (focus_parent _ _ _ _ _ _ H).
  zstep (uncle_focus _ _ _ _ _ _ H).
  unfold color_is at 1. zsimp.
  destruct fP as [P sP|sP P]; zsimp.
  - zstep (focus_left nc s [] (T l v r) P sP H).
    destruct (right_rotate_focus nc s [] l v r P sP H) as (s1 & E1 & N1 & H1).
    rewrite bind_assoc. zstep E1.
    simpl rot_right in H1.
    zstep (focus_parent nc s1 [InR l _] _ _ _ H1).
    destruct (frame_recolor BLACK nc s1 (InR l _) [] (T r _ sP) H1) as (s2 & E2 & N2 & H2).
    simpl frame_item in E2. zstep E2.
    eexists _, _, _, _, _, _. split; [reflexivity|]. split; [reflexivity|].
    split; [congruence|]. exact H2.
  - zstep (focus_left nc s [] sP P (T l v r) H).
    zfalse (focus_ne_sib nc s (InR sP P) [] l v r H).
    zstep (focus_parent _ _ _ _ _ _ H).
    destruct (frame_recolor BLACK nc s (InR sP P) [] _ H) as (s2 & E2 & N2 & H2).
    simpl frame_item in E2. zstep E2.
    eexists _, _, _, _, _, _. split; [reflexivity|]. split; [reflexivity|].
    split; [congruence|]. exact H2.
Qed.

Lemma insert_fixup_body_left nc s fP G U c2 l v r :
  Rep nc s (plug (fP :: InL G U :: c2) (T l v r)) ->
  i_color (frame_item fP) = RED ->
  exists nc' c' l' v' r' s',
    fixup_turn nc (fP :: InL G U :: c2) (T l v r) = Some (nc', c', T l' v' r') /\
    _insert_fixup_body (i_addr v) s = Ok (Continue (i_addr v'), s') /\
    NIL_LEAF s' = NIL_LEAF s /\
    Rep nc' s' (plug c' (T l' v' r')).
Proof.
  intros H Hred. unfold fixup_turn. rewrite Hred.
  unfold _insert_fixup_body.
  zstep (grandparent_focus _ _ _ _ _ _ H).
  zstep (focus_parent _ _ _ _ _ _ H).
  zstep (insert_fixup_on_left _ _ _ _ _ _ _ _ H).
  zstep (uncle_focus _ _ _ _ _ _ H).
  zstep (link_color_read RED nc s (InR (fill fP (T l v r)) G :: c2) U H).
  destruct (link_color nc U) eqn:HU; zsimp.
  - destruct (frame_recolor BLACK nc s fP _ _ H) as (s1 & E1 & N1 & H1).
    zstep E1.
    destruct (link_recolor_black nc s1 (InR (fill (recolor_frame BLACK fP) (T l v r)) G :: c2) U H1)
      as (s2 & E2 & N2 & H2).
    rewrite (root_of_NIL _ _ _ N1) in E2. zstep E2.
    destruct (focus_recolor RED _ s2 c2 _ G _ H2) as (s3 & E3 & N3 & H3).
    zstep E3.
    eexists _, _, _, _, _, _. split; [reflexivity|]. split; [reflexivity|].
    split; [congruence|]. exact H3.
  - destruct fP as [P sP|sP P]; zsimp.
    + zstep (focus_right nc s (InL G U :: c2) (T l v r) P sP H).
      zfalse (focus_ne_sib nc s (InL P sP) (InL G U :: c2) l v r H).
      zstep (focus_parent _ _ _ _ _ _ H).
      destruct (frame_recolor BLACK nc s (InL P sP) _ _ H) as (s1 & E1 & N1 & H1).
      zstep E1.
      destruct (frame_recolor RED nc s1 (InL G U) c2 _ H1) as (s2 & E2 & N2 & H2).
      zstep E2.
      destruct (right_rotate_focus nc s2 c2 _ _ _ _ _ H2) as (s3 & E3 & N3 & H3).
      zstep E3.
      eexists _, _, _, _, _, _. split; [reflexivity|]. split; [reflexivity|].
      split; [congruence|]. exact H3.
    + zstep (focus_right nc s (InL G U :: c2) sP P (T l v r) H).
      destruct (left_rotate_focus nc s (InL G U :: c2) sP P l v r H)
        as (s1 & E1 & N1 & H1).
      rewrite bind_assoc. zstep E1. simpl rot_left in H1.
      zstep (focus_parent nc s1 (InL _ r :: InL G U :: c2) sP _ l H1).
      destruct (frame_recolor BLACK nc s1 (InL _ r) (InL G U :: c2) (T sP _ l) H1)
        as (s2 & E2 & N2 & H2).
      zstep E2.
      destruct (frame_recolor RED nc s2 (InL G U) c2 _ H2) as (s3 & E3 & N3 & H3).
      zstep E3.
      destruct (right_rotate_focus nc s3 c2 _ _ _ _ _ H3) as (s4 & E4 & N4 & H4).
      zstep E4.
      eexists _, _, _, _, _, _. split; [reflexivity|]. split; [reflexivity|].
      split; [congruence|]. exact H4.
Qed.

Lemma insert_fixup_body_right nc s fP G U c2 l v r :
  Rep nc s (plug (fP :: InR U G :: c2) (T l v r)) ->
  i_color (frame_item fP) = RED ->
  exists nc' c' l' v' r' s',
    fixup_turn nc (fP :: InR U G :: c2) (T l v r) = Some (nc', c', T l' v' r') /\
    _insert_fixup_body (i_addr v) s = Ok (Continue (i_addr v'), s') /\
    NIL_LEAF s' = NIL_LEAF s /\
    Rep nc' s' (plug c' (T l' v' r')).
Proof.
  intros H Hred. unfold fixup_turn. rewrite Hred.
  unfold _insert_fixup_body.
  zstep (grandparent_focus _ _ _ _ _ _ H).
  zstep (focus_parent _ _ _ _ _ _ H).
  zstep (insert_fixup_on_left _ _ _ _ _ _ _ _ H).
  zstep (uncle_focus _ _ _ _ _ _ H).
  zstep (link_color_read RED nc s (InL G (fill fP (T l v r)) :: c2) U H).
  destruct (link_color nc U) eqn:HU; zsimp.
  - destruct (frame_recolor BLACK nc s fP _ _ H) as (s1 & E1 & N1 & H1).
    zstep E1.
    destruct (link_recolor_black nc s1 (InL G (fill (recolor_frame BLACK fP) (T l v r)) :: c2) U H1)
      as (s2 & E2 & N2 & H2).
    rewrite (root_of_NIL _ _ _ N1) in E2. zstep E2.
    destruct (focus_recolor RED _ s2 c2 _ G _ H2) as (s3 & E3 & N3 & H3).
    zstep E3.
    eexists _, _, _, _, _, _. split; [reflexivity|]. split; [reflexivity|].
    split; [congruence|]. exact H3.
  - destruct fP as [P sP|sP P]; zsimp.
    + zstep (focus_left nc s (InR U G :: c2) (T l v r) P sP H).
      destruct (right_rotate_focus nc s (InR U G :: c2) l v r P sP H)
        as (s1 & E1 & N1 & H1).
      rewrite bind_assoc. zstep E1. simpl rot_right in H1.
      zstep (focus_parent nc s1 (InR l _ :: InR U G :: c2) r _ sP H1).
      destruct (frame_recolor BLACK nc s1 (InR l _) (InR U G :: c2) (T r _ sP) H1)
        as (s2 & E2 & N2 & H2).
      zstep E2.
      destruct (frame_recolor RED nc s2 (InR U G) c2 _ H2) as (s3 & E3 & N3 & H3).
      rewrite bind_assoc. zstep E3.
      destruct (left_rotate_focus nc s3 c2 _ _ _ _ _ H3) as (s4 & E4 & N4 & H4).
      zstep E4.
      eexists _, _, _, _, _, _. split; [reflexivity|]. split; [reflexivity|].
      split; [congruence|]. exact H4.
    + zstep (focus_left nc s (InR U G :: c2) sP P (T l v r) H).
      zfalse (focus_ne_sib nc s (InR sP P) (InR U G :: c2) l v r H).
      zstep (focus_parent _ _ _ _ _ _ H).
      destruct (frame_recolor BLACK nc s (InR sP P) _ _ H) as (s1 & E1 & N1 & H1).
      zstep E1.
      destruct (frame_recolor RED nc s1 (InR U G) c2 _ H1) as (s2 & E2 & N2 & H2).
      rewrite bind_assoc. zstep E2.
      destruct (left_rotate_focus nc s2 c2 _ _ _ _ _ H2) as (s3 & E3 & N3 & H3).
      zstep E3.
      eexists _, _, _, _, _, _. split; [reflexivity|]. split; [reflexivity|].
      split; [congruence|]. exact H3.
Qed.

Lemma insert_fixup_body_sim nc s fP c1 l v r :
  Rep nc s (plug (fP :: c1) (T l v r)) ->
  i_color (frame_item fP) = RED ->
  exists nc' c' l' v' r' s',
    fixup_turn nc (fP :: c1) (T l v r) = Some (nc', c', T l' v' r') /\
    _insert_fixup_body (i_addr v) s = Ok (Continue (i_addr v'), s') /\
    NIL_LEAF s' = NIL_LEAF s /\
    Rep nc' s' (plug c' (T l' v' r')).
Proof.
  destruct c1 as [|[G U|U G] c2].
  - apply insert_fixup_body_top.
  - apply insert_fixup_body_left.
  - apply insert_fixup_body_right.
Qed.

Lemma fixup_turn_stop nc c t :
  match c with
  | [] => True
  | f :: _ => i_color (frame_item f) = BLACK
  end ->
  fixup_turn nc c t = None.
Proof.
  destruct c as [|f c]; [done|]. simpl. by intros ->.
Qed.

Lemma insert_fixup_loop_sim n :
  forall nc c l v r s res m,
    Rep nc s (plug c (T l v r)) ->
    fixup_loop n nc c (T l v r) = Some res ->
    (n <= m)%nat ->
    exists s', _insert_fixup_loop m (i_addr v) s = Ok (tt, s') /\
               NIL_LEAF s' = NIL_LEAF s /\
               Rep (fst res) s' (snd res).
Proof.
  induction n as [|n IH]; intros nc c l v r s res m H Hloop Hle; [done|].
  destruct m as [|m]; [lia|]. simpl in Hloop.
  change (_insert_fixup_loop (S m) (i_addr v)) with
    (p <- get parent (i_addr v) ;;
     pred <- color_is p RED ;;
     if pred then
       t <- _insert_fixup_body (i_addr v) ;;
       match t with
       | Continue n => _insert_fixup_loop m n
       | Break _ => ret tt
       end
     else ret tt).
  rewrite (bind_Ok _ _ _ _ _ (focus_parent _ _ _ _ _ _ H)).
  destruct c as [|fP c1].
  { simpl in Hloop. injection Hloop as <-. by exists s. }
  simpl ctx_parent. unfold color_is at 1.
  rewrite bind_assoc, (bind_Ok _ _ _ _ _ (frame_get_color _ _ _ _ _ H)), bind_ret.
  destruct (i_color (frame_item fP)) eqn:Hc; cbn [NodeColor_eqb].
  - destruct (insert_fixup_body_sim _ _ _ _ _ _ _ H Hc)
      as (nc' & c' & l' & v' & r' & s1 & Ht & Hb & HN & H1).
    rewrite Ht in Hloop. rewrite (bind_Ok _ _ _ _ _ Hb).
    destruct (IH _ _ _ _ _ _ _ m H1 Hloop ltac:(lia)) as (s' & Hs' & HN' & H').
    exists s'. split; [done|]. split; [congruence|done].
  - rewrite fixup_turn_stop in Hloop by done. injection Hloop as <-.
    by exists s.
Qed.

(** The loop ends: a turn either climbs two levels or leaves a BLACK
    parent behind. *)
Lemma fixup_turn_progress nc c t nc' c' t' :
  fixup_turn nc c t = Some (nc', c', t') ->
  (length c' + 2 = length c)%nat \/
  (forall nc'' t'', fixup_turn nc'' c' t'' = None).
Proof.
  unfold fixup_turn.
  destruct c as [|fP c1]; [done|].
  destruct (i_color (frame_item fP)); [|done].
  destruct c1 as [|[G U|U G] c2].
  - destruct fP as [P sP|sP P]; [destruct t as [|l v r]|]; simpl;
      intros [= <- <- <-]; right; intros; reflexivity.
  - destruct (link_color nc U).
    + intros [= <- <- <-]. left. simpl. lia.
    + destruct fP as [P sP|sP P]; destruct t as [|l v r]; simpl;
        intros [= <- <- <-]; right; intros; reflexivity.
  - destruct (link_color nc U).
    + intros [= <- <- <-]. left. simpl. lia.
    + destruct fP as [P sP|sP P]; destruct t as [|l v r]; simpl;
        intros [= <- <- <-]; right; intros; reflexivity.
Qed.

Lemma fixup_loop_total n :
  forall nc c t, (length c < n)%nat -> exists res, fixup_loop n nc c t = Some res.
Proof.
  induction n as [n IH] using lt_wf_ind. intros nc c t Hn.
  destruct n as [|n]; [lia|]. simpl.
  destruct (fixup_turn nc c t) as [[[nc' c'] t']|] eqn:Ht; [|by eexists].
  assert (c <> []) as Hc by (intros ->; done).
  destruct (fixup_turn_progress _ _ _ _ _ _ Ht) as [Hlen|Hstop].
  - apply IH; lia.
  - destruct n as [|n]; [destruct c; simpl in *; [done|lia]|].
    simpl. rewrite Hstop. by eexists.
Qed.

(** * The size of a represented tree *)

Lemma rep_alloc s t p a :
  rep s t p -> a ∈ addrs t -> (a < length (heap s))%nat /\ a <> NIL_LEAF s.
Proof.
  revert p. induction t as [|l IHl v r IHr]; intros p; [set_solver|].
  intros (Hne & (n & Hn & _) & Hl & Hr). rewrite addrs_T.
  intros [Ha|[->|Ha]%elem_of_cons]%elem_of_app.
  - by eapply IHl.
  - split; [|done]. eapply lookup_lt_Some, Hn.
  - by eapply IHr.
Qed.

Lemma NoDup_bounded (l : list nat) n :
  NoDup l -> (forall x, x ∈ l -> (x < n)%nat) -> (length l <= n)%nat.
Proof.
  intros Hnd Hb. rewrite <- (length_seq n 0).
  apply submseteq_length, NoDup_submseteq; [done|].
  intros x Hx. apply elem_of_seq. specialize (Hb x Hx). lia.
Qed.

Lemma Rep_size nc s t : Rep nc s t -> (size t < length (heap s))%nat.
Proof.
  intros ((n & Hn & _) & _ & Hrep & Hnd).
  assert (length (NIL_LEAF s :: addrs t) <= length (heap s))%nat as Hle.
  { apply NoDup_bounded.
    - apply NoDup_cons. split; [|done]. intros Hin.
      by destruct (rep_alloc _ _ _ _ Hrep Hin).
    - intros x [->|Hx]%elem_of_cons.
      + eapply lookup_lt_Some, Hn.
      + by destruct (rep_alloc _ _ _ _ Hrep Hx). }
  simpl in Hle. unfold addrs in Hle. rewrite length_fmap in Hle.
  rewrite size_elements. lia.
Qed.

Lemma Rep_agree nc s s' t :
  agree_on (NIL_LEAF s :: addrs t) s s' -> root s' = root s ->
  Rep nc s t -> Rep nc s' t.
Proof.
  intros Hag Hroot (Hnil & Hr & Hrep & Hnd).
  change (NIL_LEAF s :: addrs t) with ([NIL_LEAF s] ++ addrs t) in Hag.
  apply agree_on_app in Hag as [Ha1 Ha2].
  split; [by eapply sentinel_ok_agree|]. split; [|split; [|done]].
  - rewrite Hroot, Hr. symmetry. eapply root_of_agree, Ha1.
  - by eapply rep_agree.
Qed.

Lemma Rep_notin_NIL nc s t : Rep nc s t -> NIL_LEAF s ∉ addrs t.
Proof.
  intros (_ & _ & Hrep & _) Hin. by destruct (rep_alloc _ _ _ _ Hrep Hin).
Qed.

(** * The descent of [insert] *)

Lemma descend_plug k c t : plug (descend k c t) E = plug c t.
Proof.
  revert c. induction t as [|l IHl v r IHr]; intros c; simpl; [done|].
  destruct (k <? i_start v); [apply IHl|apply IHr].
Qed.

Lemma descend_dir k c t :
  Forall (dir_ok k) c -> Forall (dir_ok k) (descend k c t).
Proof.
  revert c. induction t as [|l IHl v r IHr]; intros c Hc; simpl; [done|].
  destruct (k <? i_start v) eqn:Hk; [apply IHl|apply IHr];
    by constructor.
Qed.

Lemma insert_descent_sim nc s a n t :
  heap s !! a = Some n ->
  forall c fuel,
    Rep nc s (plug c t) -> (height t < fuel)%nat ->
    insert_descent fuel a (ctx_parent c) (Some (root_of s t)) s =
    Ok (ctx_parent (descend (start n) c t), s).
Proof.
  intros Hn. induction t as [|l IHl v r IHr]; intros c fuel H Hf;
    (destruct fuel as [|fuel]; [simpl in Hf; lia|]); simpl in Hf |- *.
  - rewrite run_get_NIL. by rewrite Nat.eqb_refl.
  - rewrite run_get_NIL. rewrite (focus_real _ _ _ _ _ _ H).
    rewrite (run_get _ _ _ _ _ Hn).
    rewrite (bind_Ok _ _ _ _ _ (focus_start _ _ _ _ _ _ H)).
    destruct (start n <? i_start v); cbv iota.
    + rewrite (bind_Ok _ _ _ _ _ (focus_left _ _ _ _ _ _ H)).
      apply (IHl (InL v r :: c)); [exact H|lia].
    + rewrite (bind_Ok _ _ _ _ _ (focus_right _ _ _ _ _ _ H)).
      apply (IHr (InR l v :: c)); [exact H|lia].
Qed.

(** * Linking the new node *)

Lemma run_budget {B} (k : nat -> M B) s :
  bind budget k s = k (S (length (heap s))) s.
Proof. reflexivity. Qed.

Lemma run_get_root {B} (k : addr -> M B) s : bind get_root k s = k (root s) s.
Proof. reflexivity. Qed.

Lemma NoDup_insert_mid (l1 l2 : list addr) a :
  NoDup (l1 ++ l2) -> a ∉ l1 ++ l2 -> NoDup (l1 ++ a :: l2).
Proof.
  rewrite !NoDup_app, NoDup_cons, not_elem_of_app.
  intros (H1 & H2 & H3) (Ha1 & Ha2). split; [done|]. split; [|done].
  intros x Hx [->|Hx2]%elem_of_cons; [done|]. by apply (H2 x).
Qed.

Lemma Rep_leaf nc s c :
  Rep nc s (plug c E) ->
  sentinel_ok s nc /\ rep_ctx s c (NIL_LEAF s) /\
  NoDup (ctx_addrs c) /\ addrs (plug c E) = ctx_addrs c.
Proof.
  intros (Hnil & Hroot & Hrep & Hnd).
  destruct (proj1 (rep_plug s c E) (conj Hrep Hroot)) as [Hc _].
  rewrite addrs_plug in Hnd. split; [done|]. split; [done|].
  rewrite addrs_plug. done.
Qed.

Lemma insert_link nc s t a n0 :
  Rep nc s t -> heap s !! a = Some n0 -> a ∉ addrs t -> a <> NIL_LEAF s ->
  exists s3,
    insert a s = (_update_max_end_up_to_root a ;;; _insert_fixup a) s3 /\
    NIL_LEAF s3 = NIL_LEAF s /\
    Rep nc s3 (plug (descend (start n0) [] t) (T E (linked a n0) E)).
Proof.
  intros H Hn0 Ha HaN.
  set (n1 := with_color RED
               (with_right (Some (NIL_LEAF s)) (with_left (Some (NIL_LEAF s)) n0))).
  set (s0 := store a n1
               (store a (with_right (Some (NIL_LEAF s))
                           (with_left (Some (NIL_LEAF s)) n0))
                  (store a (with_left (Some (NIL_LEAF s)) n0) s))).
  assert (Hn1 : heap s0 !! a = Some n1) by (subst s0; hlook).
  assert (H0 : Rep nc s0 t).
  { eapply (Rep_agree nc s); [|done|exact H]. subst s0.
    assert (a ∉ NIL_LEAF s :: addrs t) by set_solver. agree. }
  assert (Hdesc : insert_descent (S (length (heap s0))) a None (Some (root s0)) s0
                  = Ok (ctx_parent (descend (start n0) [] t), s0)).
  { assert (Hroot : root s0 = root_of s0 t) by apply H0. rewrite Hroot.
    apply (insert_descent_sim nc s0 a n1 t Hn1 [] _ H0).
    pose proof (Rep_size _ _ _ H0); pose proof (height_le_size t); lia. }
  pose proof (descend_dir (start n0) [] t (List.Forall_nil _)) as Hdir.
  assert (H0' : Rep nc s0 (plug (descend (start n0) [] t) E))
    by (rewrite descend_plug; exact H0).
  assert (Ha' : a ∉ addrs (plug (descend (start n0) [] t) E))
    by (rewrite descend_plug; exact Ha).
  destruct (Rep_leaf _ _ _ H0') as (Hnil & Hctx & Hndc & Hadd).
  rewrite Hadd in Ha'. clear Hadd H0 H0' H Ha.
  assert (Hhead : insert a s =
            (set (with_parent (ctx_parent (descend (start n0) [] t))) a ;;;
             match ctx_parent (descend (start n0) [] t) with
             | None => set_root a
             | Some p =>
                 ns <- get start a ;;
                 ps <- get start p ;;
                 if ns <? ps then set (with_left (Some a)) p
                 else set (with_right (Some a)) p
             end ;;;
             _update_max_end_up_to_root a ;;;
             _insert_fixup a) s0).
  { unfold insert; step; step; step; step.
    match goal with |- context [bind budget _ ?S] => change S with s0 end.
    rewrite run_budget, run_get_root.
    by rewrite (bind_Ok _ _ _ _ _ Hdesc). }
  rewrite Hhead. clear Hhead Hdesc.
  assert (HN0 : NIL_LEAF s0 = NIL_LEAF s) by done.
  assert (Hn1s : start n1 = start n0 /\ end_ n1 = end_ n0 /\
                 max_end n1 = max_end n0 /\ color n1 = RED /\
                 left n1 = Some (NIL_LEAF s0) /\ right n1 = Some (NIL_LEAF s0))
    by done.
  destruct Hn1s as (Hs1 & He1 & Hm1 & Hc1 & Hl1 & Hr1).
  rewrite <- HN0 in *.
  clearbody s0 n1. clear Hn0.
  unfold linked. rewrite <- He1, <- Hm1, <- Hc1. rewrite <- Hs1 in *. clear Hs1.
  destruct (descend (start n1) [] t) as [|f c'].
  - eexists. split; [|split].
    + simpl ctx_parent. step. step. reflexivity.
    + reflexivity.
    + apply Rep_of_focused. constructor.
      * eapply sentinel_ok_agree; [|exact Hnil]. agree.
      * reflexivity.
      * done.
      * node_tac.
      * done.
      * done.
      * simpl. apply NoDup_singleton.
  - pose proof Hctx as Hctx0. simpl in Hctx.
    destruct Hctx as (Hpne & (np & Hnp & Hvp & Hpl & Hpr & Hpp) & Hsib & Hc').
    pose proof (frame_item_notin _ _ Hndc) as Hpnot.
    assert (Hap : a <> i_addr (frame_item f)) by (by eapply notin_ctx_hd).
    assert (Has : a ∉ addrs (frame_sib f) ++ ctx_addrs c').
    { apply notin_app; [by eapply notin_ctx_sib|by eapply notin_ctx_tl]. }
    assert (Hd : dir_ok (start n1) f) by (by inversion Hdir).
    assert (Hps : i_start (frame_item f) = start np) by (by rewrite <- Hvp).
    assert (Hnd' : NoDup ((i_addr <$> before (f :: c')) ++
                          (addrs E ++ a :: addrs E) ++ (i_addr <$> after (f :: c')))).
    { simpl app. apply NoDup_insert_mid; [exact Hndc|exact Ha']. }
    clear Hndc Ha' Hdir.
    destruct f as [p sib|sib p]; simpl frame_item in *; simpl frame_sib in *;
      simpl frame_left in *; simpl frame_right in *; simpl dir_ok in Hd;
      (destruct p as [pa ps pe pm pc]; simpl i_addr in *; simpl i_start in *;
       injection Hvp as <- <- <- <-).
    all: eexists; split;
      [ simpl ctx_parent; repeat step; rewrite Hd; step; reflexivity
      | split; [reflexivity|] ].
    all: apply Rep_of_focused; constructor;
      [ eapply sentinel_ok_agree; [|exact Hnil]; agree
      | eapply (rep_ctx_rechild s0);
        [ exact Hctx0
        | reflexivity
        | split; [reflexivity|]; split; [node_tac|agree] ]
      | done
      | node_tac
      | done
      | done
      | exact Hnd' ].
Qed.

(** * [max_end] up to the root *)

Lemma update_up_sim nc c :
  forall l v r s fuel,
    Rep nc s (plug c (T l v r)) -> (length c + 1 < fuel)%nat ->
    exists s', _update_max_end_up_to_root_loop fuel (Some (i_addr v)) s = Ok (tt, s') /\
               NIL_LEAF s' = NIL_LEAF s /\
               Rep nc s' (plug (refresh c (i_max (fresh_max l v r)))
                            (T l (fresh_max l v r) r)).
Proof.
  induction c as [|f c IH]; intros l v r s fuel H Hf;
    (destruct fuel as [|fuel]; [lia|]); simpl _update_max_end_up_to_root_loop;
    rewrite run_get_NIL, (focus_real _ _ _ _ _ _ H);
    destruct (focus_update_max _ _ _ _ _ _ H) as (s1 & E1 & N1 & H1);
    rewrite (bind_Ok _ _ _ _ _ E1);
    change (i_addr v) with (i_addr (fresh_max l v r));
    rewrite (bind_Ok _ _ _ _ _ (focus_parent _ _ _ _ _ _ H1)).
  - destruct fuel as [|fuel]; [simpl in Hf; lia|]. simpl.
    exists s1. done.
  - simpl in Hf. destruct f as [p sib|sib p]; simpl ctx_parent.
    + destruct (IH (T l (fresh_max l v r) r) p sib s1 fuel H1 ltac:(lia))
        as (s' & E' & N' & H').
      exists s'. split; [done|]. split; [congruence|]. exact H'.
    + destruct (IH sib p (T l (fresh_max l v r) r) s1 fuel H1 ltac:(lia))
        as (s' & E' & N' & H').
      exists s'. split; [done|]. split; [congruence|]. exact H'.
Qed.

(** * [insert] *)

Theorem insert_spec nc s t a n0 :
  Rep nc s t -> heap s !! a = Some n0 -> a ∉ addrs t -> a <> NIL_LEAF s ->
  exists s' nc' t',
    insert a s = Ok (tt, s') /\
    ins nc t (item_of a n0) = Some (nc', t') /\
    NIL_LEAF s' = NIL_LEAF s /\
    Rep nc' s' t'.
Proof.
  intros H Hn0 Ha HaN.
  destruct (insert_link _ _ _ _ _ H Hn0 Ha HaN) as (s1 & -> & N1 & H1).
  remember (descend (start n0) [] t) as c eqn:Hc.
  pose proof (Rep_size _ _ _ H1) as Hsz1.
  pose proof (size_plug c (T E (linked a n0) E)) as Hsp.
  change (size (T E (linked a n0) E)) with 1%nat in Hsp.
  destruct (update_up_sim nc c E (linked a n0) E s1 (S (length (heap s1))) H1
              ltac:(lia)) as (s2 & E2 & N2 & H2).
  change (i_addr (linked a n0)) with a in E2.
  unfold ins. change (i_start (item_of a n0)) with (start n0). rewrite <- Hc.
  change (leaf_item (item_of a n0)) with (fresh_max E (linked a n0) E).
  remember (fresh_max E (linked a n0) E) as x eqn:Hx.
  assert (Hxa : i_addr x = a) by (by rewrite Hx).
  assert (Hlen : length (refresh c (i_max x)) = length c).
  { generalize (i_max x). clear. induction c as [|[? ?|? ?] c IH]; intros m;
      simpl; [done| |]; by rewrite IH. }
  destruct (fixup_loop_total (S (length c)) nc (refresh c (i_max x)) (T E x E)
              ltac:(lia)) as ([nc2 t2] & Hloop).
  rewrite Hloop.
  pose proof (Rep_size _ _ _ H2) as Hsz2.
  pose proof (size_plug (refresh c (i_max x)) (T E x E)) as Hsp2.
  change (size (T E x E)) with 1%nat in Hsp2.
  destruct (insert_fixup_loop_sim _ _ _ _ _ _ _ _ (S (length (heap s2))) H2 Hloop
              ltac:(lia)) as (s3 & E3 & N3 & H3).
  rewrite Hxa in E3. simpl fst in H3. simpl snd in H3.
  destruct (link_recolor_black nc2 s3 [] t2 H3) as (s4 & E4 & N4 & H4).
  assert (Hroot : root s3 = root_of s3 t2) by apply H3.
  exists s4, (match t2 with E => BLACK | _ => nc2 end), (blacken t2).
  split; [|split; [reflexivity|split; [congruence|exact H4]]].
  unfold _update_max_end_up_to_root. rewrite bind_assoc, run_budget.
  rewrite (bind_Ok _ _ _ _ _ E2).
  unfold _insert_fixup. rewrite run_budget.
  rewrite (bind_Ok _ _ _ _ _ E3), run_get_root.
  by rewrite Hroot, E4.
Qed.

(** * The walk reads the represented tree *)

Lemma walk_rep s t :
  forall p fuel, rep s t p -> (height t < fuel)%nat ->
                 walk fuel s (Some (root_of s t)) = Some t.
Proof.
  induction t as [|l IHl v r IHr]; intros p fuel Hrep Hf;
    (destruct fuel as [|fuel]; [lia|]); simpl in Hf |- *.
  - by rewrite Nat.eqb_refl.
  - destruct Hrep as (Hne & (n & Hn & Hv & Hl & Hr & _) & Hrl & Hrr).
    rewrite eqb_addr_false by done. rewrite Hn, Hl, Hr.
    rewrite (IHl _ fuel Hrl) by lia. rewrite (IHr _ fuel Hrr) by lia.
    by rewrite Hv.
Qed.

Theorem tree_of_Rep nc s t : Rep nc s t -> tree_of s = Some t.
Proof.
  intros H. pose proof (Rep_size _ _ _ H). pose proof (height_le_size t).
  destruct H as (_ & Hroot & Hrep & _). unfold tree_of. rewrite Hroot.
  eapply walk_rep; [exact Hrep|lia].
Qed.

Lemma sentinel_color_Rep nc s t : Rep nc s t -> sentinel_color s = Some nc.
Proof.
  intros ((n & Hn & Hc & _) & _). unfold sentinel_color. by rewrite Hn, <- Hc.
Qed.

(** * A new tree *)

Lemma init_spec h :
  exists s, RedBlackIntervalTree_init h = Ok s /\ Rep BLACK s E /\
            NIL_LEAF s = length h.
Proof.
  unfold RedBlackIntervalTree_init, IntervalNode_init.
  assert (py_ge (PDatetime datetime_min) (PDatetime (datetime_min + timedelta 1))
          = Ok false) as -> by (vm_compute; reflexivity).
  set (n := mkNode datetime_min (datetime_min + timedelta 1)
              (datetime_min + timedelta 1) RED None None None PNone).
  assert (Hn : (h ++ [n]) !! length h = Some n).
  { rewrite lookup_app_r by lia. by rewrite Nat.sub_diag. }
  rewrite (set_Ok _ _ (mkTree _ _ _) n Hn).
  eexists. split; [reflexivity|]. split; [|reflexivity].
  split; [|split; [reflexivity|split; [done|constructor]]].
  exists (with_color BLACK n). split; [|done]. simpl.
  apply list_lookup_insert_eq. rewrite length_app. simpl. lia.
Qed.

(** * Construction followed by insertion *)

Lemma Rep_alloc nc s t n :
  Rep nc s t -> Rep nc (mkTree (heap s ++ [n]) (NIL_LEAF s) (root s)) t.
Proof.
  intros H. eapply (Rep_agree nc s); [|done|exact H].
  split; [done|]. intros a Ha. simpl. apply lookup_app_l.
  destruct H as ((m & Hm & _) & _ & Hrep & _).
  apply elem_of_cons in Ha as [->|Ha].
  - eapply lookup_lt_Some, Hm.
  - by destruct (rep_alloc _ _ _ _ Hrep Ha).
Qed.

Theorem insert_interval_spec nc s t st en d :
  Rep nc s t -> st < en ->
  exists s' nc' t',
    insert_interval st en d s = Ok (length (heap s), s') /\
    ins nc t (mkItem (length (heap s)) st en en RED) = Some (nc', t') /\
    NIL_LEAF s' = NIL_LEAF s /\
    Rep nc' s' t'.
Proof.
  intros H Hlt. unfold insert_interval, IntervalNode_init. simpl py_ge.
  assert ((en <=? st) = false) as -> by (apply N.leb_gt; lia).
  set (n := mkNode st en en RED None None None d).
  pose proof (Rep_alloc nc s t n H) as H1.
  set (s1 := mkTree (heap s ++ [n]) (NIL_LEAF s) (root s)) in *.
  assert (Hn : heap s1 !! length (heap s) = Some n).
  { simpl. rewrite lookup_app_r by lia. by rewrite Nat.sub_diag. }
  destruct H as ((m & Hm & _) & _ & Hrep & _).
  destruct (insert_spec nc s1 t (length (heap s)) n H1 Hn)
    as (s' & nc' & t' & Hi & Hins & HN & H').
  - intros Ha. destruct (rep_alloc _ _ _ _ Hrep Ha). lia.
  - simpl. intros Heq. apply lookup_lt_Some in Hm. lia.
  - exists s', nc', t'. rewrite Hi. done.
Qed.

(** * Insertion on trees: what it keeps *)

(** ** The nodes and their order *)

Lemma keys_T l v r : keys (T l v r) = keys l ++ key v :: keys r.
Proof. unfold keys. simpl. by rewrite fmap_app. Qed.

Lemma keys_plug c t :
  keys (plug c t) = (key <$> before c) ++ keys t ++ (key <$> after c).
Proof. unfold keys. by rewrite elements_plug, !fmap_app. Qed.

Lemma keys_blacken t : keys (blacken t) = keys t.
Proof. destruct t; simpl; [done|]. by rewrite !keys_T. Qed.

Lemma keys_addrs t : addrs t = (fun k => k.1.1) <$> keys t.
Proof.
  unfold addrs, keys. rewrite <- list_fmap_compose. reflexivity.
Qed.

Ltac keys_norm :=
  repeat match goal with |- context [blacken ?u] => is_var u; destruct u end;
  rewrite ?keys_plug; simpl; rewrite ?keys_blacken; unfold keys; simpl;
  repeat (rewrite ?fmap_app, ?app_nil_r, <- ?app_assoc; simpl);
  try reflexivity.

(** The cases of a turn of the loop that ends with [Some]. *)
Ltac turn_cases nc c t :=
  unfold fixup_turn;
  let fP := fresh "fP" in
  let c1 := fresh "c1" in
  let HP := fresh "HP" in
  let HU := fresh "HU" in
  let G := fresh "G" in
  let U := fresh "U" in
  let c2 := fresh "c2" in
  destruct c as [|fP c1]; [done|];
  destruct (i_color (frame_item fP)) eqn:HP; [|done];
  destruct c1 as [|[G U|U G] c2];
  [ destruct fP as [P sP|sP P]
  | destruct (link_color nc U) eqn:HU; [|destruct fP as [P sP|sP P]]
  | destruct (link_color nc U) eqn:HU; [|destruct fP as [P sP|sP P]] ];
  simpl; intros [= <- <- <-].

Lemma fixup_turn_keys nc c l v r nc' c' t' :
  fixup_turn nc c (T l v r) = Some (nc', c', t') ->
  keys (plug c' t') = keys (plug c (T l v r)).
Proof.
  turn_cases nc c t; try (destruct fP); keys_norm.
Qed.

Lemma fixup_turn_T nc c l v r nc' c' t' :
  fixup_turn nc c (T l v r) = Some (nc', c', t') ->
  exists l' v' r', t' = T l' v' r'.
Proof.
  turn_cases nc c t; eauto.
Qed.

Lemma fixup_loop_keys n :
  forall nc c l v r nc' t',
    fixup_loop n nc c (T l v r) = Some (nc', t') ->
    keys t' = keys (plug c (T l v r)).
Proof.
  induction n as [|n IH]; intros nc c l v r nc' t'; [done|]. simpl.
  destruct (fixup_turn nc c (T l v r)) as [[[nc1 c1] t1]|] eqn:Ht.
  - destruct (fixup_turn_T _ _ _ _ _ _ _ _ Ht) as (l1 & v1 & r1 & ->).
    intros H. rewrite (IH _ _ _ _ _ _ _ H). by apply fixup_turn_keys in Ht.
  - by intros [= <- <-].
Qed.

Lemma before_refresh c m : key <$> before (refresh c m) = key <$> before c.
Proof.
  revert m. induction c as [|[v sib|sib v] c IH]; intros m; simpl; [done|..].
  - apply IH.
  - rewrite !fmap_app, IH. reflexivity.
Qed.

Lemma after_refresh c m : key <$> after (refresh c m) = key <$> after c.
Proof.
  revert m. induction c as [|[v sib|sib v] c IH]; intros m; simpl; [done|..].
  - rewrite !fmap_app, IH. reflexivity.
  - apply IH.
Qed.

(** The new node lands in the hole the descent finds; nothing else moves. *)
Lemma ins_keys nc t x nc' t' :
  ins nc t x = Some (nc', t') ->
  exists c, c = descend (i_start x) [] t /\
  keys t = (key <$> before c) ++ (key <$> after c) /\
  keys t' = (key <$> before c) ++ key x :: (key <$> after c).
Proof.
  unfold ins. intros H. exists (descend (i_start x) [] t). split; [done|].
  set (c := descend (i_start x) [] t) in *.
  destruct (fixup_loop _ _ _ _) as [[nc1 t1]|] eqn:Hl; [|done].
  injection H as _ <-. split.
  - assert (plug c E = t) as Hp by (unfold c; by rewrite descend_plug).
    rewrite <- Hp at 1. by rewrite keys_plug.
  - rewrite keys_blacken, (fixup_loop_keys _ _ _ _ _ _ _ _ Hl), keys_plug.
    by rewrite before_refresh, after_refresh.
Qed.

(** ** The order of the start times *)

Lemma ctx_bounds k c :
  Forall (dir_ok k) c ->
  StronglySorted key_le ((key <$> before c) ++ (key <$> after c)) ->
  Forall (fun a => a.1.2 <= k) (key <$> before c) /\
  Forall (fun a => k < a.1.2) (key <$> after c).
Proof.
  induction c as [|[v sib|sib v] c IH]; simpl; [by split|..];
    intros Hd Hs; apply Forall_cons in Hd as [Hv Hd]; simpl in Hv.
  - rewrite fmap_app in Hs |- *.
    apply StronglySorted_app in Hs as (Hba & Hb & Ha).
    apply StronglySorted_cons in Ha as [Hva Ha].
    apply StronglySorted_app in Ha as (_ & _ & Ha).
    destruct IH as [IHb IHa]; [done| |].
    { apply StronglySorted_app. split_and!; [|done..].
      intros x1 x2 H1 H2. apply Hba; [done|]. set_solver. }
    split; [done|]. apply N.ltb_lt in Hv.
    constructor; [done|]. apply Forall_app. split; [|done].
    apply Forall_app in Hva as [Hva _].
    eapply Forall_impl; [exact Hva|]. unfold key_le. simpl. intros x Hx. eapply N.lt_le_trans; eauto.
  - rewrite !fmap_app in Hs |- *. simpl in Hs |- *.
    rewrite <- !app_assoc in Hs.
    apply StronglySorted_app in Hs as (Hba & Hb & Ha).
    apply StronglySorted_app in Ha as (Hsa & Hsib & Ha).
    apply StronglySorted_cons in Ha as [Hva Ha].
    destruct IH as [IHb IHa]; [done| |].
    { apply StronglySorted_app. split_and!; [|done..].
      intros x1 x2 H1 H2. apply Hba; [done|]. set_solver. }
    split; [|done]. apply N.ltb_ge in Hv.
    rewrite !Forall_app. split_and!.
    + apply Forall_forall. intros x Hx.
      assert (key_le x (key v)) as Hle by (apply Hba; [done|]; set_solver).
      unfold key_le in Hle. destruct x as [[xa xs] xe]. simpl in *. lia.
    + apply Forall_forall. intros x Hx.
      assert (key_le x (key v)) as Hle by (apply Hsa; [done|]; set_solver).
      unfold key_le in Hle. destruct x as [[xa xs] xe]. simpl in *. lia.
    + constructor; [simpl; lia|constructor].
Qed.

(** Insertion puts the new node after every node that starts no later
    and before every node that starts later. *)
Lemma ins_place nc t x nc' t' :
  ordered t -> ins nc t x = Some (nc', t') ->
  exists kb ka,
    keys t = kb ++ ka /\ keys t' = kb ++ key x :: ka /\
    Forall (fun a => a.1.2 <= i_start x) kb /\
    Forall (fun a => i_start x < a.1.2) ka.
Proof.
  intros Ho H. destruct (ins_keys _ _ _ _ _ H) as (c & Hc & Hk & Hk').
  exists (key <$> before c), (key <$> after c). split; [done|]. split; [done|].
  apply ctx_bounds.
  - rewrite Hc. by apply descend_dir.
  - unfold ordered in Ho. by rewrite Hk in Ho.
Qed.

Lemma ins_ordered nc t x nc' t' :
  ordered t -> ins nc t x = Some (nc', t') -> ordered t'.
Proof.
  intros Ho H. destruct (ins_place _ _ _ _ _ Ho H) as (kb & ka & Hk & Hk' & Hb & Ha).
  unfold ordered in *. rewrite Hk' . rewrite Hk in Ho.
  apply StronglySorted_app in Ho as (Hba & Hsb & Hsa).
  apply StronglySorted_app. split_and!; [|done|].
  - intros x1 x2 H1 H2. apply elem_of_cons in H2 as [->|H2].
    + rewrite Forall_forall in Hb. apply Hb in H1. unfold key_le.
      destruct x1 as [[xa xs] xe]. simpl in *. lia.
    + by apply Hba.
  - constructor; [done|]. eapply Forall_impl; [exact Ha|].
    unfold key_le. intros [[xa xs] xe]. simpl. lia.
Qed.

(** The order on a tree, node by node. *)
Lemma ordered_bst_weak t : ordered t <-> bst_weak t = true.
Proof.
  unfold ordered. induction t as [|l IHl v r IHr]; simpl.
  - split; [done|]. intros _. constructor.
  - rewrite keys_T, StronglySorted_app, StronglySorted_cons, IHl, IHr.
    rewrite !andb_true_iff, !forallb_forall.
    unfold keys. split.
    + intros (H1 & Hl & H2 & Hr). split_and!; [| |done..].
      * intros x Hx. apply N.leb_le.
        apply (H1 (key x) (key v)); [apply list_elem_of_fmap_2, list_elem_of_In, Hx|set_solver].
      * intros x Hx. apply N.leb_le. rewrite Forall_forall in H2.
        apply (H2 (key x)). apply list_elem_of_fmap_2, list_elem_of_In, Hx.
    + intros [[[H1 H2] Hl] Hr]. split_and!; [| done| |done].
      * intros x1 x2 Hx1 Hx2.
        apply list_elem_of_fmap in Hx1 as (y1 & -> & Hy1).
        apply list_elem_of_In, H1, N.leb_le in Hy1.
        apply elem_of_cons in Hx2 as [->|Hx2]; [exact Hy1|].
        apply list_elem_of_fmap in Hx2 as (y2 & -> & Hy2).
        apply list_elem_of_In, H2, N.leb_le in Hy2.
        unfold key_le. simpl in *. lia.
      * apply Forall_forall. intros x Hx.
        apply list_elem_of_fmap in Hx as (y & -> & Hy).
        apply list_elem_of_In, H2, N.leb_le in Hy. exact Hy.
Qed.

(** ** The augmentation *)

Lemma aug_T l v r :
  aug (T l v r) = true <->
  i_max v = N.max (i_end v) (N.max (max_of l) (max_of r)) /\
  aug l = true /\ aug r = true.
Proof. simpl. rewrite !andb_true_iff, N.eqb_eq. tauto. Qed.

Lemma aug_plug c : forall t,
  aug (plug c t) = true <-> aug t = true /\ ctx_aug c (max_of t).
Proof.
  induction c as [|[v sib|sib v] c IH]; intros t; simpl plug.
  - simpl. tauto.
  - rewrite IH, aug_T. simpl. intuition lia.
  - rewrite IH, aug_T. simpl. intuition lia.
Qed.

Lemma aug_blacken t : aug (blacken t) = aug t.
Proof. by destruct t. Qed.

Lemma max_of_blacken t : max_of (blacken t) = max_of t.
Proof. by destruct t. Qed.

Lemma ctx_aug_refresh c : forall m0 m, ctx_aug c m0 -> ctx_aug (refresh c m) m.
Proof.
  induction c as [|[v sib|sib v] c IH]; intros m0 m; simpl; [done|..];
    intros (Hs & _ & Hc); (split; [done|]); (split; [lia|]);
    eapply IH, Hc.
Qed.

Ltac max_subst :=
  repeat match goal with
    | H : i_max ?x = _ |- _ =>
        let m := fresh "m" in
        remember (i_max x) as m eqn:Hm in *; clear Hm; subst m
    end.

Ltac max_solve :=
  apply N.le_antisymm; repeat apply N.max_lub; lia.

Ltac aug_norm :=
  simpl in *; rewrite ?andb_true_iff, ?N.eqb_eq in *;
  repeat match goal with H : _ /\ _ |- _ => destruct H end;
  repeat split; try done;
  max_subst;
  try match goal with
    | H : ctx_aug ?c ?m |- ctx_aug ?c ?m' =>
        replace m' with m by (clear; max_solve); exact H
    end;
  clear; try max_solve.

Lemma fixup_turn_aug nc c l v r nc' c' t' :
  fixup_turn nc c (T l v r) = Some (nc', c', t') ->
  aug (T l v r) = true -> ctx_aug c (i_max v) ->
  aug t' = true /\ ctx_aug c' (max_of t').
Proof.
  turn_cases nc c t; intros Ht Hc; try (destruct fP); try (destruct U);
    aug_norm.
Qed.

Lemma fixup_loop_aug n :
  forall nc c l v r nc' t',
    fixup_loop n nc c (T l v r) = Some (nc', t') ->
    aug (T l v r) = true -> ctx_aug c (i_max v) ->
    aug t' = true.
Proof.
  induction n as [|n IH]; intros nc c l v r nc' t'; [done|]. simpl.
  destruct (fixup_turn nc c (T l v r)) as [[[nc1 c1] t1]|] eqn:Ht.
  - destruct (fixup_turn_T _ _ _ _ _ _ _ _ Ht) as (l1 & v1 & r1 & ->).
    intros H Ha Hc.
    destruct (fixup_turn_aug _ _ _ _ _ _ _ _ Ht Ha Hc) as [Ha1 Hc1].
    eapply IH; eauto.
  - intros [= <- <-] Ha Hc. by apply aug_plug.
Qed.

Lemma ins_aug nc t x nc' t' :
  aug t = true -> ins nc t x = Some (nc', t') -> aug t' = true.
Proof.
  unfold ins. intros Ha H.
  set (c := descend (i_start x) [] t) in *.
  destruct (fixup_loop _ _ _ _) as [[nc1 t1]|] eqn:Hl; [|done].
  injection H as _ <-. rewrite aug_blacken.
  assert (plug c E = t) as Hp by (unfold c; by rewrite descend_plug).
  rewrite <- Hp in Ha. apply aug_plug in Ha as [_ Hc].
  eapply fixup_loop_aug; [exact Hl| |].
  - simpl. by rewrite N.eqb_refl.
  - eapply ctx_aug_refresh, Hc.
Qed.

(** Rotations keep the augmentation and the maximum of the subtree. *)
Lemma rot_left_aug t :
  aug t = true -> aug (rot_left t) = true /\ max_of (rot_left t) = max_of t.
Proof.
  destruct t as [|l x [|rl y rr]]; try done. intros H. aug_norm.
Qed.

Lemma rot_right_aug t :
  aug t = true -> aug (rot_right t) = true /\ max_of (rot_right t) = max_of t.
Proof.
  destruct t as [|[|ll y lr] x r]; try done. intros H. aug_norm.
Qed.

Lemma rot_left_keys t : keys (rot_left t) = keys t.
Proof. destruct t as [|l x [|rl y rr]]; try done. keys_norm. Qed.

Lemma rot_right_keys t : keys (rot_right t) = keys t.
Proof. destruct t as [|[|ll y lr] x r]; try done. keys_norm. Qed.

(** ** The red-black invariants *)

Lemma bh_T l v r m :
  black_height (T l v r) = Some m <->
  exists n, black_height l = Some n /\ black_height r = Some n /\
            m = match i_color v with BLACK => S n | RED => n end.
Proof.
  simpl. destruct (black_height l) as [a|], (black_height r) as [b|];
    try (split; [done|]; intros (n & ? & ? & ?); done).
  destruct (Nat.eqb_spec a b) as [->|Hne]; split.
  - intros [= <-]. by exists b.
  - intros (n & [= ->] & _ & ->). done.
  - done.
  - intros (n & [= ->] & [= ->] & _). done.
Qed.

Lemma nrr_T l v r :
  no_red_red (T l v r) = true <->
  (i_color v = RED -> color_of l = BLACK /\ color_of r = BLACK) /\
  no_red_red l = true /\ no_red_red r = true.
Proof.
  simpl. rewrite !andb_true_iff.
  destruct (i_color v), (color_of l), (color_of r); simpl; intuition congruence.
Qed.

Lemma color_cases (k : NodeColor) : k = RED \/ k = BLACK.
Proof. destruct k; auto. Qed.

Lemma plug_rb_inv c : forall t m,
  no_red_red (plug c t) = true -> black_height (plug c t) = Some m ->
  color_of (plug c t) = BLACK ->
  exists n, black_height t = Some n /\ no_red_red t = true /\ ctx_rb c n /\
            match c with
            | [] => color_of t = BLACK
            | f :: _ => i_color (frame_item f) = RED -> color_of t = BLACK
            end.
Proof.
  induction c as [|f c IH]; intros t m Hn Hb Hc; simpl in *.
  - exists m. done.
  - destruct (IH _ _ Hn Hb Hc) as (n' & Hb' & Hn' & Hrb & Htop).
    assert (i_color (frame_item f) = RED -> ctx_top_black c) as Hblack.
    { intros Hred. destruct c as [|f' c]; simpl in *.
      - destruct f; simpl in *; congruence.
      - destruct (color_cases (i_color (frame_item f'))) as [Hf'|Hf']; [|done].
        apply Htop in Hf'. destruct f; simpl in *; congruence. }
    destruct f as [v sib|sib v]; simpl in *;
      apply bh_T in Hb' as (n & Hbt & Hbs & ->);
      apply nrr_T in Hn' as (Hv & Hnt & Hns);
      exists n; (split; [done|]); (split; [done|]); (split; [|intros; by apply Hv]);
      (split; [done|]); (split; [done|]); (split; [|done]);
      intros Hred; (split; [by apply Hv|by apply Hblack]).
Qed.

Lemma plug_rb c : forall t n,
  ctx_rb c n -> black_height t = Some n -> no_red_red t = true ->
  match c with
  | [] => True
  | f :: _ => i_color (frame_item f) = RED -> color_of t = BLACK
  end ->
  no_red_red (plug c t) = true /\
  (exists m, black_height (plug c t) = Some m) /\
  (c <> [] -> color_of (plug c t) = BLACK).
Proof.
  induction c as [|f c IH]; intros t n Hrb Hb Hn Htop; simpl in *.
  - split; [done|]. split; [by eexists|done].
  - destruct Hrb as (Hbs & Hns & Hred & Hrb).
    assert (color_of (fill f t) = i_color (frame_item f)) as Hcol
      by (by destruct f).
    destruct (IH (fill f t) _ Hrb) as (H1 & H2 & H3).
    + destruct f as [v sib|sib v]; simpl in *; apply bh_T; by exists n.
    + destruct f as [v sib|sib v]; simpl in *; apply nrr_T;
        (split; [|done]); intros Hv; (split; [by apply Htop|by apply Hred])
        || (split; [by apply Hred|by apply Htop]).
    + destruct c as [|f' c]; [done|]. rewrite Hcol. intros Hf'.
      destruct (color_cases (i_color (frame_item f))) as [Hf|Hf]; [|done].
      apply Hred in Hf as [_ Hf]. simpl in Hf. congruence.
    + split; [done|]. split; [done|]. intros _.
      destruct c as [|f' c]; [|by apply H3].
      simpl. rewrite Hcol.
      destruct (color_cases (i_color (frame_item f))) as [Hf|Hf]; [|done].
      by apply Hred in Hf as [_ []].
Qed.

Lemma ctx_rb_refresh c : forall n m, ctx_rb (refresh c m) n <-> ctx_rb c n.
Proof.
  induction c as [|[v sib|sib v] c IH]; intros n m; simpl; [done|..];
    rewrite IH; destruct c as [|[? ?|? ?] c]; simpl; tauto.
Qed.

Ltac rb_hyps :=
  repeat match goal with
    | H : black_height (T _ _ _) = Some _ |- _ =>
        apply bh_T in H as (? & ? & ? & ?)
    | H : no_red_red (T _ _ _) = true |- _ => apply nrr_T in H as (? & ? & ?)
    | H : ctx_rb (_ :: _) _ |- _ => destruct H as (? & ? & ? & ?)
    | H : ctx_top_black (_ :: _) |- _ => simpl in H
    | H : ?a = RED -> _, H' : ?a = RED |- _ => specialize (H H')
    | H : ?a = ?a -> _ |- _ => specialize (H eq_refl)
    | H : BLACK = RED -> _ |- _ => clear H
    | H : BLACK = RED |- _ => discriminate H
    | H : RED = BLACK |- _ => discriminate H
    | H : _ /\ _ |- _ => destruct H
    | H : False |- _ => destruct H
    | H : i_color ?x = _ |- _ => rewrite H in *
    | H : Some _ = Some _ |- _ => injection H as H
    | H : S _ = S _ |- _ => injection H as H
    | _ => progress subst
    | _ => progress cbn [frame_sib frame_item] in *
    end.

Ltac rb_goal :=
  repeat match goal with
    | |- _ /\ _ => split
    | |- exists _, _ => eexists
    | |- no_red_red (T _ _ _) = true => apply nrr_T
    | |- black_height (T _ _ _) = Some _ => apply bh_T
    | |- ctx_rb (_ :: _) _ => cbn [ctx_rb frame_sib frame_item]
    | |- _ => progress (simpl i_color; simpl color_of)
    | |- _ => progress rb_hyps
    | |- _ => eassumption
    | |- _ => reflexivity
    | |- _ -> _ => intros ?
    end.

Lemma fixup_turn_rb c l v r nc' c' t' n :
  fixup_turn BLACK c (T l v r) = Some (nc', c', t') ->
  i_color v = RED -> no_red_red (T l v r) = true ->
  black_height (T l v r) = Some n -> ctx_rb c n ->
  nc' = BLACK /\
  exists n', color_of t' = RED /\ no_red_red t' = true /\
             black_height t' = Some n' /\ ctx_rb c' n'.
Proof.
  intros Ht Hv Hn Hb Hc; revert Ht.
  turn_cases BLACK c t; try (destruct fP as [P sP|sP P]);
    simpl frame_item in *; simpl frame_sib in *; rb_hyps;
    try (destruct U as [|ul u ur]; [done|]; simpl in HU);
    simpl fill; simpl blacken; rb_hyps.
  all: split; [done|]; eexists.
  all: rb_goal.
Qed.

Lemma fixup_loop_rb k :
  forall c l v r nc' t' n,
    fixup_loop k BLACK c (T l v r) = Some (nc', t') ->
    i_color v = RED -> no_red_red (T l v r) = true ->
    black_height (T l v r) = Some n -> ctx_rb c n ->
    nc' = BLACK /\ t' <> E /\
    (no_red_red t' = true \/ no_red_red (blacken t') = true) /\
    no_red_red (blacken t') = true /\
    exists m, black_height t' = Some m.
Proof.
  induction k as [|k IH]; intros c l v r nc' t' n; [done|]. simpl.
  destruct (fixup_turn BLACK c (T l v r)) as [[[nc1 c1] t1]|] eqn:Ht.
  - intros H Hv Hn Hb Hc.
    destruct (fixup_turn_rb _ _ _ _ _ _ _ _ Ht Hv Hn Hb Hc)
      as (-> & n' & Hcol & Hn' & Hb' & Hc').
    destruct t1 as [|l1 v1 r1]; [done|]. eapply IH; eauto.
  - intros [= <- <-] Hv Hn Hb Hc.
    split; [done|].
    assert (plug c (T l v r) <> E) as HE.
    { clear. revert l v r. induction c as [|[? ?|? ?] c IH]; intros; simpl; [done|..];
        apply IH. }
    split; [done|].
    assert (no_red_red (plug c (T l v r)) = true /\
            exists m, black_height (plug c (T l v r)) = Some m) as [H1 H2].
    { destruct (plug_rb c (T l v r) n Hc Hb Hn) as (H1 & H2 & _); [|done].
      destruct c as [|f c]; [done|]. simpl in Ht |- *.
      destruct (i_color (frame_item f)) eqn:Hf; [|done].
      exfalso. revert Ht. clear.
      destruct c as [|[G U|U G] c2]; [destruct f|
        destruct (link_color BLACK U); [done|destruct f]..]; done. }
    split; [by left|]. split; [|done].
    destruct (plug c (T l v r)) as [|l1 v1 r1]; [done|].
    apply nrr_T in H1 as (_ & ? & ?). apply nrr_T. done.
Qed.

Lemma bh_blacken t m :
  black_height t = Some m -> exists m', black_height (blacken t) = Some m'.
Proof.
  destruct t as [|l v r]; [by eexists|]. intros (n & ? & ? & _)%bh_T.
  eexists. apply bh_T. exists n. done.
Qed.

(** Insertion into a red-black tree gives a red-black tree, and leaves
    the sentinel BLACK. *)
Lemma ins_rb t x nc' t' :
  rb_valid t -> ins BLACK t x = Some (nc', t') -> nc' = BLACK /\ rb_valid t'.
Proof.
  unfold ins. intros (Hc & Hn & m & Hb) H.
  set (c := descend (i_start x) [] t) in *.
  destruct (fixup_loop _ _ _ _) as [[nc1 t1]|] eqn:Hl; [|done].
  injection H as <- <-.
  assert (plug c E = t) as Hp by (unfold c; by rewrite descend_plug).
  rewrite <- Hp in Hc, Hn, Hb.
  destruct (plug_rb_inv _ _ _ Hn Hb Hc) as (n & Hn0 & _ & Hrb & _).
  simpl in Hn0. injection Hn0 as <-.
  destruct (fixup_loop_rb _ _ _ _ _ _ _ 0%nat Hl) as (-> & HE & _ & Hn1 & m1 & Hb1).
  - done.
  - done.
  - done.
  - by apply ctx_rb_refresh.
  - split; [by destruct t1|]. split; [by destruct t1|].
    split; [done|]. eapply bh_blacken, Hb1.
Qed.

(** * [find_conflict] *)

Lemma find_conflict_loop_sim st en t :
  forall nc s c fuel,
    Rep nc s (plug c t) -> (height t < fuel)%nat ->
    find_conflict_loop fuel st en (Some (root_of s t)) s =
      Ok (i_addr <$> search st en t, s).
Proof.
  induction t as [|l IHl v r IHr]; intros nc s c fuel H Hf;
    (destruct fuel as [|fuel]; [simpl in Hf; lia|]); simpl in Hf.
  - simpl. rewrite run_get_NIL. by rewrite Nat.eqb_refl.
  - cbn [find_conflict_loop root_of search]. rewrite run_get_NIL.
    rewrite (focus_real _ _ _ _ _ _ H).
    rewrite (bind_Ok _ _ _ _ _ (focus_start _ _ _ _ _ _ H)).
    rewrite (bind_Ok _ _ _ _ _ (focus_end _ _ _ _ _ _ H)).
    destruct ((i_start v <? en) && (st <? i_end v)); [done|].
    rewrite (bind_Ok _ _ _ _ _ (focus_left _ _ _ _ _ _ H)).
    destruct l as [|ll lv lr].
    + cbn [root_of]. rewrite Nat.eqb_refl, bind_ret.
      rewrite (bind_Ok _ _ _ _ _ (focus_right _ _ _ _ _ _ H)).
      apply (IHr nc s (InR E v :: c)); [exact H|lia].
    + assert (Rep nc s (plug (InL v r :: c) (T ll lv lr))) as Hl by exact H.
      cbn [root_of].
      rewrite (focus_real _ _ _ _ _ _ Hl).
      rewrite bind_assoc.
      rewrite (bind_Ok _ _ _ _ _ (focus_max_end _ _ _ _ _ _ Hl)), !bind_ret.
      destruct (st <=? i_max lv).
      * rewrite bind_ret. apply (IHl nc s (InL v r :: c)); [exact Hl|lia].
      * rewrite (bind_Ok _ _ _ _ _ (focus_right _ _ _ _ _ _ H)).
        apply (IHr nc s (InR (T ll lv lr) v :: c)); [exact H|lia].
Qed.

Lemma search_sound st en t v :
  search st en t = Some v -> v ∈ elements t /\ overlaps st en v.
Proof.
  induction t as [|l IHl x r IHr]; simpl; [done|].
  destruct ((i_start x <? en) && (st <? i_end x)) eqn:Ho.
  - intros [= <-]. split; [set_solver|].
    apply andb_true_iff in Ho as [?%N.ltb_lt ?%N.ltb_lt]. done.
  - destruct (match l with E => false | T _ lv _ => st <=? i_max lv end);
      intros [? ?]%IHl || intros [? ?]%IHr; (split; [set_solver|done]).
Qed.

(** [find_conflict] returns, changes nothing, and reads the tree as
    [search] does. *)
Theorem find_conflict_spec nc s t st en :
  Rep nc s t ->
  find_conflict st en s = Ok (i_addr <$> search st en t, s).
Proof.
  intros H. unfold find_conflict. rewrite run_budget, run_get_root.
  pose proof (Rep_size _ _ _ H). pose proof (height_le_size t).
  rewrite (proj1 (proj2 H)).
  apply (find_conflict_loop_sim st en t nc s []); [exact H|lia].
Qed.

(** * Positions in a tree *)

Lemma plug_app c1 c2 t : plug (c1 ++ c2) t = plug c2 (plug c1 t).
Proof. revert t. induction c1 as [|f c1 IH]; intros t; simpl; [done|apply IH]. Qed.

(** Every node of a tree is the root of a subtree under a context. *)
Lemma decompose a t :
  a ∈ addrs t -> exists c l v r, t = plug c (T l v r) /\ i_addr v = a.
Proof.
  induction t as [|l IHl v r IHr]; [by intros ?%elem_of_nil|].
  rewrite addrs_T, elem_of_app, elem_of_cons. intros [Hl|[->|Hr]].
  - destruct (IHl Hl) as (c & l' & v' & r' & -> & <-).
    exists (c ++ [InL v r]), l', v', r'. by rewrite plug_app.
  - by exists [], l, v, r.
  - destruct (IHr Hr) as (c & l' & v' & r' & -> & <-).
    exists (c ++ [InR l v]), l', v', r'. by rewrite plug_app.
Qed.

Lemma addrs_fill f t :
  forall x, x ∈ addrs (fill f t) <->
            x ∈ addrs t \/ x = i_addr (frame_item f) \/ x ∈ addrs (frame_sib f).
Proof. intros x. destruct f; simpl; rewrite addrs_T; set_solver. Qed.

Lemma NoDup_plug_inner c t : NoDup (addrs (plug c t)) -> NoDup (addrs t).
Proof.
  rewrite addrs_plug. intros H%NoDup_app. destruct H as (_ & _ & H).
  apply NoDup_app in H. tauto.
Qed.

Lemma depth_fill f t b :
  NoDup (addrs (fill f t)) -> b ∈ addrs t ->
  depth b (fill f t) = S (depth b t).
Proof.
  destruct f as [v sib|sib v]; simpl; rewrite addrs_T; intros Hnd Hb.
  - apply NoDup_app in Hnd as (_ & Hd & _).
    rewrite eqb_addr_false by (intros <-; eapply Hd; [done|set_solver]).
    by rewrite bool_decide_eq_true_2.
  - apply NoDup_app in Hnd as (_ & Hd & Hnd). apply NoDup_cons in Hnd as [Hv _].
    rewrite eqb_addr_false by (intros <-; done).
    rewrite bool_decide_eq_false_2; [done|].
    intros Hs. eapply Hd; [done|set_solver].
Qed.

Lemma depth_plug c : forall t b,
  NoDup (addrs (plug c t)) -> b ∈ addrs t ->
  depth b (plug c t) = (length c + depth b t)%nat.
Proof.
  induction c as [|f c IH]; intros t b Hnd Hb; simpl; [done|].
  rewrite IH by (done || apply addrs_fill; by left).
  rewrite depth_fill; [lia| |done].
  eapply NoDup_plug_inner, Hnd.
Qed.

Lemma depth_fill_ctx f t1 t2 b :
  (forall x, x ∈ addrs t1 <-> x ∈ addrs t2) -> b ∉ addrs t1 ->
  b ∈ addrs (fill f t1) ->
  depth b (fill f t1) = depth b (fill f t2).
Proof.
  intros Heq Hb Hin.
  destruct f as [v sib|sib v]; simpl in *.
  - destruct (Nat.eqb (i_addr v) b); [done|].
    rewrite !bool_decide_eq_false_2; [done|by rewrite <- Heq|done].
  - destruct (Nat.eqb_spec (i_addr v) b) as [|Hne]; [done|].
    rewrite addrs_T in Hin.
    rewrite bool_decide_eq_true_2; [done|]. set_solver.
Qed.

Lemma depth_plug_ctx c : forall t1 t2 b,
  NoDup (addrs (plug c t1)) -> NoDup (addrs (plug c t2)) ->
  (forall x, x ∈ addrs t1 <-> x ∈ addrs t2) -> b ∉ addrs t1 ->
  b ∈ addrs (plug c t1) ->
  depth b (plug c t1) = depth b (plug c t2).
Proof.
  induction c as [|f c IH]; intros t1 t2 b H1 H2 Heq Hb Hin'; simpl in *.
  - done.
  - destruct (decide (b ∈ addrs (fill f t1))) as [Hin|Hout].
    + rewrite !depth_plug; try done.
      * f_equal. by apply depth_fill_ctx.
      * apply addrs_fill. apply addrs_fill in Hin. rewrite <- Heq. done.
    + apply IH; try done.
      intros x. rewrite !addrs_fill, Heq. done.
Qed.

(** ** Rotations and depth *)

Lemma addrs_rot_left t : addrs (rot_left t) = addrs t.
Proof. by rewrite !keys_addrs, rot_left_keys. Qed.

Lemma addrs_rot_right t : addrs (rot_right t) = addrs t.
Proof. by rewrite !keys_addrs, rot_right_keys. Qed.

Lemma depth_rot_left u b :
  NoDup (addrs u) -> b ∈ addrs u ->
  (depth b (rot_left u) <= S (depth b u))%nat /\
  (depth b (rot_left u) = O -> depth b u <> O ->
   exists l x rl y rr, u = T l x (T rl y rr) /\ b = i_addr y).
Proof.
  destruct u as [|l x [|rl y rr]]; [simpl; split; [lia|done]..|].
  intros Hnd Hb. 
  assert (i_addr x <> i_addr y /\
          (forall a, a ∈ addrs l ->
             a <> i_addr x /\ a <> i_addr y /\ (a ∉ addrs rl) /\ (a ∉ addrs rr)) /\
          (forall a, a ∈ addrs rl -> a <> i_addr x /\ a <> i_addr y /\ (a ∉ addrs rr)) /\
          (forall a, a ∈ addrs rr -> a <> i_addr x /\ a <> i_addr y))
    as (Hxy & Hl & Hrl & Hrr).
  { clear Hb. rewrite !addrs_T in Hnd.
    apply NoDup_app in Hnd as (_ & H1 & Hnd). apply NoDup_cons in Hnd as (H2 & Hnd).
    apply NoDup_app in Hnd as (_ & H3 & Hnd). apply NoDup_cons in Hnd as (H4 & _).
    split_and!; [set_solver| |intros a Ha; specialize (H3 a Ha); set_solver|set_solver].
    intros a Ha. specialize (H1 a Ha). set_solver. }
  simpl. rewrite !addrs_T.
  rewrite !addrs_T, !elem_of_app, !elem_of_cons in Hb.
  repeat first
    [ case_bool_decide
    | match goal with |- context [Nat.eqb ?a ?b] => destruct (Nat.eqb_spec a b) end ];
    subst; simpl.
  all: rewrite ?elem_of_app, ?elem_of_cons in *.
  all: split; [first [lia | exfalso; clear Hnd; naive_solver]|].
  all: try (intros; by eauto 10).
  all: try (intros; exfalso; clear Hnd; naive_solver).
Qed.

Lemma depth_rot_right u b :
  NoDup (addrs u) -> b ∈ addrs u ->
  (depth b (rot_right u) <= S (depth b u))%nat /\
  (depth b (rot_right u) = O -> depth b u <> O ->
   exists ll y lr x r, u = T (T ll y lr) x r /\ b = i_addr y).
Proof.
  destruct u as [|[|ll y lr] x r]; [simpl; split; [lia|done]..|].
  intros Hnd Hb. 
  assert (i_addr x <> i_addr y /\
          (forall a, a ∈ addrs ll ->
             a <> i_addr x /\ a <> i_addr y /\ (a ∉ addrs lr) /\ (a ∉ addrs r)) /\
          (forall a, a ∈ addrs lr -> a <> i_addr x /\ a <> i_addr y /\ (a ∉ addrs r)) /\
          (forall a, a ∈ addrs r -> a <> i_addr x /\ a <> i_addr y))
    as (Hxy & Hl & Hrl & Hrr).
  { clear Hb. rewrite !addrs_T, <- app_assoc in Hnd. simpl in Hnd.
    apply NoDup_app in Hnd as (_ & H1 & Hnd). apply NoDup_cons in Hnd as (H2 & Hnd).
    apply NoDup_app in Hnd as (_ & H3 & Hnd). apply NoDup_cons in Hnd as (H4 & _).
    split_and!; [set_solver| |intros a Ha; specialize (H3 a Ha); set_solver|set_solver].
    intros a Ha. specialize (H1 a Ha). set_solver. }
  simpl. rewrite !addrs_T.
  rewrite !addrs_T, !elem_of_app, !elem_of_cons in Hb.
  repeat first
    [ case_bool_decide
    | match goal with |- context [Nat.eqb ?a ?b] => destruct (Nat.eqb_spec a b) end ];
    subst; simpl.
  all: rewrite ?elem_of_app, ?elem_of_cons in *.
  all: split; [first [lia | exfalso; clear Hnd; naive_solver]|].
  all: try (intros; by eauto 10).
  all: try (intros; exfalso; clear Hnd; naive_solver).
Qed.

Lemma rot_plug_effect (rot : tree -> tree) c u :
  keys (rot u) = keys u ->
  (aug u = true -> aug (rot u) = true /\ max_of (rot u) = max_of u) ->
  (forall b, b ∈ addrs u -> (depth b (rot u) <= S (depth b u))%nat) ->
  NoDup (addrs (plug c u)) ->
  NoDup (addrs (plug c (rot u))) /\
  keys (plug c (rot u)) = keys (plug c u) /\
  (aug (plug c u) = true -> aug (plug c (rot u)) = true) /\
  (forall b, b ∈ addrs (plug c u) ->
     (depth b (plug c (rot u)) <= S (depth b (plug c u)))%nat) /\
  (forall b, b ∈ addrs (plug c u) ->
     depth b (plug c (rot u)) = O -> depth b (plug c u) <> O ->
     c = [] /\ b ∈ addrs u /\ depth b (rot u) = O /\ depth b u <> O).
Proof.
  intros Hk Ha Hd Hnd.
  assert (addrs (rot u) = addrs u) as Hads by (by rewrite !keys_addrs, Hk).
  assert (NoDup (addrs (plug c (rot u)))) as Hnd'.
  { rewrite addrs_plug, Hads, <- addrs_plug. done. }
  split; [done|]. split; [by rewrite !keys_plug, Hk|]. split.
  { rewrite !aug_plug. intros [H1 H2]. destruct (Ha H1) as [H3 H4].
    by rewrite H4. }
  assert (forall b, b ∉ addrs u -> b ∈ addrs (plug c u) ->
            depth b (plug c (rot u)) = depth b (plug c u)) as Hout.
  { intros b Hb Hin. symmetry. apply depth_plug_ctx; try done.
    intros x. by rewrite Hads. }
  split.
  - intros b Hb. destruct (decide (b ∈ addrs u)) as [Hin|Hnin].
    + rewrite !depth_plug by (done || by rewrite Hads). specialize (Hd b Hin). lia.
    + rewrite Hout by done. lia.
  - intros b Hb H0 Hne. destruct (decide (b ∈ addrs u)) as [Hin|Hnin].
    + rewrite depth_plug in H0 by (done || by rewrite Hads).
      rewrite depth_plug in Hne by done.
      destruct c; [|simpl in H0; lia]. simpl in *. done.
    + rewrite Hout in H0 by done. done.
Qed.

(** ** Recolouring *)

Lemma elements_paint a k t :
  key <$> elements (paint a k t) = key <$> elements t.
Proof.
  induction t as [|l IHl v r IHr]; simpl; [done|].
  rewrite !fmap_app, !fmap_cons, IHl, IHr.
  by destruct (Nat.eqb (i_addr v) a).
Qed.

Lemma keys_paint a k t : keys (paint a k t) = keys t.
Proof. apply elements_paint. Qed.

Lemma addrs_paint a k t : addrs (paint a k t) = addrs t.
Proof. by rewrite !keys_addrs, keys_paint. Qed.

Lemma max_of_paint a k t : max_of (paint a k t) = max_of t.
Proof. destruct t as [|l v r]; simpl; [done|]. by destruct (Nat.eqb (i_addr v) a). Qed.

Lemma aug_paint a k t : aug (paint a k t) = aug t.
Proof.
  induction t as [|l IHl v r IHr]; simpl; [done|].
  rewrite IHl, IHr, !max_of_paint. by destruct (Nat.eqb (i_addr v) a).
Qed.

Lemma depth_paint a k b t : depth b (paint a k t) = depth b t.
Proof.
  induction t as [|l IHl v r IHr]; simpl; [done|].
  rewrite IHl, IHr, addrs_paint.
  by destruct (Nat.eqb (i_addr v) a).
Qed.

Lemma root_of_paint s a k t : root_of s (paint a k t) = root_of s t.
Proof. destruct t as [|l v r]; simpl; [done|]. by destruct (Nat.eqb (i_addr v) a). Qed.

Lemma paint_rep k s a n t :
  heap s !! a = Some n ->
  forall p, rep s t p -> rep (store a (with_color k n) s) (paint a k t) p.
Proof.
  intros Hn. induction t as [|l IHl v r IHr]; intros p; simpl; [done|].
  intros (Hne & (m & Hm & Hv & Hl & Hr & Hp) & Hrl & Hrr).
  assert (i_addr (if Nat.eqb (i_addr v) a then recolor k v else v) = i_addr v)
    as Hi by (by destruct (Nat.eqb (i_addr v) a)).
  rewrite Hi. split; [done|]. split; [|split; [by apply IHl|by apply IHr]].
  unfold node_at. rewrite Hi, !root_of_paint.
  change (root_of (store a (with_color k n) s)) with (root_of s).
  destruct (Nat.eqb_spec (i_addr v) a) as [Heq|Hneq].
  - exists (with_color k n). rewrite Heq in *. rewrite Hn in Hm.
    injection Hm as <-.
    split; [apply heap_store_eq; by eexists|].
    split; [|done]. rewrite <- Hv. reflexivity.
  - exists m. split; [|done]. by rewrite heap_store_ne.
Qed.

Lemma paint_Rep k nc s a n t :
  Rep nc s t -> heap s !! a = Some n ->
  Rep (if Nat.eqb a (NIL_LEAF s) then k else nc)
      (store a (with_color k n) s) (paint a k t).
Proof.
  intros (Hs & Hroot & Hrep & Hnd) Hn. split_and!.
  - destruct Hs as (m & Hm & Hc & Hl & Hr & Hp). unfold sentinel_ok.
    change (NIL_LEAF (store a (with_color k n) s)) with (NIL_LEAF s).
    destruct (Nat.eqb_spec a (NIL_LEAF s)) as [->|Hne].
    + pose proof (eq_trans (eq_sym Hm) Hn) as [= ->].
      exists (with_color k n). split; [apply heap_store_eq; by eexists|done].
    + exists m. by rewrite heap_store_ne.
  - rewrite root_of_paint. exact Hroot.
  - by apply paint_rep.
  - by rewrite addrs_paint.
Qed.

Lemma depth_le_size b t : (depth b t <= size t)%nat.
Proof.
  induction t as [|l IHl v r IHr]; simpl; [done|].
  destruct (Nat.eqb (i_addr v) b); [lia|]. case_bool_decide; lia.
Qed.

(** * Nodes at any address *)

Lemma Rep_node nc s t a :
  Rep nc s t -> a ∈ addrs t ->
  exists c l v r n,
    t = plug c (T l v r) /\ i_addr v = a /\ heap s !! a = Some n /\
    item_of a n = v /\ left n = Some (root_of s l) /\
    right n = Some (root_of s r) /\ parent n = ctx_parent c.
Proof.
  intros H Ha. destruct (decompose _ _ Ha) as (c & l & v & r & -> & <-).
  destruct (focus_get left _ _ _ _ _ _ H) as (n & _ & Hn & Hv & Hl & Hr & Hp).
  by exists c, l, v, r, n.
Qed.

Lemma root_of_valid s t : root_of s t ∈ addrs t \/ root_of s t = NIL_LEAF s.
Proof. destruct t; [by right|left; apply elem_root]. Qed.

Lemma Rep_depth_zero nc s t a n :
  Rep nc s t -> a ∈ addrs t -> heap s !! a = Some n ->
  (parent n = None <-> depth a t = O).
Proof.
  intros H Ha Hn.
  destruct (Rep_node _ _ _ _ H Ha) as (c & l & v & r & n' & -> & <- & Hn' & _ & _ & _ & Hp).
  pose proof (eq_trans (eq_sym Hn) Hn') as [= ->].
  rewrite depth_plug by (apply H || apply elem_root).
  simpl. rewrite Nat.eqb_refl, Hp. destruct c; simpl; split; (done || lia).
Qed.

Lemma Rep_parent nc s t b n p :
  Rep nc s t -> b ∈ addrs t -> heap s !! b = Some n -> parent n = Some p ->
  p ∈ addrs t /\ depth b t = S (depth p t).
Proof.
  intros H Hb Hn Hpar.
  destruct (Rep_node _ _ _ _ H Hb) as (c & l & v & r & n' & -> & <- & Hn' & _ & _ & _ & Hp).
  pose proof (eq_trans (eq_sym Hn) Hn') as [= ->].
  rewrite Hpar in Hp. destruct c as [|f c]; [done|]. injection Hp as ->.
  assert (plug (f :: c) (T l v r) = plug c (fill f (T l v r))) as Heq by done.
  assert (i_addr (frame_item f) ∈ addrs (fill f (T l v r))) as Hin.
  { apply addrs_fill. by right; left. }
  split.
  - rewrite Heq, addrs_plug. set_solver.
  - rewrite depth_plug by (apply H || apply elem_root).
    rewrite Heq, depth_plug by (done || rewrite <- Heq; apply H).
    simpl. rewrite Nat.eqb_refl.
    destruct f; simpl; rewrite Nat.eqb_refl; lia.
Qed.

Lemma Rep_child nc s t a n b :
  Rep nc s t -> a ∈ addrs t -> heap s !! a = Some n ->
  left n = Some b \/ right n = Some b -> b <> NIL_LEAF s ->
  exists nb, heap s !! b = Some nb /\ parent nb = Some a.
Proof.
  intros H Ha Hn Hch Hb.
  destruct (Rep_node _ _ _ _ H Ha) as (c & l & v & r & n' & -> & <- & Hn' & _ & Hl & Hr & _).
  pose proof (eq_trans (eq_sym Hn) Hn') as [= ->].
  destruct Hch as [Hch|Hch].
  - rewrite Hch in Hl. injection Hl as ->.
    destruct l as [|ll lv lr]; [done|].
    destruct (focus_get left nc s (InL v r :: c) ll lv lr H)
      as (nb & _ & Hnb & _ & _ & _ & Hp).
    by exists nb.
  - rewrite Hch in Hr. injection Hr as ->.
    destruct r as [|rl rv rr]; [done|].
    destruct (focus_get left nc s (InR l v :: c) rl rv rr H)
      as (nb & _ & Hnb & _ & _ & _ & Hp).
    by exists nb.
Qed.

Lemma Rep_children nc s t a n :
  Rep nc s t -> a ∈ addrs t -> heap s !! a = Some n ->
  exists x y, left n = Some x /\ right n = Some y /\
              (x ∈ addrs t \/ x = NIL_LEAF s) /\ (y ∈ addrs t \/ y = NIL_LEAF s).
Proof.
  intros H Ha Hn.
  destruct (Rep_node _ _ _ _ H Ha) as (c & l & v & r & n' & -> & <- & Hn' & _ & Hl & Hr & _).
  pose proof (eq_trans (eq_sym Hn) Hn') as [= ->].
  exists (root_of s l), (root_of s r). split; [done|]. split; [done|].
  rewrite addrs_plug, addrs_T.
  destruct (root_of_valid s l), (root_of_valid s r); set_solver.
Qed.

(** Rotations at any node. *)
Lemma left_rotate_at nc s c l v r :
  Rep nc s (plug c (T l v r)) ->
  exists s', _left_rotate (i_addr v) s = Ok (tt, s') /\
             NIL_LEAF s' = NIL_LEAF s /\
             Rep nc s' (plug c (rot_left (T l v r))).
Proof.
  intros H. destruct r as [|rl y rr].
  - exists s. split; [by eapply left_rotate_noop|done].
  - by apply left_rotate_focus.
Qed.

Lemma right_rotate_at nc s c l v r :
  Rep nc s (plug c (T l v r)) ->
  exists s', _right_rotate (i_addr v) s = Ok (tt, s') /\
             NIL_LEAF s' = NIL_LEAF s /\
             Rep nc s' (plug c (rot_right (T l v r))).
Proof.
  intros H. destruct l as [|ll y lr].
  - exists s. split; [by eapply right_rotate_noop|done].
  - by apply right_rotate_focus.
Qed.

Lemma rotate_sentinel nc s t :
  Rep nc s t ->
  _left_rotate (NIL_LEAF s) s = Ok (tt, s) /\
  _right_rotate (NIL_LEAF s) s = Ok (tt, s).
Proof.
  intros ((n & Hn & _ & Hl & Hr & _) & _). unfold _left_rotate, _right_rotate.
  rewrite !run_get_NIL, (run_get _ _ _ _ _ Hn), (run_get _ _ _ _ _ Hn), Hl, Hr.
  done.
Qed.

(** * Reasoning on programs *)

Lemma wp_ret {A} (x : A) Q s : Q x s -> wp (ret x) Q s.
Proof. intros H. by exists x, s. Qed.

Lemma wp_bind {A B} (m : M A) (k : A -> M B) Q s :
  wp m (fun x s' => wp (k x) Q s') s -> wp (bind m k) Q s.
Proof.
  intros (x & s' & Hm & y & s'' & Hk & HQ). exists y, s''.
  by rewrite (bind_Ok _ _ _ _ _ Hm).
Qed.

Lemma wp_mono {A} (m : M A) (Q Q' : A -> RedBlackIntervalTree -> Prop) s :
  wp m Q s -> (forall x s', Q x s' -> Q' x s') -> wp m Q' s.
Proof. intros (x & s' & Hm & HQ) H. exists x, s'. auto. Qed.

Lemma wp_get {A} (f : IntervalNode -> A) a n Q s :
  heap s !! a = Some n -> Q (f n) s -> wp (get f a) Q s.
Proof. intros Hn HQ. exists (f n), s. by rewrite (get_Ok _ _ _ _ Hn). Qed.

Lemma wp_set upd a n Q s :
  heap s !! a = Some n -> Q tt (store a (upd n) s) -> wp (set upd a) Q s.
Proof. intros Hn HQ. eexists tt, _. by rewrite (set_Ok _ _ _ _ Hn). Qed.

(** * States that hold a given set of nodes *)

Section good_states.

Variables (K : list (addr * datetime * datetime)) (N0 : addr) (au : bool).

Lemma real_addrs t a : keys t = K -> real K a <-> a ∈ addrs t.
Proof. intros <-. unfold real. by rewrite keys_addrs. Qed.

Lemma sdepth_Rep nc s t b : Rep nc s t -> sdepth s b = depth b t.
Proof. intros H. unfold sdepth. by rewrite (tree_of_Rep _ _ _ H). Qed.

Lemma real_not_sentinel s a : good K N0 au s -> real K a -> a <> N0.
Proof.
  intros (nc & t & H & Hk & HN & _) Ha <-. rewrite <- HN in Ha.
  apply (real_addrs t) in Ha; [|done]. by eapply Rep_notin_NIL.
Qed.

Lemma good_lookup s a :
  good K N0 au s -> valid K N0 a -> exists n, heap s !! a = Some n.
Proof.
  intros (nc & t & H & Hk & HN & _) [Ha| ->].
  - apply (real_addrs t) in Ha; [|done].
    destruct (Rep_node _ _ _ _ H Ha) as (c & l & v & r & n & _ & _ & Hn & _).
    by exists n.
  - destruct H as ((n & Hn & _) & _). exists n. by rewrite <- HN.
Qed.

Lemma good_sentinel s n :
  good K N0 au s -> heap s !! N0 = Some n ->
  left n = None /\ right n = None /\ parent n = None.
Proof.
  intros (nc & t & ((m & Hm & _ & Hl & Hr & Hp) & _) & Hk & HN & _) Hn.
  rewrite HN in Hm. pose proof (eq_trans (eq_sym Hn) Hm) as [= ->]. done.
Qed.

Lemma good_children s a n :
  good K N0 au s -> real K a -> heap s !! a = Some n ->
  exists x y, left n = Some x /\ right n = Some y /\
              valid K N0 x /\ valid K N0 y.
Proof.
  intros (nc & t & H & Hk & HN & _) Ha Hn.
  apply (real_addrs t) in Ha; [|done].
  destruct (Rep_children _ _ _ _ _ H Ha Hn) as (x & y & Hl & Hr & Hx & Hy).
  exists x, y. unfold valid. rewrite !(real_addrs t), <- HN by done. done.
Qed.

Lemma good_parent s b n p :
  good K N0 au s -> valid K N0 b -> heap s !! b = Some n ->
  parent n = Some p ->
  real K b /\ real K p /\ sdepth s b = S (sdepth s p).
Proof.
  intros Hg Hb Hn Hp.
  assert (real K b) as Hr.
  { destruct Hb as [Hb| ->]; [done|].
    destruct (good_sentinel _ _ Hg Hn) as (_ & _ & ?). congruence. }
  split; [done|].
  destruct Hg as (nc & t & H & Hk & HN & _).
  rewrite !(real_addrs t), !(sdepth_Rep nc s t) in * by done.
  by eapply Rep_parent.
Qed.

Lemma good_links s a n :
  good K N0 au s -> valid K N0 a -> heap s !! a = Some n ->
  ovalid K N0 (left n) /\ ovalid K N0 (right n) /\ ovalid K N0 (parent n).
Proof.
  intros Hg Ha Hn.
  assert (ovalid K N0 (parent n)) as Hp.
  { destruct (parent n) as [p|] eqn:Hp; [|done]. left.
    by destruct (good_parent _ _ _ _ Hg Ha Hn Hp) as (_ & ? & _). }
  destruct Ha as [Ha| ->].
  - destruct (good_children _ _ _ Hg Ha Hn) as (x & y & -> & -> & ? & ?). done.
  - destruct (good_sentinel _ _ Hg Hn) as (-> & -> & _). done.
Qed.

Lemma good_child s a n b :
  good K N0 au s -> valid K N0 a -> heap s !! a = Some n ->
  left n = Some b \/ right n = Some b -> b <> N0 ->
  exists nb, heap s !! b = Some nb /\ parent nb = Some a.
Proof.
  intros Hg Ha Hn Hch Hb. destruct Ha as [Ha| ->].
  - destruct Hg as (nc & t & H & Hk & HN & _).
    apply (real_addrs t) in Ha; [|done]. rewrite <- HN in Hb.
    by eapply Rep_child.
  - destruct (good_sentinel _ _ Hg Hn) as (? & ? & _).
    destruct Hch; congruence.
Qed.

Lemma good_has_parent s b :
  good K N0 au s -> real K b -> sdepth s b <> O -> has_parent s b.
Proof.
  intros Hg Hb Hd.
  destruct (good_lookup _ _ Hg (or_introl Hb)) as (n & Hn).
  destruct Hg as (nc & t & H & Hk & HN & _).
  apply (real_addrs t) in Hb; [|done]. rewrite (sdepth_Rep nc s t) in Hd by done.
  destruct (parent n) as [p|] eqn:Hp; [by exists n, p|].
  by apply (Rep_depth_zero _ _ _ _ _ H Hb Hn) in Hp.
Qed.

Lemma has_parent_depth s b :
  good K N0 au s -> valid K N0 b -> has_parent s b -> sdepth s b <> O.
Proof.
  intros Hg Hb (n & p & Hn & Hp).
  destruct (good_parent _ _ _ _ Hg Hb Hn Hp) as (_ & _ & ->). done.
Qed.

Lemma good_paint s a n k :
  good K N0 au s -> heap s !! a = Some n ->
  good K N0 au (store a (with_color k n) s) /\
  forall b, sdepth (store a (with_color k n) s) b = sdepth s b.
Proof.
  intros (nc & t & H & Hk & HN & Ha) Hn.
  pose proof (paint_Rep k _ _ _ _ _ H Hn) as H'. split.
  - eexists _, _. split; [exact H'|]. split; [by rewrite keys_paint|].
    split; [done|]. by rewrite aug_paint.
  - intros b. rewrite (sdepth_Rep _ _ _ _ H), (sdepth_Rep _ _ _ _ H').
    apply depth_paint.
Qed.

Lemma same_links_paint s a n k :
  heap s !! a = Some n -> same_links s (store a (with_color k n) s).
Proof.
  intros Hn. split; [done|]. intros b. destruct (decide (a = b)) as [->|Hne].
  - rewrite heap_store_eq by (by eexists).
    transitivity (links <$> Some n); [done|]. f_equal. symmetry. exact Hn.
  - f_equal. by apply heap_store_ne.
Qed.

Lemma good_left_rotate s a :
  good K N0 au s -> valid K N0 a ->
  exists s', _left_rotate a s = Ok (tt, s') /\ good K N0 au s' /\
    (forall b, real K b -> (sdepth s' b <= S (sdepth s b))%nat) /\
    (forall b, real K b -> sdepth s b <> O -> sdepth s' b = O ->
               exists n, heap s !! a = Some n /\ right n = Some b).
Proof.
  intros Hg [Ha| ->].
  - destruct Hg as (nc & t & H & Hk & HN & Hau).
    pose proof Ha as Ha'. apply (real_addrs t) in Ha'; [|done].
    destruct (Rep_node _ _ _ _ H Ha')
      as (c & l & v & r & n & -> & <- & Hn & _ & _ & Hr & _).
    destruct (left_rotate_at _ _ _ _ _ _ H) as (s' & Hs' & HN' & H').
    exists s'. split; [done|].
    assert (NoDup (addrs (plug c (T l v r)))) as Hnd by apply H.
    assert (NoDup (addrs (T l v r))) as Hnd0 by (by eapply NoDup_plug_inner).
    destruct (rot_plug_effect rot_left c (T l v r)) as (_ & Hk' & Hau' & Hd & Hz).
    { apply rot_left_keys. }
    { apply rot_left_aug. }
    { intros b Hb. by apply depth_rot_left. }
    { done. }
    split; [|split].
    + exists nc, (plug c (rot_left (T l v r))).
      split; [done|]. split; [congruence|]. split; [congruence|]. auto.
    + intros b Hb. rewrite (sdepth_Rep _ _ _ _ H), (sdepth_Rep _ _ _ _ H').
      apply Hd. by apply real_addrs.
    + intros b Hb. rewrite (sdepth_Rep _ _ _ _ H), (sdepth_Rep _ _ _ _ H').
      intros Hne H0. apply (real_addrs _ _ Hk) in Hb.
      destruct (Hz b Hb H0 Hne) as (-> & Hin & H0' & Hne').
      destruct (depth_rot_left _ _ Hnd0 Hin) as (_ & Hp).
      destruct (Hp H0' Hne') as (l0 & x0 & rl & y & rr & [= -> -> ->] & ->).
      exists n. split; [done|exact Hr].
  - pose proof Hg as (nc & t & H & Hk & HN & _).
    exists s. split; [rewrite <- HN; by eapply rotate_sentinel|]. split; [done|].
    split; [intros; lia|]. intros; done.
Qed.

Lemma good_right_rotate s a :
  good K N0 au s -> valid K N0 a ->
  exists s', _right_rotate a s = Ok (tt, s') /\ good K N0 au s' /\
    (forall b, real K b -> (sdepth s' b <= S (sdepth s b))%nat) /\
    (forall b, real K b -> sdepth s b <> O -> sdepth s' b = O ->
               exists n, heap s !! a = Some n /\ left n = Some b).
Proof.
  intros Hg [Ha| ->].
  - destruct Hg as (nc & t & H & Hk & HN & Hau).
    pose proof Ha as Ha'. apply (real_addrs t) in Ha'; [|done].
    destruct (Rep_node _ _ _ _ H Ha')
      as (c & l & v & r & n & -> & <- & Hn & _ & Hl & _ & _).
    destruct (right_rotate_at _ _ _ _ _ _ H) as (s' & Hs' & HN' & H').
    exists s'. split; [done|].
    assert (NoDup (addrs (plug c (T l v r)))) as Hnd by apply H.
    assert (NoDup (addrs (T l v r))) as Hnd0 by (by eapply NoDup_plug_inner).
    destruct (rot_plug_effect rot_right c (T l v r)) as (_ & Hk' & Hau' & Hd & Hz).
    { apply rot_right_keys. }
    { apply rot_right_aug. }
    { intros b Hb. by apply depth_rot_right. }
    { done. }
    split; [|split].
    + exists nc, (plug c (rot_right (T l v r))).
      split; [done|]. split; [congruence|]. split; [congruence|]. auto.
    + intros b Hb. rewrite (sdepth_Rep _ _ _ _ H), (sdepth_Rep _ _ _ _ H').
      apply Hd. by apply real_addrs.
    + intros b Hb. rewrite (sdepth_Rep _ _ _ _ H), (sdepth_Rep _ _ _ _ H').
      intros Hne H0. apply (real_addrs _ _ Hk) in Hb.
      destruct (Hz b Hb H0 Hne) as (-> & Hin & H0' & Hne').
      destruct (depth_rot_right _ _ Hnd0 Hin) as (_ & Hp).
      destruct (Hp H0' Hne') as (ll & y & lr & x0 & r0 & [= -> -> ->] & ->).
      exists n. split; [done|exact Hl].
  - pose proof Hg as (nc & t & H & Hk & HN & _).
    exists s. split; [rewrite <- HN; by eapply rotate_sentinel|]. split; [done|].
    split; [intros; lia|]. intros; done.
Qed.

End good_states.

(** * The steps of [_delete_fixup] on such states *)

Lemma wp_seq {A B} (m : M A) (k : A -> M B) R Q s :
  wp m R s -> (forall x s', R x s' -> wp (k x) Q s') -> wp (bind m k) Q s.
Proof. intros Hm Hk. apply wp_bind. eapply wp_mono; [exact Hm|exact Hk]. Qed.

Lemma same_links_lookup s s' a n :
  same_links s s' -> heap s' !! a = Some n ->
  exists m, heap s !! a = Some m /\ left m = left n /\ right m = right n /\
            parent m = parent n.
Proof.
  intros [_ H] Hn. specialize (H a). rewrite Hn in H. simpl in H.
  destruct (heap s !! a) as [m|]; [|done]. injection H as H1 H2 H3.
  exists m. done.
Qed.

Lemma same_links_lookup_r s s' a n :
  same_links s s' -> heap s !! a = Some n ->
  exists m, heap s' !! a = Some m /\ left m = left n /\ right m = right n /\
            parent m = parent n.
Proof.
  intros [_ H] Hn. specialize (H a). rewrite Hn in H. simpl in H.
  destruct (heap s' !! a) as [m|]; [|done]. injection H as H1 H2 H3.
  exists m. done.
Qed.

Lemma painted_refl s : painted s s.
Proof. by split; [split|]. Qed.

Lemma painted_trans s1 s2 s3 : painted s1 s2 -> painted s2 s3 -> painted s1 s3.
Proof.
  intros [[HN1 H1] D1] [[HN2 H2] D2]. split; [split|].
  - congruence.
  - intros a. by rewrite H2, H1.
  - intros b. by rewrite D2, D1.
Qed.

Lemma painted_not_child s s' a b :
  painted s s' -> not_child s a b -> not_child s' a b.
Proof.
  intros [Hl _] H n Hn.
  destruct (same_links_lookup _ _ _ _ Hl Hn) as (m & Hm & <- & <- & _).
  by apply H.
Qed.

Lemma painted_has_parent s s' b :
  painted s s' -> has_parent s b -> has_parent s' b.
Proof.
  intros [Hl _] (n & p & Hn & Hp).
  destruct (same_links_lookup_r _ _ _ _ Hl Hn) as (m & Hm & _ & _ & Hpm).
  exists m, p. split; [done|congruence].
Qed.

Section steps.

Variables (K : list (addr * datetime * datetime)) (N0 : addr) (au : bool).

Lemma wp_read {A} (f : IntervalNode -> A) a Q s :
  good K N0 au s -> valid K N0 a ->
  (forall n, heap s !! a = Some n -> Q (f n) s) ->
  wp (get f a) Q s.
Proof.
  intros Hg Ha HQ. destruct (good_lookup _ _ _ _ _ Hg Ha) as (n & Hn).
  eapply wp_get; eauto.
Qed.

Lemma wp_paint k a Q s :
  good K N0 au s -> valid K N0 a ->
  (forall s', good K N0 au s' -> painted s s' -> Q tt s') ->
  wp (set (with_color k) a) Q s.
Proof.
  intros Hg Ha HQ. destruct (good_lookup _ _ _ _ _ Hg Ha) as (n & Hn).
  eapply wp_set; [exact Hn|].
  destruct (good_paint _ _ _ _ _ _ k Hg Hn) as [Hg' Hd].
  apply HQ; [done|]. split; [by apply same_links_paint|done].
Qed.

Lemma wp_paint_opt k o Q s :
  good K N0 au s -> ovalid K N0 o ->
  (forall s', good K N0 au s' -> painted s s' -> Q tt s') ->
  wp (match o with
      | Some c => set (with_color k) c
      | None => ret tt
      end) Q s.
Proof.
  intros Hg Ho HQ. destruct o as [c|].
  - by apply wp_paint.
  - apply wp_ret, HQ; [done|apply painted_refl].
Qed.

Lemma wp_none_or_black o Q s :
  good K N0 au s -> ovalid K N0 o -> (forall b, Q b s) ->
  wp (none_or_black o) Q s.
Proof.
  intros Hg Ho HQ. destruct o as [a|]; simpl.
  - apply wp_bind, wp_read; [done..|]. intros n _. apply wp_ret, HQ.
  - apply wp_ret, HQ.
Qed.

Lemma wp_color_is o k Q s :
  good K N0 au s -> ovalid K N0 o -> (forall b, Q b s) ->
  wp (color_is o k) Q s.
Proof.
  intros Hg Ho HQ. destruct o as [a|]; simpl.
  - apply wp_bind, wp_read; [done..|]. intros n _. apply wp_ret, HQ.
  - apply wp_ret, HQ.
Qed.

Lemma wp_rotate_left a Q s :
  good K N0 au s -> valid K N0 a ->
  (forall s', good K N0 au s' ->
     (forall b, real K b -> (sdepth s' b <= S (sdepth s b))%nat) ->
     (forall b, real K b -> has_parent s b ->
        (forall n, heap s !! a = Some n -> right n <> Some b) ->
        has_parent s' b) ->
     Q tt s') ->
  wp (_left_rotate a) Q s.
Proof.
  intros Hg Ha HQ.
  destruct (good_left_rotate _ _ _ _ _ Hg Ha) as (s' & Hs' & Hg' & Hd & Hz).
  exists tt, s'. split; [done|]. apply HQ; [done..|].
  intros b Hb Hp Hne. eapply good_has_parent; [exact Hg'|done|].
  intros H0. destruct (Hz b Hb) as (n & Hn & Hr); [|done|].
  - eapply has_parent_depth; eauto. by left.
  - by eapply Hne.
Qed.

Lemma wp_rotate_right a Q s :
  good K N0 au s -> valid K N0 a ->
  (forall s', good K N0 au s' ->
     (forall b, real K b -> (sdepth s' b <= S (sdepth s b))%nat) ->
     (forall b, real K b -> has_parent s b ->
        (forall n, heap s !! a = Some n -> left n <> Some b) ->
        has_parent s' b) ->
     Q tt s') ->
  wp (_right_rotate a) Q s.
Proof.
  intros Hg Ha HQ.
  destruct (good_right_rotate _ _ _ _ _ Hg Ha) as (s' & Hs' & Hg' & Hd & Hz).
  exists tt, s'. split; [done|]. apply HQ; [done..|].
  intros b Hb Hp Hne. eapply good_has_parent; [exact Hg'|done|].
  intros H0. destruct (Hz b Hb) as (n & Hn & Hr); [|done|].
  - eapply has_parent_depth; eauto. by left.
  - by eapply Hne.
Qed.

(** A node is not a child of its sibling. *)
Lemma wp_sibling new Q s :
  good K N0 au s -> valid K N0 new ->
  (forall r,
     match r with
     | None => ~ has_parent s new
     | Some sb => valid K N0 sb /\ not_child s sb new
     end -> Q r s) ->
  wp (sibling new) Q s.
Proof.
  intros Hg Hnew HQ. unfold sibling.
  apply wp_bind, wp_read; [done..|]. intros n Hn.
  destruct (parent n) as [p|] eqn:Hp.
  2:{ apply wp_ret, HQ. intros (n' & p' & Hn' & Hp'). congruence. }
  destruct (good_parent _ _ _ _ _ _ _ Hg Hnew Hn Hp) as (Hrn & Hrp & Hd).
  apply wp_bind, wp_read; [done|by left|]. intros np Hnp.
  destruct (good_children _ _ _ _ _ _ Hg Hrp Hnp) as (x & y & Hl & Hr & Hx & Hy).
  assert (new <> N0) as HnewN by (by eapply real_not_sentinel).
  assert (p <> N0) as HpN by (by eapply real_not_sentinel).
  assert (forall sb, left np = Some sb \/ right np = Some sb ->
                     not_child s sb new) as Hnc.
  { intros sb Hsb m Hm.
    assert (valid K N0 sb) as Hvs by (destruct Hsb; congruence).
    assert (left m = Some new \/ right m = Some new -> False) as Hno.
    { intros Hch.
      destruct (good_child _ _ _ _ _ _ _ Hg Hvs Hm Hch HnewN) as (n' & Hn' & Hp').
      assert (sb = p) as -> by congruence.
      destruct (good_child _ _ _ _ _ _ _ Hg (or_introl Hrp) Hnp Hsb HpN)
        as (np' & Hnp' & Hpp).
      destruct (good_parent _ _ _ _ _ _ _ Hg (or_introl Hrp) Hnp' Hpp)
        as (_ & _ & Habs). lia. }
    split; intros ?; apply Hno; auto. }
  rewrite Hl. destruct (is_obj (Some x) new).
  - eapply wp_get; [exact Hnp|]. rewrite Hr. apply HQ. split; [done|].
    apply Hnc. by right.
  - apply wp_ret, HQ. split; [done|]. apply Hnc. by left.
Qed.

Lemma wp_grandparent new Q s :
  good K N0 au s -> valid K N0 new ->
  (forall g,
     (forall g', g = Some g' ->
                 real K g' /\ sdepth s new = S (S (sdepth s g'))) ->
     Q g s) ->
  wp (grandparent new) Q s.
Proof.
  intros Hg Hnew HQ. unfold grandparent.
  apply wp_bind, wp_read; [done..|]. intros n Hn.
  destruct (parent n) as [p|] eqn:Hp.
  2:{ apply wp_ret, HQ; done. }
  destruct (good_parent _ _ _ _ _ _ _ Hg Hnew Hn Hp) as (Hrn & Hrp & Hd).
  apply wp_read; [done|by left|]. intros np Hnp. apply HQ.
  intros g' Hg'.
  destruct (good_parent _ _ _ _ _ _ _ Hg (or_introl Hrp) Hnp Hg')
    as (_ & ? & Hd').
  split; [done|lia].
Qed.

Lemma wp_budget Q s : Q (S (length (heap s))) s -> wp budget Q s.
Proof. intros H. by eexists _, _. Qed.

End steps.

(** * [_delete_fixup] *)

Section delete_fixup.

Variables (K : list (addr * datetime * datetime)) (N0 : addr) (au : bool).

(** The first branch of the loop body is never taken: a node is not the
    left child of its grandparent. *)
Lemma not_left_of_grandparent s new g' ng :
  good K N0 au s -> valid K N0 new -> has_parent s new ->
  real K g' -> sdepth s new = S (S (sdepth s g')) ->
  heap s !! g' = Some ng -> left ng <> Some new.
Proof.
  intros Hg Hnew (n & p & Hn & Hp) Hrg Hd Hng Hl.
  destruct (good_parent _ _ _ _ _ _ _ Hg Hnew Hn Hp) as (Hrn & _ & Hd').
  destruct (good_child _ _ _ _ _ _ _ Hg (or_introl Hrg) Hng (or_introl Hl))
    as (n' & Hn' & Hp').
  { by eapply real_not_sentinel. }
  assert (p = g') as -> by congruence. lia.
Qed.

Lemma delete_fixup_body_wp new s :
  good K N0 au s -> valid K N0 new -> has_parent s new ->
  wp (_delete_fixup_body new) (delete_turn_post K N0 au s new) s.
Proof.
  intros Hg Hnew Hpar. unfold _delete_fixup_body.
  assert (real K new) as Hrnew.
  { destruct Hpar as (n & p & Hn & Hp).
    by destruct (good_parent _ _ _ _ _ _ _ Hg Hnew Hn Hp). }
  eapply (wp_seq _ _ (fun g s' =>
    s' = s /\ forall g', g = Some g' ->
                real K g' /\ sdepth s new = S (S (sdepth s g')))).
  { apply (wp_grandparent K N0 au); [done..|]. auto. }
  intros g ? (-> & Hdg).
  assert (ovalid K N0 g) as Hvg.
  { destruct g as [g'|]; [|done]. left. by apply Hdg. }
  eapply (wp_seq _ _ (fun b s' =>
    s' = s /\ b = false /\
    forall g' ng, g = Some g' -> heap s !! g' = Some ng -> left ng <> Some new)).
  { destruct g as [g'|].
    - destruct (Hdg g' eq_refl) as [Hrg Hd].
      apply wp_bind, (wp_read K N0 au); [done..|]. intros ng Hng. apply wp_ret.
      assert (left ng <> Some new) as Hne
        by (by eapply not_left_of_grandparent).
      split; [done|]. split.
      + destruct (left ng) as [x|]; simpl; [|done].
        apply eqb_addr_false. congruence.
      + intros ? ng' [= <-] Hng'. congruence.
    - apply wp_ret. done. }
  intros ? ? (-> & -> & Hgl). cbv iota.
  eapply (wp_seq _ _ (fun r s' =>
    s' = s /\ exists sb, r = Some sb /\ valid K N0 sb /\ not_child s sb new)).
  { apply (wp_sibling K N0 au); [done..|]. intros [sb|] H; [|done].
    split; [done|]. by exists sb. }
  intros ? ? (-> & sb & -> & Hvsb & Hncs).
  eapply (wp_seq _ _ (fun _ s' => s' = s)).
  { apply (wp_color_is K N0 au); done. }
  intros sred ? ->.
  eapply (wp_seq _ _ (fun go s1 =>
    good K N0 au s1 /\
    (forall b, real K b -> (sdepth s1 b <= S (sdepth s b))%nat) /\
    match go with
    | None => True
    | Some r => exists sb1, r = Some sb1 /\ valid K N0 sb1 /\
                            has_parent s1 new /\ not_child s1 sb1 new
    end)).
  { destruct sred.
    - simpl deref. apply wp_bind, (wp_paint K N0 au); [done..|]. intros sa Hga Hpa.
      destruct g as [g'|].
      + destruct (Hdg g' eq_refl) as [Hrg Hd].
        apply wp_bind, (wp_paint K N0 au); [done|by left|]. intros sb' Hgb Hpb.
        pose proof (painted_trans _ _ _ Hpa Hpb) as Hpab.
        apply wp_bind, (wp_rotate_right K N0 au); [done|by left|]. intros sc Hgc Hdc Hpc.
        assert (has_parent sc new) as Hparc.
        { apply Hpc; [done|by eapply painted_has_parent|].
          intros n Hn Hl.
          destruct (same_links_lookup _ _ _ _ (proj1 Hpab) Hn)
            as (m & Hm & Hlm & _).
          eapply Hgl; [done|exact Hm|congruence]. }
        apply wp_bind, (wp_sibling K N0 au); [done..|]. intros [sb1|] H; [|done].
        apply wp_ret. split; [done|]. split.
        * intros b Hb. rewrite <- (proj2 Hpab b). by apply Hdc.
        * exists sb1. tauto.
      + apply wp_ret. split; [done|]. split; [|done].
        intros b _. rewrite (proj2 Hpa b). lia.
    - apply wp_ret. split; [done|]. split; [intros; lia|].
      exists sb. done. }
  intros go s1 (Hg1 & Hd1 & Hgo).
  destruct go as [r|]; [|apply wp_ret; split; done].
  destruct Hgo as (sb1 & -> & Hvsb1 & Hpar1 & Hnc1).
  eapply (wp_seq _ _ (fun _ s' => s' = s1)).
  { apply wp_bind, (wp_read K N0 au); [done..|]. intros nsb Hnsb.
    destruct (good_links _ _ _ _ _ _ Hg1 Hvsb1 Hnsb) as (Hol & Hor & _).
    apply wp_bind, (wp_none_or_black K N0 au); [done..|]. intros lb.
    apply wp_bind. eapply wp_get; [exact Hnsb|].
    apply wp_bind, (wp_none_or_black K N0 au); [done..|]. intros rb. by apply wp_ret. }
  intros both ? ->. destruct both.
  { simpl deref. apply wp_bind, (wp_paint K N0 au); [done..|]. intros s2 Hg2 Hp2.
    destruct g as [g'|]; apply wp_ret; (split; [done|]); [|done].
    destruct (Hdg g' eq_refl) as [Hrg Hd].
    split; [by left|]. rewrite (proj2 Hp2). specialize (Hd1 g' Hrg). lia. }
  eapply (wp_seq _ _ (fun _ s' => s' = s1)).
  { apply wp_bind, (wp_read K N0 au); [done..|]. intros nsb Hnsb.
    destruct (good_links _ _ _ _ _ _ Hg1 Hvsb1 Hnsb) as (Hol & Hor & _).
    apply (wp_none_or_black K N0 au); done. }
  intros near ? ->.
  eapply (wp_seq _ _ (fun r s3 =>
    good K N0 au s3 /\ has_parent s3 new /\ ovalid K N0 r)).
  { destruct near.
    - simpl deref. apply wp_bind, (wp_read K N0 au); [done..|]. intros nsb Hnsb.
      destruct (good_links _ _ _ _ _ _ Hg1 Hvsb1 Hnsb) as (Hol & Hor & _).
      apply wp_bind, (wp_paint_opt K N0 au); [done..|]. intros sd Hgd Hpd.
      apply wp_bind, (wp_paint K N0 au); [done..|]. intros se Hge Hpe.
      pose proof (painted_trans _ _ _ Hpd Hpe) as Hpde.
      apply wp_bind, (wp_rotate_left K N0 au); [done..|]. intros sf Hgf _ Hpf.
      assert (has_parent sf new) as Hparf.
      { apply Hpf; [done|by eapply painted_has_parent|].
        intros n Hn. by apply (painted_not_child _ _ _ _ Hpde Hnc1). }
      apply (wp_sibling K N0 au); [done..|].
      intros [x|] Hx; (split; [done|]); (split; [done|]); [apply Hx|done].
    - apply wp_ret. split; [done|]. split; [done|]. exact Hvsb1. }
  intros r s3 (Hg3 & (n3 & p3 & Hn3 & Hp3) & Hvr).
  destruct (good_parent _ _ _ _ _ _ _ Hg3 Hnew Hn3 Hp3) as (_ & Hrp3 & _).
  apply wp_bind. eapply wp_get; [exact Hn3|]. rewrite Hp3.
  eapply (wp_seq _ _ (fun _ s4 => good K N0 au s4)).
  { destruct r as [x|]; [|by apply wp_ret]. simpl deref.
    apply wp_bind, (wp_read K N0 au); [done|by left|]. intros ? _.
    apply (wp_paint K N0 au); [done..|]. auto. }
  intros _ s4 Hg4. simpl deref.
  apply wp_bind, (wp_paint K N0 au); [done|by left|]. intros s5 Hg5 _.
  eapply (wp_seq _ _ (fun _ s6 => good K N0 au s6)).
  { destruct r as [x|]; [|by apply wp_ret].
    apply wp_bind, (wp_read K N0 au); [done..|]. intros nx Hnx.
    destruct (good_links _ _ _ _ _ _ Hg5 Hvr Hnx) as (Hol & _).
    apply (wp_paint_opt K N0 au); [done..|]. auto. }
  intros _ s6 Hg6.
  eapply (wp_seq _ _ (fun _ s7 => good K N0 au s7)).
  { destruct g as [g'|]; [|by apply wp_ret].
    apply (wp_rotate_right K N0 au); [done..|]. auto. }
  intros _ s7 Hg7. apply wp_ret. split; done.
Qed.

Lemma delete_fixup_loop_wp fuel :
  forall new s,
    good K N0 au s -> valid K N0 new -> (sdepth s new < fuel)%nat ->
    wp (_delete_fixup_loop fuel new)
       (fun last s' => good K N0 au s' /\ valid K N0 last) s.
Proof.
  induction fuel as [|fuel IH]; intros new s Hg Hnew Hd; [lia|].
  cbn [_delete_fixup_loop].
  apply wp_bind, (wp_read K N0 au); [done..|]. intros n Hn.
  apply wp_bind. eapply wp_get; [exact Hn|].
  destruct (parent n) as [p|] eqn:Hp; [|by apply wp_ret].
  destruct (NodeColor_eqb (color n) BLACK); [|by apply wp_ret].
  cbn [is_None negb andb].
  eapply wp_seq.
  { apply delete_fixup_body_wp; [done..|]. by exists n, p. }
  intros [g|b] s' [Hg' Hpost].
  - apply IH; [done|tauto|lia].
  - by apply wp_ret.
Qed.

Lemma delete_wp a s :
  good K N0 au s -> valid K N0 a ->
  wp (delete a) (fun _ s' => good K N0 au s') s.
Proof.
  intros Hg Ha. unfold delete, _delete_fixup.
  apply wp_bind, wp_budget.
  eapply wp_seq.
  { apply delete_fixup_loop_wp; [done..|].
    destruct Hg as (nc & t & H & _). rewrite (sdepth_Rep _ _ _ _ H).
    pose proof (Rep_size _ _ _ H). pose proof (depth_le_size a t). lia. }
  intros last s' [Hg' Hl]. apply (wp_paint K N0 au); [done..|]. auto.
Qed.

End delete_fixup.

(** [delete] returns; it keeps the nodes, their in-order and the
    augmentation, and the state holds a tree again. *)
Theorem delete_spec nc s t a :
  Rep nc s t -> a ∈ addrs t \/ a = NIL_LEAF s ->
  exists s' nc' t',
    delete a s = Ok (tt, s') /\ NIL_LEAF s' = NIL_LEAF s /\
    Rep nc' s' t' /\ keys t' = keys t /\ (aug t = true -> aug t' = true).
Proof.
  intros H Ha.
  destruct (delete_wp (keys t) (NIL_LEAF s) (aug t) a s)
    as ([] & s' & Hs' & nc' & t' & H' & Hk & HN & Hau).
  - exists nc, t. done.
  - destruct Ha as [Ha|Ha]; [left|by right]. unfold real. by rewrite <- keys_addrs.
  - exists s', nc', t'. done.
Qed.

(** * Sequences of calls *)

Lemma ordered_E : ordered E.
Proof. constructor. Qed.

Lemma rb_valid_E : rb_valid E.
Proof. split; [done|]. split; [done|]. by exists O. Qed.

Lemma ins_addrs nc t x nc' t' :
  ins nc t x = Some (nc', t') -> addrs t' ≡ₚ i_addr x :: addrs t.
Proof.
  intros (c & _ & Hk & Hk')%ins_keys. rewrite !keys_addrs, Hk, Hk'.
  rewrite !fmap_app, fmap_cons. simpl. by rewrite <- Permutation_middle.
Qed.

Theorem insert_all_spec l :
  Forall valid_interval l ->
  forall nc s t, Rep nc s t ->
  exists s' nc' t',
    insert_all l s = Ok (tt, s') /\ NIL_LEAF s' = NIL_LEAF s /\ Rep nc' s' t' /\
    (aug t = true -> aug t' = true) /\ (ordered t -> ordered t') /\
    (nc = BLACK -> rb_valid t -> nc' = BLACK /\ rb_valid t').
Proof.
  induction 1 as [|[[st en] d] l Hv Hl IH]; intros nc s t H.
  - exists s, nc, t. simpl. done.
  - destruct (insert_interval_spec _ _ _ st en d H Hv)
      as (s1 & nc1 & t1 & Hs1 & Hins & HN1 & H1).
    destruct (IH _ _ _ H1) as (s' & nc' & t' & Hs' & HN' & H' & Ha & Ho & Hrb).
    exists s', nc', t'. split; [|split; [congruence|split; [done|]]].
    { cbn [insert_all]. by rewrite (bind_Ok _ _ _ _ _ Hs1). }
    split; [|split].
    + intros Hau. eapply Ha, ins_aug; eauto.
    + intros Hor. eapply Ho, ins_ordered; eauto.
    + intros -> Hv'. destruct (ins_rb _ _ _ _ Hv' Hins) as [-> ?]. by apply Hrb.
Qed.

(** Any sequence of insertions into a new tree. *)
Theorem run_insert_all l :
  Forall valid_interval l ->
  exists s t,
    run (insert_all l) = Ok (tt, s) /\ Rep BLACK s t /\
    aug t = true /\ ordered t /\ rb_valid t.
Proof.
  intros Hl. destruct (init_spec []) as (s0 & Hs0 & H0 & _).
  destruct (insert_all_spec l Hl _ _ _ H0)
    as (s & nc & t & Hs & _ & H & Ha & Ho & Hrb).
  destruct (Hrb eq_refl rb_valid_E) as [-> Hv].
  exists s, t. unfold run. rewrite Hs0. split; [done|]. split; [done|].
  split; [by apply Ha|]. split; [apply Ho, ordered_E|done].
Qed.

Theorem client_spec cs :
  Forall call_ok cs ->
  forall nodes nc s t, Rep nc s t -> nodes ≡ₚ addrs t ->
  exists nodes' s' nc' t',
    client cs nodes s = Ok (nodes', s') /\ NIL_LEAF s' = NIL_LEAF s /\
    Rep nc' s' t' /\ nodes' ≡ₚ addrs t' /\
    (aug t = true -> aug t' = true) /\ (ordered t -> ordered t').
Proof.
  induction 1 as [|[st en d|i|st en] cs Hc Hcs IH]; intros nodes nc s t H Hn.
  - exists nodes, s, nc, t. simpl. done.
  - destruct (insert_interval_spec _ _ _ st en d H Hc)
      as (s1 & nc1 & t1 & Hs1 & Hins & HN1 & H1).
    destruct (IH (nodes ++ [length (heap s)]) _ _ _ H1)
      as (nodes' & s' & nc' & t' & Hs' & HN' & H' & Hn' & Ha & Ho).
    { rewrite (ins_addrs _ _ _ _ _ Hins). simpl.
      by rewrite <- Hn, Permutation_app_comm. }
    exists nodes', s', nc', t'. split; [|split; [congruence|split; [done|]]].
    { cbn [client]. by rewrite (bind_Ok _ _ _ _ _ Hs1). }
    split; [done|]. split.
    + intros Hau. eapply Ha, ins_aug; eauto.
    + intros Hor. eapply Ho, ins_ordered; eauto.
  - cbn [client]. destruct (nodes !! i) as [a|] eqn:Hi; [|by eapply IH].
    assert (a ∈ addrs t) as Ha.
    { rewrite <- Hn. by eapply list_elem_of_lookup_2. }
    destruct (delete_spec _ _ _ _ H (or_introl Ha))
      as (s1 & nc1 & t1 & Hs1 & HN1 & H1 & Hk & Hau).
    destruct (IH nodes _ _ _ H1)
      as (nodes' & s' & nc' & t' & Hs' & HN' & H' & Hn' & Ha' & Ho).
    { by rewrite (keys_addrs t1), Hk, <- keys_addrs. }
    exists nodes', s', nc', t'. split; [|split; [congruence|split; [done|]]].
    { by rewrite (bind_Ok _ _ _ _ _ Hs1). }
    split; [done|]. split; [auto|].
    intros Hor. apply Ho. unfold ordered. by rewrite Hk.
  - cbn [client]. rewrite (bind_Ok _ _ _ _ _ (find_conflict_spec _ _ _ st en H)).
    by eapply IH.
Qed.

(** Any client program on a new tree. *)
Theorem run_client cs :
  Forall call_ok cs ->
  exists nodes s nc t,
    run (client cs []) = Ok (nodes, s) /\ Rep nc s t /\ nodes ≡ₚ addrs t /\
    aug t = true /\ ordered t.
Proof.
  intros Hcs. destruct (init_spec []) as (s0 & Hs0 & H0 & _).
  destruct (client_spec cs Hcs [] _ _ _ H0)
    as (nodes & s & nc & t & Hs & _ & H & Hn & Ha & Ho); [done|].
  exists nodes, s, nc, t. unfold run. rewrite Hs0. split; [done|]. split; [done|].
  split; [done|]. split; [by apply Ha|apply Ho, ordered_E].
Qed.

(** * When the search is complete *)

(** In an augmented tree [max_end] bounds every end of the subtree, and
    some node of the subtree has it as its end. *)
Lemma aug_bound t v :
  aug t = true -> v ∈ elements t -> i_end v <= max_of t.
Proof.
  induction t as [|l IHl x r IHr]; simpl; [set_solver|].
  intros [[Hm%N.eqb_eq Hl]%andb_true_iff Hr]%andb_true_iff.
  rewrite elem_of_app, elem_of_cons. intros [Hv|[->|Hv]].
  - specialize (IHl Hl Hv). lia.
  - lia.
  - specialize (IHr Hr Hv). lia.
Qed.

Lemma aug_attained t :
  aug t = true -> t <> E -> exists v, v ∈ elements t /\ i_end v = max_of t.
Proof.
  induction t as [|l IHl x r IHr]; [done|]. cbn [aug elements max_of].
  intros [[Hm%N.eqb_eq Hl]%andb_true_iff Hr]%andb_true_iff _.
  destruct (decide (i_max x = i_end x)) as [He|He].
  { exists x. split; [set_solver|done]. }
  destruct (decide (i_max x = max_of l)) as [Hml|Hml].
  { destruct IHl as (v & Hv & Hve); [done| |].
    - intros ->. simpl in *. unfold datetime_min in *. lia.
    - exists v. split; [set_solver|congruence]. }
  destruct IHr as (v & Hv & Hve); [done| |].
  - intros ->. simpl in *. unfold datetime_min in *. lia.
  - exists v. split; [set_solver|lia].
Qed.

(** The search finds an overlap when there is one, as long as no stored
    interval ends at the start of the query. *)
Lemma search_complete st en t :
  aug t = true -> bst_weak t = true ->
  (forall v, v ∈ elements t -> i_end v <> st) ->
  (exists v, v ∈ elements t /\ overlaps st en v) ->
  exists w, search st en t = Some w.
Proof.
  induction t as [|l IHl x r IHr]; [set_solver|].
  cbn [aug bst_weak search elements].
  intros [[Hm%N.eqb_eq Hal]%andb_true_iff Har]%andb_true_iff.
  intros [[[Hbl Hbr]%andb_true_iff Hol]%andb_true_iff Hor]%andb_true_iff.
  intros Hne (v & Hv & Hv1 & Hv2).
  rewrite forallb_forall in Hbl, Hbr.
  destruct ((i_start x <? en) && (st <? i_end x)) eqn:Hx; [by eexists|].
  assert (v ∈ elements l \/ v ∈ elements r) as Hlr.
  { rewrite elem_of_app, elem_of_cons in Hv.
    destruct Hv as [?|[->|?]]; [by left| |by right].
    apply andb_false_iff in Hx as [?%N.ltb_ge|?%N.ltb_ge]; lia. }
  assert (forall u, u ∈ elements l -> i_end u <> st) as Hnl by set_solver.
  assert (forall u, u ∈ elements r -> i_end u <> st) as Hnr by set_solver.
  destruct l as [|ll lx lr].
  { apply IHr; [done..|].
    destruct Hlr as [Hl|?]; [by apply elem_of_nil in Hl|by exists v]. }
  destruct (st <=? i_max lx) eqn:Hgo.
  - apply N.leb_le in Hgo. apply IHl; [done..|].
    destruct Hlr as [?|Hr]; [by exists v|].
    destruct (aug_attained (T ll lx lr) Hal) as (u & Hu & Hue); [done|].
    exists u. split; [done|]. simpl in Hue.
    pose proof (Hnl u Hu).
    apply list_elem_of_In, Hbl, N.leb_le in Hu.
    apply list_elem_of_In, Hbr, N.leb_le in Hr.
    split; lia.
  - apply N.leb_gt in Hgo. apply IHr; [done..|].
    destruct Hlr as [Hl|?]; [|by exists v].
    pose proof (aug_bound _ _ Hal Hl) as Hb. simpl in Hb. lia.
Qed.

(** * The height of a red-black tree *)

Lemma rb_height t n :
  no_red_red t = true -> black_height t = Some n ->
  (2 ^ n <= size t + 1 /\
   height t <= 2 * n + match color_of t with RED => 1 | BLACK => 0 end)%nat.
Proof.
  revert n. induction t as [|l IHl x r IHr]; intros n.
  - simpl. intros _ [= <-]. simpl. lia.
  - intros (Hc & Hl & Hr)%nrr_T (m & Hbl & Hbr & ->)%bh_T.
    destruct (IHl _ Hl Hbl) as [? ?], (IHr _ Hr Hbr) as [? ?].
    revert Hc. cbn [size height color_of]. destruct (i_color x).
    + intros [Hcl Hcr]; [done|]. rewrite Hcl, Hcr in *. lia.
    + intros _. rewrite Nat.pow_succ_r'.
      destruct (color_of l), (color_of r); lia.
Qed.

Lemma rb_valid_height t :
  rb_valid t -> (height t <= 2 * Nat.log2 (S (size t)))%nat.
Proof.
  intros (Hc & Hn & n & Hb). destruct (rb_height t n Hn Hb) as [Hs Hh].
  rewrite Hc in Hh.
  assert (n <= Nat.log2 (S (size t)))%nat; [|lia].
  apply Nat.log2_le_pow2; lia.
Qed.

(** * What no method writes *)

Lemma same_payload_trans s1 s2 s3 :
  same_payload s1 s2 -> same_payload s2 s3 -> same_payload s1 s3.
Proof. unfold same_payload. congruence. Qed.

Lemma safe_ret {A} (x : A) : safe (ret x).
Proof. intros s y s' [= _ <-]. done. Qed.

Lemma safe_raise {A} e : safe (@raise A e).
Proof. intros s y s' [=]. Qed.

Lemma safe_bind {A B} (m : M A) (k : A -> M B) :
  safe m -> (forall x, safe (k x)) -> safe (bind m k).
Proof.
  intros Hm Hk s y s'. unfold bind.
  destruct (m s) as [[x s1]|e] eqn:E; [|done].
  intros Hy. eapply same_payload_trans; [by eapply Hm|by eapply Hk].
Qed.

Lemma safe_get {A} (f : IntervalNode -> A) a : safe (get f a).
Proof.
  intros s y s'. unfold get, bind, get_node, ret.
  destruct (_ !! _); [|done]. intros [= _ <-]. done.
Qed.

Lemma safe_set upd a :
  (forall n, payload (upd n) = payload n) -> safe (set upd a).
Proof.
  intros Hu s y s'. unfold set, bind, get_node, put_node.
  destruct (_ !! _) as [n|] eqn:E; [|done]. rewrite E.
  intros [= _ <-]. unfold same_payload. simpl.
  rewrite list_fmap_insert, Hu. apply list_insert_id.
  rewrite list_lookup_fmap.
  transitivity (payload <$> Some n); [f_equal; exact E|done].
Qed.

Lemma safe_get_root : safe get_root.
Proof. intros s y s' [= _ <-]. done. Qed.

Lemma safe_set_root a : safe (set_root a).
Proof. intros s y s' [= _ <-]. done. Qed.

Lemma safe_get_NIL : safe get_NIL.
Proof. intros s y s' [= _ <-]. done. Qed.

Lemma safe_budget : safe budget.
Proof. intros s y s' [= _ <-]. done. Qed.

Lemma safe_deref {A} o (k : addr -> M A) :
  (forall a, safe (k a)) -> safe (deref o k).
Proof. intros Hk. destruct o; [apply Hk|apply safe_raise]. Qed.

Create HintDb safe discriminated.

Ltac safe_step :=
  first
    [ apply safe_ret | apply safe_raise | apply safe_get
    | apply safe_set; by intros []
    | apply safe_get_root | apply safe_set_root | apply safe_get_NIL
    | apply safe_budget
    | apply safe_bind; [|intros ?]
    | apply safe_deref; intros ?
    | solve [auto with safe]
    | match goal with
      | |- safe (match ?x with _ => _ end) => destruct x
      end ].

Ltac safe_tac := repeat safe_step.

Lemma safe_grandparent n : safe (grandparent n).
Proof. unfold grandparent. safe_tac. Qed.

Lemma safe_sibling n : safe (sibling n).
Proof. unfold sibling. safe_tac. Qed.

#[export] Hint Resolve safe_grandparent safe_sibling : safe.

Lemma safe_uncle n : safe (uncle n).
Proof. unfold uncle. safe_tac. Qed.

Lemma safe_child_max_end o : safe (child_max_end o).
Proof. unfold child_max_end. safe_tac. Qed.

#[export] Hint Resolve safe_uncle safe_child_max_end : safe.

Lemma safe_update_max_end o : safe (_update_max_end o).
Proof. unfold _update_max_end. safe_tac. Qed.

#[export] Hint Resolve safe_update_max_end : safe.

Lemma safe_update_max_end_up_to_root_loop fuel o :
  safe (_update_max_end_up_to_root_loop fuel o).
Proof. revert o. induction fuel as [|fuel IH]; intros o; simpl; safe_tac. Qed.

#[export] Hint Resolve safe_update_max_end_up_to_root_loop : safe.

Lemma safe_update_max_end_up_to_root a : safe (_update_max_end_up_to_root a).
Proof. unfold _update_max_end_up_to_root. safe_tac. Qed.

Lemma safe_left_rotate a : safe (_left_rotate a).
Proof. unfold _left_rotate. safe_tac. Qed.

Lemma safe_right_rotate a : safe (_right_rotate a).
Proof. unfold _right_rotate. safe_tac. Qed.

Lemma safe_color_is o c : safe (color_is o c).
Proof. unfold color_is. safe_tac. Qed.

Lemma safe_none_or_black o : safe (none_or_black o).
Proof. unfold none_or_black. safe_tac. Qed.

#[export] Hint Resolve safe_update_max_end_up_to_root safe_left_rotate
  safe_right_rotate safe_color_is safe_none_or_black : safe.

Lemma safe_insert_fixup_body a : safe (_insert_fixup_body a).
Proof. unfold _insert_fixup_body. safe_tac. Qed.

#[export] Hint Resolve safe_insert_fixup_body : safe.

Lemma safe_insert_fixup_loop fuel a : safe (_insert_fixup_loop fuel a).
Proof. revert a. induction fuel as [|fuel IH]; intros a; simpl; safe_tac. Qed.

#[export] Hint Resolve safe_insert_fixup_loop : safe.

Lemma safe_insert_fixup a : safe (_insert_fixup a).
Proof. unfold _insert_fixup. safe_tac. Qed.

Lemma safe_insert_descent fuel a p c : safe (insert_descent fuel a p c).
Proof.
  revert p c. induction fuel as [|fuel IH]; intros p c; simpl; safe_tac.
Qed.

#[export] Hint Resolve safe_insert_fixup safe_insert_descent : safe.

Lemma safe_insert a : safe (insert a).
Proof. unfold insert. safe_tac. Qed.

Lemma safe_delete_fixup_body a : safe (_delete_fixup_body a).
Proof. unfold _delete_fixup_body. safe_tac. Qed.

#[export] Hint Resolve safe_insert safe_delete_fixup_body : safe.

Lemma safe_delete_fixup_loop fuel a : safe (_delete_fixup_loop fuel a).
Proof. revert a. induction fuel as [|fuel IH]; intros a; simpl; safe_tac. Qed.

#[export] Hint Resolve safe_delete_fixup_loop : safe.

Lemma safe_delete a : safe (delete a).
Proof. unfold delete, _delete_fixup. safe_tac. Qed.

Lemma safe_find_conflict_loop fuel st en c :
  safe (find_conflict_loop fuel st en c).
Proof. revert c. induction fuel as [|fuel IH]; intros c; simpl; safe_tac. Qed.

#[export] Hint Resolve safe_delete safe_find_conflict_loop : safe.

Lemma safe_find_conflict st en : safe (find_conflict st en).
Proof. unfold find_conflict. safe_tac. Qed.

(** An insertion adds one object, with the interval and the payload of
    the call. *)
Lemma insert_interval_payload st en d s a s' :
  insert_interval st en d s = Ok (a, s') ->
  a = length (heap s) /\
  payload <$> heap s' = (payload <$> heap s) ++ [(st, en, d)].
Proof.
  unfold insert_interval, IntervalNode_init. simpl.
  destruct (en <=? st); [done|].
  destruct (insert _ _) as [[[] s1]|e] eqn:E; [|done].
  intros [= <- <-]. split; [done|].
  apply safe_insert in E. unfold same_payload in E. simpl in E.
  by rewrite E, fmap_app.
Qed.

Lemma client_payload cs :
  forall nodes s nodes' s',
    client cs nodes s = Ok (nodes', s') ->
    nodes' = nodes ++ seq (length (heap s)) (length (inserted cs)) /\
    payload <$> heap s' = (payload <$> heap s) ++ inserted cs.
Proof.
  induction cs as [|[st en d|i|st en] cs IH]; intros nodes s nodes' s';
    cbn [client inserted].
  - intros [= <- <-]. simpl. by rewrite !app_nil_r.
  - unfold bind. destruct (insert_interval _ _ _ _) as [[a s1]|e] eqn:E; [|done].
    apply insert_interval_payload in E as [-> E].
    intros [-> Hp]%IH. rewrite Hp, E, <- !app_assoc. split; [|done].
    f_equal. simpl. f_equal. f_equal.
    apply (f_equal length) in E.
    rewrite length_app, !length_fmap in E. simpl in E. lia.
  - destruct (nodes !! i) as [a|]; [|apply IH].
    unfold bind. destruct (delete a s) as [[[] s1]|e] eqn:E; [|done].
    apply safe_delete in E. intros [-> Hp]%IH. unfold same_payload in E.
    rewrite Hp, E. split; [|done].
    apply (f_equal length) in E. rewrite !length_fmap in E. by rewrite E.
  - unfold bind. destruct (find_conflict st en s) as [[o s1]|e] eqn:E; [|done].
    apply safe_find_conflict in E. intros [-> Hp]%IH. unfold same_payload in E.
    rewrite Hp, E. split; [|done].
    apply (f_equal length) in E. rewrite !length_fmap in E. by rewrite E.
Qed.

(** * The intervals a program stores *)

Lemma Rep_item nc s t v :
  Rep nc s t -> v ∈ elements t ->
  exists n, heap s !! i_addr v = Some n /\ v = item_of (i_addr v) n.
Proof.
  intros H Hv.
  assert (i_addr v ∈ addrs t) as Ha by (by apply list_elem_of_fmap_2).
  destruct (decompose _ _ Ha) as (c & l & w & r & -> & Hw).
  destruct (focus_get left _ _ _ _ _ _ H) as (n & _ & Hn & Hi & _).
  assert (w = v) as ->.
  { destruct H as (_ & _ & _ & Hnd).
    unfold addrs in Hnd. apply NoDup_fmap_1 in Hnd as Hnd'.
    assert (w ∈ elements (plug c (T l w r))) as Hin.
    { rewrite elements_plug. set_solver. }
    apply list_elem_of_lookup in Hin as [i Hi'], Hv as [j Hj].
    assert (i = j) as ->; [|congruence].
    eapply NoDup_lookup; [exact Hnd|..].
    - by rewrite list_lookup_fmap, Hi'.
    - rewrite list_lookup_fmap, Hj. simpl. by rewrite Hw. }
  exists n. by rewrite Hi.
Qed.

(** The tree a program leaves holds the intervals of its insertions, the
    deleted ones too. *)
Lemma client_stored cs :
  Forall call_ok cs ->
  exists nodes s nc t,
    run (client cs []) = Ok (nodes, s) /\ Rep nc s t /\
    aug t = true /\ ordered t /\
    (fun v => (i_start v, i_end v)) <$> elements t ≡ₚ
      (fun x => x.1) <$> inserted cs.
Proof.
  intros Hcs.
  destruct (run_client cs Hcs) as (nodes & s & nc & t & Hs & H & Hn & Ha & Ho).
  exists nodes, s, nc, t. do 4 (split; [done|]).
  assert (nodes = seq 1 (length (inserted cs)) /\
          payload <$> heap s =
            (datetime_min, datetime_min + timedelta 1, PNone) :: inserted cs)
    as [-> Hp].
  { revert Hs. unfold run. simpl. by intros ?%client_payload. }
  set (f := fun a : addr =>
              default (0, 0) ((fun x => x.1) <$> (payload <$> heap s) !! a)).
  assert ((fun v => (i_start v, i_end v)) <$> elements t = f <$> addrs t) as ->.
  { unfold addrs. rewrite <- list_fmap_compose.
    apply Forall_fmap_ext, Forall_forall. intros v Hv.
    destruct (Rep_item _ _ _ _ H Hv) as (n & Hn' & ->). simpl.
    unfold f. rewrite list_lookup_fmap.
    transitivity (default (0, 0) ((fun x => x.1) <$> (payload <$> Some n)));
      [done|]. do 3 f_equal. symmetry. exact Hn'. }
  rewrite <- Hn.
  assert (f <$> seq 1 (length (inserted cs)) = (fun x => x.1) <$> inserted cs)
    as ->; [|done].
  apply list_eq. intros i.
  rewrite !list_lookup_fmap. unfold f. rewrite Hp.
  destruct (decide (i < length (inserted cs))%nat) as [Hi|Hi].
  - rewrite lookup_seq_lt; [|done]. simpl.
    apply lookup_lt_is_Some_2 in Hi as [x Hi].
    by destruct (_ !! i).
  - rewrite lookup_seq_ge; [|by apply Nat.nlt_ge]. simpl.
    destruct (_ !! i) eqn:E; [|done]. by apply lookup_lt_Some in E.
Qed.

(** * The size and the height after insertions *)

Lemma ins_size nc t x nc' t' :
  ins nc t x = Some (nc', t') -> size t' = S (size t).
Proof.
  intros Hp%ins_addrs. apply Permutation_length in Hp.
  unfold addrs in Hp. simpl in Hp. rewrite !length_fmap in Hp.
  by rewrite !size_elements.
Qed.

Lemma insert_all_size l :
  Forall valid_interval l ->
  forall nc s t, Rep nc s t ->
  exists s' nc' t',
    insert_all l s = Ok (tt, s') /\ Rep nc' s' t' /\
    size t' = (size t + length l)%nat /\
    (nc = BLACK -> rb_valid t -> nc' = BLACK /\ rb_valid t').
Proof.
  induction 1 as [|[[st en] d] l Hv Hl IH]; intros nc s t H.
  - exists s, nc, t. simpl. split; [done|]. split; [done|]. split; [lia|done].
  - destruct (insert_interval_spec _ _ _ st en d H Hv)
      as (s1 & nc1 & t1 & Hs1 & Hins & HN1 & H1).
    destruct (IH _ _ _ H1) as (s' & nc' & t' & Hs' & H' & Hsz & Hrb).
    exists s', nc', t'. split; [|split; [done|split]].
    + cbn [insert_all]. by rewrite (bind_Ok _ _ _ _ _ Hs1).
    + rewrite Hsz, (ins_size _ _ _ _ _ Hins). simpl. lia.
    + intros -> Hv'. destruct (ins_rb _ _ _ _ Hv' Hins) as [-> ?]. by apply Hrb.
Qed.

(** The loop of [find_conflict] ends within one test more than the height
    of the tree. *)
Lemma find_conflict_steps nc s t st en fuel :
  Rep nc s t -> (height t < fuel)%nat ->
  find_conflict_loop fuel st en (Some (root s)) s =
    Ok (i_addr <$> search st en t, s).
Proof.
  intros H Hf. rewrite (proj1 (proj2 H)).
  by apply (find_conflict_loop_sim st en t nc s []).
Qed.

(** * Rotations back and forth *)

Lemma rot_right_left l x rl y rr :
  aug (T l x (T rl y rr)) = true ->
  rot_right (rot_left (T l x (T rl y rr))) = T l x (T rl y rr).
Proof.
  intros (Hx & _ & (Hy & _ & _)%aug_T)%aug_T.
  destruct x as [xa xs xe xm xc], y as [ya ys ye ym yc].
  unfold rot_left, rot_right, fresh_max, remax. simpl in *. subst xm ym.
  reflexivity.
Qed.

(** * The repair of the augmentation *)




(** * The traversals *)

Lemma get_node_Ok a s n : heap s !! a = Some n -> get_node a s = Ok (n, s).
Proof. unfold get_node. by intros ->. Qed.

Lemma focus_node nc s c l v r :
  Rep nc s (plug c (T l v r)) ->
  exists n, get_node (i_addr v) s = Ok (n, s) /\
            heap s !! i_addr v = Some n /\
            item_of (i_addr v) n = v /\ left n = Some (root_of s l) /\
            right n = Some (root_of s r).
Proof.
  intros (n & _ & Hn & Hv & Hl & Hr & _)%(focus_get left).
  exists n. split; [by apply get_node_Ok|done].
Qed.

Lemma records_app s l1 l2 : records s (l1 ++ l2) = records s l1 ++ records s l2.
Proof. apply omap_app. Qed.

Lemma records_cons s v l n :
  heap s !! i_addr v = Some n -> records s (v :: l) = n :: records s l.
Proof. unfold records. simpl. by intros ->. Qed.

(** In a state that holds a tree every node has its object, which
    carries what the tree says of the node. *)
Lemma records_Rep nc s t l :
  Rep nc s t -> l ⊆ elements t ->
  Forall2 (fun n v => heap s !! i_addr v = Some n /\ item_of (i_addr v) n = v)
    (records s l) l.
Proof.
  intros H. induction l as [|v l IH]; intros Hl; [constructor|].
  destruct (Rep_item _ _ _ v H) as (n & Hn & Hv); [set_solver|].
  rewrite (records_cons _ _ _ _ Hn). constructor; [|apply IH; set_solver].
  split; [done|by rewrite <- Hv].
Qed.

Lemma records_item nc s t l :
  Rep nc s t -> l ⊆ elements t ->
  (fun n => (start n, end_ n, max_end n, color n)) <$> records s l =
  (fun v => (i_start v, i_end v, i_max v, i_color v)) <$> l.
Proof.
  intros H Hl. pose proof (records_Rep _ _ _ _ H Hl) as HF. clear Hl.
  induction HF as [|n v ns l' [_ Hv] _ IH]; [done|].
  rewrite !fmap_cons. f_equal; [by rewrite <- Hv|]. apply IH.
Qed.

Lemma omap_lookup_seq {A} (l pre : list A) :
  omap (fun a => (pre ++ l) !! a) (seq (length pre) (length l)) = l.
Proof.
  revert pre. induction l as [|x l IH]; intros pre; [done|].
  csimpl. rewrite list_lookup_middle; [|done]. f_equal.
  specialize (IH (pre ++ [x])). rewrite length_app, <- app_assoc in IH.
  simpl in IH. by rewrite Nat.add_1_r in IH.
Qed.

(** The tree a program leaves holds the objects of its insertions, the
    deleted ones too, in the order of their start times. *)
Lemma client_records cs :
  Forall call_ok cs ->
  exists nodes s nc t,
    run (client cs []) = Ok (nodes, s) /\ Rep nc s t /\
    payload <$> records s (elements t) ≡ₚ inserted cs /\
    StronglySorted N.le (start <$> records s (elements t)).
Proof.
  intros Hcs.
  destruct (run_client cs Hcs) as (nodes & s & nc & t & Hs & H & Hn & Ha & Ho).
  exists nodes, s, nc, t. do 2 (split; [done|]). split.
  - assert (nodes = seq 1 (length (inserted cs)) /\
            payload <$> heap s =
              (datetime_min, datetime_min + timedelta 1, PNone) :: inserted cs)
      as [-> Hp].
    { revert Hs. unfold run. simpl. by intros ?%client_payload. }
    unfold records. rewrite list_fmap_omap.
    transitivity (omap (fun a => (payload <$> heap s) !! a) (addrs t)).
    { apply reflexive_eq, list_omap_ext. unfold addrs.
      apply Forall2_fmap_r, Forall_Forall2_diag, Forall_forall. intros v _.
      simpl. by rewrite list_lookup_fmap. }
    rewrite <- Hn, Hp.
    apply reflexive_eq.
    exact (omap_lookup_seq (inserted cs)
             [(datetime_min, datetime_min + timedelta 1, PNone)]).
  - assert (start <$> records s (elements t) = i_start <$> elements t) as ->.
    { pose proof (records_item _ _ _ _ H (reflexivity _)) as Hr.
      apply (f_equal (fmap (fun x => x.1.1.1))) in Hr.
      by rewrite <- !list_fmap_compose in Hr. }
    unfold ordered, keys in Ho.
    apply (StronglySorted_fmap (fun k => k.1.2) key_le N.le) in Ho; [|done].
    by rewrite <- list_fmap_compose in Ho.
Qed.

(** ** The levels of a forest *)

Lemma forest_level_cons j a F :
  forest_level j (a :: F) = at_depth j a ++ forest_level j F.
Proof. done. Qed.

Lemma forest_level_app j F G :
  forest_level j (F ++ G) = forest_level j F ++ forest_level j G.
Proof. unfold forest_level. by rewrite bind_app. Qed.

Lemma forest_level_nonempty j t : forest_level j (nonempty t) = at_depth j t.
Proof.
  destruct t; [by destruct j|]. unfold nonempty.
  by rewrite forest_level_cons, app_nil_r.
Qed.

Lemma forest_level_kids j F :
  forest_level j (F ≫= kids) = forest_level (S j) F.
Proof.
  induction F as [|a F IH]; [done|].
  rewrite bind_cons, forest_level_app, forest_level_cons, IH. f_equal.
  destruct a as [|l v r]; [done|]. unfold kids.
  by rewrite forest_level_app, !forest_level_nonempty.
Qed.

Lemma forest_height_app F G :
  forest_height (F ++ G) = Nat.max (forest_height F) (forest_height G).
Proof.
  unfold forest_height. induction F as [|a F IH]; [done|].
  change (foldr Nat.max O (height <$> (a :: F) ++ G))
    with (Nat.max (height a) (foldr Nat.max O (height <$> F ++ G))).
  change (foldr Nat.max O (height <$> a :: F))
    with (Nat.max (height a) (foldr Nat.max O (height <$> F))).
  rewrite IH. lia.
Qed.

Lemma forest_height_nonempty t : forest_height (nonempty t) = height t.
Proof. destruct t; [done|]. unfold nonempty, forest_height. simpl. lia. Qed.

Lemma forest_height_kids F :
  Forall (fun a => a <> E) F ->
  forest_height F =
    match F with [] => O | _ => S (forest_height (F ≫= kids)) end.
Proof.
  induction 1 as [|a F Ha HF IH]; [done|].
  rewrite bind_cons, forest_height_app.
  change (forest_height (a :: F)) with (Nat.max (height a) (forest_height F)).
  rewrite IH. destruct a as [|l v r]; [done|].
  unfold kids. rewrite forest_height_app, !forest_height_nonempty.
  simpl. destruct F; simpl; lia.
Qed.

Lemma size_kids l v r :
  sum_list_with size (kids (T l v r)) = (size l + size r)%nat.
Proof.
  unfold kids. rewrite sum_list_with_app.
  destruct l, r; simpl; lia.
Qed.

Lemma kids_subtree c l v r a :
  a ∈ kids (T l v r) -> a <> E /\ exists c', plug c' a = plug c (T l v r).
Proof.
  unfold kids. rewrite elem_of_app. intros [Ha|Ha].
  - destruct l; [by apply elem_of_nil in Ha|].
    apply list_elem_of_singleton in Ha as ->. split; [done|].
    by exists (InL v r :: c).
  - destruct r; [by apply elem_of_nil in Ha|].
    apply list_elem_of_singleton in Ha as ->. split; [done|].
    by exists (InR l v :: c).
Qed.

Lemma concat_nils {A} (f : nat -> list A) l :
  (forall i, f i = []) -> concat (f <$> l) = [].
Proof. intros Hf. induction l as [|x l IH]; simpl; [done|]. by rewrite Hf. Qed.

Lemma concat_app_perm {A} (f g : nat -> list A) l :
  concat ((fun i => f i ++ g i) <$> l) ≡ₚ concat (f <$> l) ++ concat (g <$> l).
Proof.
  induction l as [|x l IH]; simpl; [done|].
  rewrite IH, <- !app_assoc. apply Permutation_app_head.
  rewrite !app_assoc. apply Permutation_app_tail, Permutation_app_comm.
Qed.

Lemma at_depth_perm t h :
  (height t <= h)%nat ->
  concat ((fun i => at_depth i t) <$> seq 0 h) ≡ₚ elements t.
Proof.
  revert h. induction t as [|l IHl v r IHr]; intros h Hh.
  - rewrite concat_nils; [done|]. by intros [|i].
  - destruct h as [|h]; simpl in Hh; [lia|].
    cbn [seq fmap list_fmap concat at_depth elements].
    rewrite <- fmap_S_seq, <- list_fmap_compose.
    change ((fun i => at_depth i (T l v r)) ∘ S)
      with (fun i => at_depth i l ++ at_depth i r).
    rewrite concat_app_perm, IHl, IHr by lia. simpl.
    by rewrite Permutation_middle.
Qed.

(** Every node of a tree is on one of its levels, once. *)
Lemma levels_perm t : concat (levels t) ≡ₚ elements t.
Proof. by apply at_depth_perm. Qed.

(** ** Text *)

Lemma append_nil_r (a : string) : (a ++ "")%string = a.
Proof. induction a as [|x a IH]; simpl; [done|]. by rewrite IH. Qed.

Lemma append_assoc (a b c : string) :
  ((a ++ b) ++ c)%string = (a ++ (b ++ c))%string.
Proof. induction a as [|x a IH]; simpl; [done|]. by rewrite IH. Qed.

Lemma rows_text_app l1 l2 :
  rows_text (l1 ++ l2) = (rows_text l1 ++ rows_text l2)%string.
Proof.
  induction l1 as [|x l1 IH]; simpl; [done|].
  by rewrite IH, append_assoc.
Qed.

Section printing.

Variable py_str : pyval -> string.
Variable strftime : datetime -> string -> string.

Lemma repr_inorder_traversal_sim t :
  forall nc s c fuel result,
    Rep nc s (plug c t) -> (height t < fuel)%nat ->
    __repr_inorder_traversal py_str fuel (Some (root_of s t)) result s =
      Ok (result ++ (IntervalNode_repr py_str <$> records s (elements t)), s).
Proof.
  induction t as [|l IHl v r IHr]; intros nc s c fuel result H Hf;
    (destruct fuel as [|fuel]; [simpl in Hf; lia|]); simpl in Hf.
  - simpl. rewrite run_get_NIL, Nat.eqb_refl. by rewrite app_nil_r.
  - assert (height l < fuel)%nat as Hfl by lia.
    assert (height r < fuel)%nat as Hfr by lia.
    cbn [__repr_inorder_traversal root_of elements]. rewrite run_get_NIL.
    rewrite (focus_real _ _ _ _ _ _ H).
    rewrite (bind_Ok _ _ _ _ _ (focus_left _ _ _ _ _ _ H)).
    rewrite (bind_Ok _ _ _ _ _ (IHl nc s (InL v r :: c) fuel result H Hfl)).
    destruct (focus_node _ _ _ _ _ _ H) as (n & Hg & Hn & _).
    rewrite (bind_Ok _ _ _ _ _ Hg).
    rewrite (bind_Ok _ _ _ _ _ (focus_right _ _ _ _ _ _ H)).
    rewrite (IHr nc s (InR l v :: c) fuel _ H Hfr).
    rewrite records_app, (records_cons _ _ _ _ Hn), fmap_app, fmap_cons.
    by rewrite <- !app_assoc.
Qed.

Lemma repr_spec nc s t :
  Rep nc s t ->
  RedBlackIntervalTree_repr py_str s =
    Ok (String.concat " " (IntervalNode_repr py_str <$> records s (elements t)), s).
Proof.
  intros H. unfold RedBlackIntervalTree_repr. rewrite run_budget, run_get_root.
  pose proof (Rep_size _ _ _ H). pose proof (height_le_size t).
  assert (height t < S (length (heap s)))%nat as Hf by lia.
  rewrite (proj1 (proj2 H)).
  by rewrite (bind_Ok _ _ _ _ _ (repr_inorder_traversal_sim t nc s [] _ [] H Hf)).
Qed.

(** ** The levels *)

Lemma level_lines_cons s k F :
  Forall (fun a => a <> E) F -> F <> [] ->
  level_lines py_str strftime s k F =
    level_line py_str k (level_text strftime <$> records s (forest_level 0 F))
    :: level_lines py_str strftime s (S k) (F ≫= kids).
Proof.
  intros HF Hne. unfold level_lines. rewrite (forest_height_kids F HF).
  destruct F as [|a F]; [done|]. cbn [seq fmap list_fmap].
  rewrite Nat.add_0_r. f_equal.
  rewrite <- fmap_S_seq, <- list_fmap_compose.
  apply list_fmap_ext. intros _ j _. unfold compose.
  by rewrite forest_level_kids, Nat.add_succ_r.
Qed.

Lemma enqueue nc s c l v r (q : list (addr * nat)) k :
  Rep nc s (plug c (T l v r)) ->
  (if Nat.eqb (root_of s r) (NIL_LEAF s)
   then if Nat.eqb (root_of s l) (NIL_LEAF s) then q
        else q ++ [(root_of s l, (k + 1)%nat)]
   else (if Nat.eqb (root_of s l) (NIL_LEAF s) then q
         else q ++ [(root_of s l, (k + 1)%nat)]) ++
        [(root_of s r, (k + 1)%nat)])
  = q ++ queued s (S k) (kids (T l v r)).
Proof.
  intros H. rewrite Nat.add_1_r.
  assert (Nat.eqb (root_of s l) (NIL_LEAF s) =
          match l with E => true | _ => false end) as ->.
  { destruct l as [|ll lv lr]; simpl; [apply Nat.eqb_refl|].
    apply (focus_real nc s (InL v r :: c) ll lv lr H). }
  assert (Nat.eqb (root_of s r) (NIL_LEAF s) =
          match r with E => true | _ => false end) as ->.
  { destruct r as [|rl rv rr]; simpl; [apply Nat.eqb_refl|].
    apply (focus_real nc s (InR l v :: c) rl rv rr H). }
  destruct l, r; simpl; by rewrite ?app_nil_r, <- ?app_assoc.
Qed.

Lemma print_tree_levels_loop_sim nc s t :
  Rep nc s t ->
  forall fuel A B k done out,
    Forall (fun a => a <> E /\ exists c, plug c a = t) (A ++ B) ->
    (sum_list_with size (A ++ B) < fuel)%nat ->
    done <> [] \/ A <> [] ->
    print_tree_levels_loop py_str strftime fuel
      (queued s k A ++ queued s (S k) B) k done out s =
    Ok (out ++
        level_line py_str k
          (done ++ (level_text strftime <$> records s (forest_level 0 A)))
        :: level_lines py_str strftime s (S k) (B ++ (A ≫= kids)), s).
Proof.
  intros H. induction fuel as [|fuel IH]; intros A B k done out HF Hf Hne;
    [lia|].
  destruct A as [|a A].
  - destruct B as [|b B].
    + destruct Hne as [Hne|]; [|done]. simpl. rewrite app_nil_r.
      by destruct done.
    + apply Forall_cons in HF as [[Hb (c & Hc)] HF].
      destruct b as [|l v r]; [done|]. subst t.
      destruct (focus_node _ _ _ _ _ _ H) as (n & Hg & Hn & _ & Hl & Hr).
      cbn [app queued fmap list_fmap root_of print_tree_levels_loop].
      assert (Nat.eqb (S k) k = false) as -> by (apply Nat.eqb_neq; lia).
      cbn [negb]. rewrite (bind_Ok _ _ _ _ _ Hg), run_get_NIL, Hl, Hr.
      rewrite (enqueue nc s c l v r _ (S k) H).
      rewrite (IH B (kids (T l v r)) (S k)).
      * change (@nil tree ≫= kids) with (@nil tree).
        rewrite !app_nil_r, (level_lines_cons s (S k) (T l v r :: B)).
        -- rewrite forest_level_cons. cbn [at_depth app].
           rewrite (records_cons _ _ _ _ Hn), fmap_cons, bind_cons.
           by rewrite <- app_assoc.
        -- constructor; [done|].
           eapply Forall_impl; [exact HF|]. by intros ? [? _].
        -- done.
      * apply Forall_app. split; [done|]. apply Forall_forall.
        intros a Ha. by eapply kids_subtree.
      * revert Hf. rewrite !sum_list_with_app, size_kids. simpl. lia.
      * by left.
  - apply Forall_cons in HF as [[Ha (c & Hc)] HF].
    destruct a as [|l v r]; [done|]. subst t.
    destruct (focus_node _ _ _ _ _ _ H) as (n & Hg & Hn & _ & Hl & Hr).
    cbn [app queued fmap list_fmap root_of print_tree_levels_loop].
    rewrite Nat.eqb_refl. cbn [negb].
    rewrite (bind_Ok _ _ _ _ _ Hg), run_get_NIL, Hl, Hr.
    rewrite (enqueue nc s c l v r _ k H).
    assert (forall q1 q2 : list (addr * nat),
              (q1 ++ queued s (S k) B) ++ q2 = q1 ++ queued s (S k) B ++ q2)
      as -> by (intros; by rewrite <- app_assoc).
    assert (queued s (S k) B ++ queued s (S k) (kids (T l v r))
            = queued s (S k) (B ++ kids (T l v r))) as ->.
    { unfold queued. by rewrite fmap_app. }
    rewrite (IH A (B ++ kids (T l v r)) k).
    + rewrite forest_level_cons. cbn [at_depth app].
      rewrite (records_cons _ _ _ _ Hn), fmap_cons, bind_cons.
      by rewrite <- !app_assoc.
    + rewrite app_assoc. apply Forall_app. split; [done|].
      apply Forall_forall. intros a Hk. by eapply kids_subtree.
    + revert Hf. rewrite !sum_list_with_app, size_kids. simpl.
      rewrite ?sum_list_with_app. lia.
    + left. by destruct done.
Qed.

Lemma levels_lines s t :
  level_lines py_str strftime s O [t] =
  imap (fun i l => level_line py_str i (level_text strftime <$> records s l))
    (levels t).
Proof.
  unfold level_lines, levels.
  assert (forest_height [t] = height t) as ->.
  { unfold forest_height. simpl. lia. }
  generalize (height t). intros h. apply list_eq. intros i.
  rewrite list_lookup_imap, !list_lookup_fmap.
  destruct (decide (i < h)%nat).
  - rewrite lookup_seq_lt; [|done]. simpl.
    unfold forest_level. simpl. by rewrite app_nil_r.
  - by rewrite lookup_seq_ge; [|lia].
Qed.

Theorem print_tree_levels_spec nc s t :
  Rep nc s t ->
  print_tree_levels py_str strftime s =
    Ok (match t with
        | E => ["Empty tree"%string]
        | _ => imap (fun i l => level_line py_str i
                                  (level_text strftime <$> records s l))
                 (levels t)
        end, s).
Proof.
  intros H. unfold print_tree_levels. rewrite run_get_root, run_get_NIL.
  rewrite (proj1 (proj2 H)). destruct t as [|l v r].
  { simpl. by rewrite Nat.eqb_refl. }
  cbn [root_of]. rewrite (focus_real nc s [] l v r H), run_budget.
  pose proof (Rep_size _ _ _ H) as Hsz.
  rewrite <- levels_lines.
  rewrite (level_lines_cons s O [T l v r]); [|by repeat constructor|done].
  change [(i_addr v, O)] with (queued s O [T l v r] ++ queued s 1 []).
  rewrite (print_tree_levels_loop_sim nc s _ H _ [T l v r] [] O [] []).
  - done.
  - constructor; [|done]. split; [done|]. by exists [].
  - simpl in *. lia.
  - by right.
Qed.

(** ** The displays *)

Lemma display_tree_root fuel level prefix s :
  display_tree py_str strftime fuel None level prefix s =
  display_tree py_str strftime fuel (Some (root s)) level prefix s.
Proof. by destruct fuel. Qed.

Lemma display_tree_sim t :
  forall nc s c fuel level prefix,
    Rep nc s (plug c t) -> (height t < fuel)%nat ->
    display_tree py_str strftime fuel (Some (root_of s t)) level prefix s =
      Ok (rows_text (outline_row py_str strftime s <$>
                       outline_rows level prefix t), s).
Proof.
  induction t as [|l IHl v r IHr]; intros nc s c fuel level prefix H Hf;
    (destruct fuel as [|fuel]; [simpl in Hf; lia|]); simpl in Hf.
  - simpl. rewrite run_get_root, run_get_NIL. by rewrite Nat.eqb_refl.
  - assert (height l < fuel)%nat as Hfl by lia.
    assert (height r < fuel)%nat as Hfr by lia.
    specialize (IHl nc s (InL v r :: c) fuel (S level) "L--- "%string H Hfl).
    specialize (IHr nc s (InR l v :: c) fuel (S level) "R--- "%string H Hfr).
    destruct (focus_node _ _ _ _ _ _ H) as (n & Hg & Hn & _ & Hl & Hr).
    cbn [display_tree root_of]. rewrite run_get_root, run_get_NIL.
    rewrite (focus_real _ _ _ _ _ _ H), (bind_Ok _ _ _ _ _ Hg), Hl, Hr.
    cbn [ref_eqb]. rewrite !Nat.add_1_r.
    cbn [outline_rows]. rewrite fmap_cons.
    change (rows_text (?x :: ?l)) with (x ++ rows_text l)%string.
    unfold outline_row at 1. cbn [fst snd]. rewrite Hn.
    destruct l as [|ll lv lr], r as [|rl rv rr].
    + cbn [root_of]. rewrite Nat.eqb_refl. simpl. by rewrite append_nil_r.
    + cbn [root_of] in *. rewrite Nat.eqb_refl.
      rewrite (focus_real nc s (InR E v :: c) rl rv rr H).
      cbn [negb orb]. rewrite bind_ret, (bind_Ok _ _ _ _ _ IHr).
      unfold ret. rewrite fmap_app, rows_text_app, !append_assoc.
      do 3 f_equal. simpl. by rewrite !append_assoc.
    + cbn [root_of] in *. rewrite Nat.eqb_refl.
      rewrite (focus_real nc s (InL v E :: c) ll lv lr H).
      cbn [negb orb].
      rewrite (bind_Ok _ _ _ _ _ (bind_Ok _ _ _ _ _ IHl)).
      unfold ret. rewrite fmap_app, rows_text_app, !append_assoc.
      do 3 f_equal. simpl. by rewrite !append_assoc, append_nil_r.
    + cbn [root_of] in *.
      rewrite (focus_real nc s (InL v (T rl rv rr) :: c) ll lv lr H).
      rewrite (focus_real nc s (InR (T ll lv lr) v :: c) rl rv rr H).
      cbn [negb orb].
      rewrite (bind_Ok _ _ _ _ _ (bind_Ok _ _ _ _ _ IHl)).
      rewrite (bind_Ok _ _ _ _ _ IHr). unfold ret.
      by rewrite fmap_app, rows_text_app, !append_assoc.
Qed.

Theorem display_tree_spec nc s t :
  Rep nc s t ->
  display_tree_call py_str strftime s =
    Ok (rows_text (outline_row py_str strftime s <$>
                     outline_rows O "Root: " t), s).
Proof.
  intros H. unfold display_tree_call. rewrite run_budget, display_tree_root.
  pose proof (Rep_size _ _ _ H). pose proof (height_le_size t).
  rewrite (proj1 (proj2 H)).
  apply (display_tree_sim t nc s []); [done|lia].
Qed.

Lemma display_tree_ascii_root fuel depth prefix is_left s :
  display_tree_ascii py_str strftime fuel None depth prefix is_left s =
  display_tree_ascii py_str strftime fuel (Some (root s)) depth prefix is_left s.
Proof. by destruct fuel. Qed.

Lemma display_tree_ascii_sim t :
  forall nc s c fuel depth prefix is_left,
    Rep nc s (plug c t) -> (height t < fuel)%nat ->
    display_tree_ascii py_str strftime fuel (Some (root_of s t)) depth prefix
      is_left s =
      Ok (rows_text (ascii_row py_str strftime s <$>
                       ascii_rows depth prefix is_left t), s).
Proof.
  induction t as [|l IHl v r IHr];
    intros nc s c fuel depth prefix is_left H Hf;
    (destruct fuel as [|fuel]; [simpl in Hf; lia|]); simpl in Hf.
  - simpl. rewrite run_get_root, run_get_NIL. by rewrite Nat.eqb_refl.
  - assert (height l < fuel)%nat as Hfl by lia.
    assert (height r < fuel)%nat as Hfr by lia.
    specialize (IHl nc s (InL v r :: c) fuel (S depth)
                  (prefix ++ (if is_left then "    " else ascii_bar))%string
                  true H Hfl).
    specialize (IHr nc s (InR l v :: c) fuel (S depth)
                  (prefix ++ (if is_left then ascii_bar else "    "))%string
                  false H Hfr).
    destruct (focus_node _ _ _ _ _ _ H) as (n & Hg & Hn & _ & Hl & Hr).
    cbn [display_tree_ascii root_of]. rewrite run_get_root, run_get_NIL.
    rewrite (focus_real _ _ _ _ _ _ H), (bind_Ok _ _ _ _ _ Hg), Hl, Hr.
    cbn [ref_eqb]. rewrite !Nat.add_1_r.
    cbn [ascii_rows]. rewrite fmap_app, fmap_cons, rows_text_app.
    change (rows_text (?x :: ?l)) with (x ++ rows_text l)%string.
    unfold ascii_row at 2. cbn [fst snd]. rewrite Hn.
    assert (forall k : string -> M string,
              bind (if negb (Nat.eqb (root_of s r) (NIL_LEAF s))
                    then display_tree_ascii py_str strftime fuel
                           (Some (root_of s r)) (S depth)
                           (prefix ++ (if is_left then ascii_bar else "    "))
                           false
                    else ret EmptyString) k s =
              k (rows_text (ascii_row py_str strftime s <$>
                              ascii_rows (S depth)
                                (prefix ++ (if is_left then ascii_bar else "    "))
                                false r)) s) as ->.
    { intros k. destruct r as [|rl rv rr].
      - cbn [root_of]. by rewrite Nat.eqb_refl.
      - cbn [root_of] in *.
        rewrite (focus_real nc s (InR l v :: c) rl rv rr H). cbn [negb].
        by rewrite (bind_Ok _ _ _ _ _ IHr). }
    destruct l as [|ll lv lr].
    + cbn [root_of]. rewrite Nat.eqb_refl. simpl.
      by rewrite !append_assoc, append_nil_r.
    + cbn [root_of] in *.
      rewrite (focus_real nc s (InL v r :: c) ll lv lr H). cbn [negb].
      rewrite (bind_Ok _ _ _ _ _ IHl). unfold ret.
      by rewrite !append_assoc.
Qed.

Theorem display_tree_ascii_spec nc s t :
  Rep nc s t ->
  display_tree_ascii_call py_str strftime s =
    Ok (rows_text (ascii_row py_str strftime s <$> ascii_rows O "" true t), s).
Proof.
  intros H. unfold display_tree_ascii_call.
  rewrite run_budget, display_tree_ascii_root.
  pose proof (Rep_size _ _ _ H). pose proof (height_le_size t).
  rewrite (proj1 (proj2 H)).
  apply (display_tree_ascii_sim t nc s []); [done|lia].
Qed.

(** The rows of the ASCII display are the nodes from the last to the
    first of the in-order walk, those of the outline the nodes in
    pre-order. *)
Lemma ascii_rows_nodes depth prefix is_left t :
  snd <$> ascii_rows depth prefix is_left t = reverse (elements t).
Proof.
  revert depth prefix is_left.
  induction t as [|l IHl v r IHr]; intros depth prefix is_left; [done|].
  cbn [ascii_rows elements].
  rewrite fmap_app, fmap_cons, IHl, IHr, reverse_app, reverse_cons.
  by rewrite <- app_assoc.
Qed.

Lemma outline_rows_nodes level prefix t :
  omap snd (outline_rows level prefix t) = preorder t.
Proof.
  revert level prefix.
  induction t as [|l IHl v r IHr]; intros level prefix; [done|].
  cbn [outline_rows preorder]. cbn [omap list_omap snd]. f_equal.
  specialize (IHl (S level) "L--- "%string).
  specialize (IHr (S level) "R--- "%string).
  destruct l as [|ll lv lr], r as [|rl rv rr]; [done|..];
    rewrite omap_app; try rewrite IHl; try rewrite IHr; done.
Qed.

End printing.


(** * The properties of the interface *)

(** ** Two states to try the statements on *)

Lemma two_node_reached :
  run (insert_all [(1, 5, PNone); (2, 6, PNone)]) = Ok (tt, two_node_state).
Proof. vm_compute. reflexivity. Qed.

Lemma two_node_Rep : Rep BLACK two_node_state two_node_tree.
Proof.
  destruct (run_insert_all [(1, 5, PNone); (2, 6, PNone)])
    as (s & t & Hs & H & _).
  { repeat constructor; unfold valid_interval; simpl; lia. }
  rewrite two_node_reached in Hs. injection Hs as <-.
  pose proof (tree_of_Rep _ _ _ H) as Ht. vm_compute in Ht.
  injection Ht as <-. exact H.
Qed.

Lemma root_color_Rep nc s t : Rep nc s t -> root_color s = Some (link_color nc t).
Proof.
  intros ((n & Hn & Hc & _) & Hroot & Hrep & _). unfold root_color.
  rewrite Hroot. destruct t as [|l v r]; simpl.
  - transitivity (color <$> Some n); [f_equal; exact Hn|]. simpl. by rewrite Hc.
  - destruct Hrep as (_ & (m & Hm & Hv & _) & _).
    transitivity (color <$> Some m); [f_equal; exact Hm|].
    simpl. by rewrite <- Hv.
Qed.

Lemma Rep_rotations nc s t a :
  Rep nc s t -> a ∈ addrs t ->
  (exists s' t', _left_rotate a s = Ok (tt, s') /\ Rep nc s' t' /\
                 keys t' = keys t /\ (aug t = true -> aug t' = true)) /\
  (exists s' t', _right_rotate a s = Ok (tt, s') /\ Rep nc s' t' /\
                 keys t' = keys t /\ (aug t = true -> aug t' = true)).
Proof.
  intros H Ha.
  destruct (Rep_node _ _ _ _ H Ha) as (c & l & v & r & n & -> & <- & _).
  assert (NoDup (addrs (plug c (T l v r)))) as Hnd by apply H.
  assert (NoDup (addrs (T l v r))) as Hnd0 by (by eapply NoDup_plug_inner).
  split.
  - destruct (left_rotate_at _ _ _ _ _ _ H) as (s' & Hs' & _ & H').
    destruct (rot_plug_effect rot_left c (T l v r)) as (_ & Hk' & Hau' & _).
    { apply rot_left_keys. }
    { apply rot_left_aug. }
    { intros b Hb. by apply depth_rot_left. }
    { done. }
    by exists s', (plug c (rot_left (T l v r))).
  - destruct (right_rotate_at _ _ _ _ _ _ H) as (s' & Hs' & _ & H').
    destruct (rot_plug_effect rot_right c (T l v r)) as (_ & Hk' & Hau' & _).
    { apply rot_right_keys. }
    { apply rot_right_aug. }
    { intros b Hb. by apply depth_rot_right. }
    { done. }
    by exists s', (plug c (rot_right (T l v r))).
Qed.

(** ** Deletion *)

(** C1.  [delete] does not take the node out of the tree.  After the
    seven insertions of [seven], the node of [40, 45) is RED, is not the
    root and has two children; [delete] of it returns, and the walk from
    the root finds the same tree, the node in its place with its own
    interval (not that of its successor [50, 55)), only coloured BLACK;
    [find_conflict] with the bounds [40, 45) returns this very node, and
    the paths of the tree no longer hold the same number of BLACK
    nodes. *)
Theorem delete_leaves_the_node_in_place :
  exists nodes s0 s1,
    run (client seven []) = Ok (nodes, s0) /\
    tree_of s0 = Some seven_tree /\
    nodes !! 3%nat = Some 4%nat /\
    delete 4%nat s0 = Ok (tt, s1) /\
    tree_of s1 = Some (paint 4%nat BLACK seven_tree) /\
    keys (paint 4%nat BLACK seven_tree) = keys seven_tree /\
    find_conflict 40 45 s1 = Ok (Some 4%nat, s1) /\
    black_height seven_tree = Some 2%nat /\
    black_height (paint 4%nat BLACK seven_tree) = None.
Proof.
  eexists _, _, _.
  split; [vm_compute; reflexivity|].
  split; [vm_compute; reflexivity|].
  split; [vm_compute; reflexivity|].
  split; [vm_compute; reflexivity|].
  split; [vm_compute; reflexivity|].
  split; [vm_compute; reflexivity|].
  split; [vm_compute; reflexivity|].
  split; vm_compute; reflexivity.
Qed.

(** ** Search *)

(** C2.  [find_conflict] can miss a stored interval that overlaps the
    query.  After the insertions of [2, 4), [1, 6) and [6, 7), the query
    with the bounds of the third interval returns [None]: at the root
    [2, 4) the search goes left because the maximum 6 of the left subtree
    is [>=] the start 6 of the query, and the interval [6, 7) is in the
    right subtree. *)
Theorem find_conflict_misses_own_interval :
  exists nodes s,
    run (client touching []) = Ok (nodes, s) /\
    tree_of s = Some touching_tree /\
    (3%nat, 6, 7) ∈ keys touching_tree /\
    find_conflict 6 7 s = Ok (None, s).
Proof.
  eexists _, _.
  split; [vm_compute; reflexivity|].
  split; [vm_compute; reflexivity|].
  split; [vm_compute; set_solver|].
  vm_compute; reflexivity.
Qed.

(** ** The augmentation *)

(** C3.  The augmentation is an invariant.  In a state that holds a tree
    in which [max_end] of every node is the maximum of its [end] and of
    the [max_end] of its real children, a construction and insertion of a
    valid interval, a deletion of a node of the tree, and a left or right
    rotation at a node of the tree all return, and the walk from the root
    of the state they leave finds a tree with the same property.  So it
    holds after every program of insertions, deletions and searches on a
    new tree, and in particular after any sequence of insertions. *)
Theorem augmentation_invariant nc s t :
  Rep nc s t -> aug t = true ->
  (forall st en d, st < en ->
     exists a s' t', insert_interval st en d s = Ok (a, s') /\
                     tree_of s' = Some t' /\ aug t' = true) /\
  (forall a, a ∈ addrs t ->
     exists s' t', delete a s = Ok (tt, s') /\
                   tree_of s' = Some t' /\ aug t' = true) /\
  (forall a, a ∈ addrs t ->
     exists s' t', _left_rotate a s = Ok (tt, s') /\
                   tree_of s' = Some t' /\ aug t' = true) /\
  (forall a, a ∈ addrs t ->
     exists s' t', _right_rotate a s = Ok (tt, s') /\
                   tree_of s' = Some t' /\ aug t' = true) /\
  (forall cs, Forall call_ok cs ->
     exists nodes s' t', run (client cs []) = Ok (nodes, s') /\
                         tree_of s' = Some t' /\ aug t' = true) /\
  (forall l, Forall valid_interval l ->
     exists s' t', run (insert_all l) = Ok (tt, s') /\
                   tree_of s' = Some t' /\ aug t' = true).
Proof.
  intros H Ha. split_and!.
  - intros st en d Hv.
    destruct (insert_interval_spec _ _ _ st en d H Hv)
      as (s' & nc' & t' & Hs' & Hins & _ & H').
    exists (length (heap s)), s', t'. split; [done|].
    split; [by eapply tree_of_Rep|by eapply ins_aug].
  - intros a Hin.
    destruct (delete_spec _ _ _ _ H (or_introl Hin))
      as (s' & nc' & t' & Hs' & _ & H' & _ & Hau).
    exists s', t'. split; [done|]. split; [by eapply tree_of_Rep|auto].
  - intros a Hin.
    destruct (Rep_rotations _ _ _ _ H Hin) as [(s' & t' & Hs' & H' & _ & Hau) _].
    exists s', t'. split; [done|]. split; [by eapply tree_of_Rep|auto].
  - intros a Hin.
    destruct (Rep_rotations _ _ _ _ H Hin) as [_ (s' & t' & Hs' & H' & _ & Hau)].
    exists s', t'. split; [done|]. split; [by eapply tree_of_Rep|auto].
  - intros cs Hcs.
    destruct (run_client cs Hcs) as (nodes & s' & nc' & t' & Hs' & H' & _ & Hau & _).
    exists nodes, s', t'. split; [done|]. split; [by eapply tree_of_Rep|done].
  - intros l Hl.
    destruct (run_insert_all l Hl) as (s' & t' & Hs' & H' & Hau & _).
    exists s', t'. split; [done|]. split; [by eapply tree_of_Rep|done].
Qed.

(** ** The invariants after insertions *)

(** C4.  After every sequence of insertions of valid intervals into a new
    tree, the walk from the root finds a tree in which (a) no start time
    in a left subtree is greater and none in a right subtree is smaller
    than that of the node, (b) no RED node has a RED child, (c) every
    path from the root to the sentinel holds the same number of BLACK
    nodes, and the root is BLACK. *)
Theorem insert_only_invariants l :
  Forall valid_interval l ->
  exists s t,
    run (insert_all l) = Ok (tt, s) /\ tree_of s = Some t /\
    bst_weak t = true /\ no_red_red t = true /\
    (exists n, black_height t = Some n) /\ color_of t = BLACK.
Proof.
  intros Hl.
  destruct (run_insert_all l Hl) as (s & t & Hs & H & _ & Ho & Hc & Hn & Hb).
  exists s, t. split; [done|]. split; [by eapply tree_of_Rep|].
  split; [by apply ordered_bst_weak|]. done.
Qed.

(** The order of C4 is not strict on the left: after the insertions of
    [1, 2), [1, 3) and [1, 4) the root is the node of [1, 3), and the node
    of [1, 2), with the same start time, is its left child. *)
Lemma insert_only_left_not_strict :
  exists s,
    run (insert_all same_start3) = Ok (tt, s) /\
    tree_of s = Some same_start3_tree /\
    bst_strict same_start3_tree = false.
Proof.
  eexists. split; [vm_compute; reflexivity|].
  split; vm_compute; reflexivity.
Qed.

(** C5.  [find_conflict] on half-open intervals.  On the tree that holds
    the one valid interval [bs, be), the query [st, en) returns the node
    exactly when [bs < en] and [st < be], and [None] otherwise; on a new
    tree every query returns [None].  The search changes nothing. *)
Theorem find_conflict_half_open bs be d st en :
  bs < be ->
  (exists b s,
     run (insert_interval bs be d) = Ok (b, s) /\
     find_conflict st en s =
       Ok (if (bs <? en) && (st <? be) then Some b else None, s)) /\
  (exists s0,
     run (ret tt) = Ok (tt, s0) /\ find_conflict st en s0 = Ok (None, s0)).
Proof.
  intros Hv. destruct (init_spec []) as (s0 & Hs0 & H0 & _). split.
  - destruct (insert_interval_spec _ _ _ bs be d H0 Hv)
      as (s & nc & t & Hs & Hins & _ & H).
    exists (length (heap s0)), s. unfold run. rewrite Hs0. split; [done|].
    rewrite (find_conflict_spec _ _ _ st en H).
    vm_compute in Hins. injection Hins as _ <-. simpl.
    by destruct ((bs <? en) && (st <? be)).
  - exists s0. unfold run. rewrite Hs0. split; [done|].
    by rewrite (find_conflict_spec _ _ _ st en H0).
Qed.

(** ** The sentinel *)

(** C6.  A deletion can colour the sentinel RED.  After the program
    [two_deletions] (insert [1, 2) and [2, 3), delete the node of [2, 3),
    insert [3, 4) and [4, 5), delete the node of [3, 4)), the sentinel is
    RED: the node deleted last is BLACK, its parent is the root and its
    sibling is the sentinel, which the loop of [_delete_fixup] colours
    RED. *)
Theorem delete_colours_the_sentinel :
  exists nodes s,
    run (client two_deletions []) = Ok (nodes, s) /\
    NIL_LEAF s = 0%nat /\
    sentinel_color s = Some RED.
Proof.
  eexists _, _. split; [vm_compute; reflexivity|].
  split; vm_compute; reflexivity.
Qed.

(** ** Construction *)

(** C7.  [IntervalNode.__init__] compares first and tests the types
    second.  It raises [ValueError] exactly when [start >= end] is defined
    and true; it raises [TypeError] exactly when the comparison is not
    defined, or is false with a bound that is not a datetime; it raises
    nothing else; and it returns exactly when both bounds are datetimes
    with [start < end], and then the new node has [max_end = end], colour
    RED, no links, and is a new object of the store. *)
Theorem IntervalNode_init_spec st en d h :
  (IntervalNode_init st en d h = Raise ValueError <-> py_ge st en = Ok true) /\
  (IntervalNode_init st en d h = Raise TypeError <->
     py_ge st en = Raise TypeError \/
     (py_ge st en = Ok false /\
      isinstance_datetime st && isinstance_datetime en = false)) /\
  (forall e, IntervalNode_init st en d h = Raise e ->
             e = ValueError \/ e = TypeError) /\
  (forall a h',
     IntervalNode_init st en d h = Ok (a, h') <->
     exists s e, st = PDatetime s /\ en = PDatetime e /\ s < e /\
                 a = length h /\
                 h' = h ++ [mkNode s e e RED None None None d]).
Proof.
  unfold IntervalNode_init.
  destruct st as [s|z|x|], en as [e|z'|x'|]; simpl;
    repeat match goal with
      | |- context [?a <=? ?b] => destruct (N.leb_spec a b)
      | |- context [(?a <=? ?b)%Z] => destruct (a <=? b)%Z
      | |- context [String.leb ?a ?b] => destruct (String.leb a b)
      end;
    (split_and!;
     [ split; intros; congruence
     | split; [intros; first [congruence | by left | by right]
              |intros [?|[? ?]]; congruence]
     | intros e0 [= <-]; auto
     | intros a h'; split;
       [ intros [= <- <-]; eexists _, _; (split_and!; [done|done|lia|done|done])
         || intros [=]
       | intros (s0 & e0 & [= ->] & [= ->] & ? & -> & ->); first [done | lia] ] ]).
Qed.

(** The types are not tested when the comparison holds: for the integers
    5 and 3 the constructor raises [ValueError], not [TypeError]. *)
Lemma IntervalNode_init_int_bounds :
  IntervalNode_init (PInt 5) (PInt 3) PNone [] = Raise ValueError /\
  isinstance_datetime (PInt 5) = false.
Proof. split; reflexivity. Qed.

(** ** Insertion *)

(** C8.  [insert] never rejects a valid interval, and puts the new node
    where the descent ends: the path [c] from that place up to the root
    goes left at a node exactly when the new start time is strictly less
    than the node's, and right otherwise, so also on a tie; an in-order
    walk of the tree that [insert] leaves meets the old nodes in their old
    order, and meets the new node after the nodes of [c] it passed on the
    right and before those it passed on the left.  When the start times
    were in order, the new node comes after every node that starts at the
    same instant or earlier and before every node that starts later, and
    the start times are in order again. *)
Theorem insert_goes_right_on_ties nc s t st en d :
  Rep nc s t -> st < en ->
  exists a s' t' c,
    insert_interval st en d s = Ok (a, s') /\ tree_of s' = Some t' /\
    plug c E = t /\ Forall (dir_ok st) c /\
    keys t = (key <$> before c) ++ (key <$> after c) /\
    keys t' = (key <$> before c) ++ (a, st, en) :: (key <$> after c) /\
    (ordered t ->
     Forall (fun k => k.1.2 <= st) (key <$> before c) /\
     Forall (fun k => st < k.1.2) (key <$> after c) /\
     ordered t').
Proof.
  intros H Hv.
  destruct (insert_interval_spec _ _ _ st en d H Hv)
    as (s' & nc' & t' & Hs' & Hins & _ & H').
  destruct (ins_keys _ _ _ _ _ Hins) as (c & Hc & Hk & Hk'). simpl in Hc.
  assert (Forall (dir_ok st) c) as Hd by (rewrite Hc; by apply descend_dir).
  exists (length (heap s)), s', t', c.
  split; [done|]. split; [by eapply tree_of_Rep|].
  split; [rewrite Hc; apply descend_plug|]. split; [done|].
  split; [done|]. split; [done|].
  intros Ho. destruct (ctx_bounds st c Hd) as [Hb Ha].
  { unfold ordered in Ho. by rewrite Hk in Ho. }
  split; [done|]. split; [done|]. by eapply ins_ordered.
Qed.

(** A node is not always in the right subtree of the nodes that start at
    the same instant: after the insertions of [1, 2), [1, 3), [1, 4) and
    [1, 5), the node of [1, 2) is the left child of the root and has no
    child, and the node of [1, 5) is in the right subtree of the root. *)
Lemma equal_start_not_in_right_subtree :
  exists s,
    run (insert_all same_start4) = Ok (tt, s) /\
    tree_of s = Some same_start4_tree /\
    same_start4_tree =
      plug [InL (mkItem 2%nat 1 3 5 BLACK)
              (T E (mkItem 3%nat 1 4 5 BLACK) (T E (mkItem 4%nat 1 5 5 RED) E))]
           (T E (mkItem 1%nat 1 2 2 BLACK) E).
Proof.
  eexists. split; [vm_compute; reflexivity|].
  split; [vm_compute; reflexivity|reflexivity].
Qed.

(** ** Rotations *)

(** C9.  At a node [x] of a tree, with subtrees [l] and [r] under the
    context [c]: the node has the roots of [l] and [r] as children, the
    sentinel for an empty subtree.  When [r] is empty [_left_rotate]
    returns the state unchanged, and so does [_right_rotate] when [l] is
    empty.  When [r] has the root [y], [_left_rotate] returns a state in
    which the walk finds [y] in the place of [x], with [x] as left child
    and the former left subtree of [y] as right subtree of [x]; [max_end]
    is recomputed from the children, first at [x], then at [y]; the
    in-order of the nodes is unchanged, and nothing else of the tree is.
    [_right_rotate] is the mirror image. *)
Theorem rotation_spec nc s c l x r :
  Rep nc s (plug c (T l x r)) ->
  (exists n, heap s !! i_addr x = Some n /\
             left n = Some (root_of s l) /\ right n = Some (root_of s r)) /\
  (r = E -> _left_rotate (i_addr x) s = Ok (tt, s)) /\
  (l = E -> _right_rotate (i_addr x) s = Ok (tt, s)) /\
  (forall rl y rr, r = T rl y rr ->
     exists s' x' y',
       _left_rotate (i_addr x) s = Ok (tt, s') /\
       tree_of s' = Some (plug c (T (T l x' rl) y' rr)) /\
       x' = remax (N.max (i_end x) (N.max (max_of l) (max_of rl))) x /\
       y' = remax (N.max (i_end y) (N.max (i_max x') (max_of rr))) y /\
       keys (plug c (T (T l x' rl) y' rr)) = keys (plug c (T l x r))) /\
  (forall ll y lr, l = T ll y lr ->
     exists s' x' y',
       _right_rotate (i_addr x) s = Ok (tt, s') /\
       tree_of s' = Some (plug c (T ll y' (T lr x' r))) /\
       x' = remax (N.max (i_end x) (N.max (max_of lr) (max_of r))) x /\
       y' = remax (N.max (i_end y) (N.max (max_of ll) (i_max x'))) y /\
       keys (plug c (T ll y' (T lr x' r))) = keys (plug c (T l x r))).
Proof.
  intros H. split_and!.
  - destruct (focus_get left _ _ _ _ _ _ H) as (n & _ & Hn & _ & Hl & Hr & _).
    by exists n.
  - intros ->. by eapply left_rotate_noop.
  - intros ->. by eapply right_rotate_noop.
  - intros rl y rr ->.
    destruct (left_rotate_focus _ _ _ _ _ _ _ _ H) as (s' & Hs' & _ & H').
    eexists s', _, _. split; [done|].
    split; [eapply tree_of_Rep, H'|]. split; [reflexivity|].
    split; [reflexivity|].
    rewrite !keys_plug. f_equal. f_equal.
    apply (rot_left_keys (T l x (T rl y rr))).
  - intros ll y lr ->.
    destruct (right_rotate_focus _ _ _ _ _ _ _ _ H) as (s' & Hs' & _ & H').
    eexists s', _, _. split; [done|].
    split; [eapply tree_of_Rep, H'|]. split; [reflexivity|].
    split; [reflexivity|].
    rewrite !keys_plug. f_equal. f_equal.
    apply (rot_right_keys (T (T ll y lr) x r)).
Qed.

(** ** Search is a read *)

(** C10.  In a state that holds a tree, [find_conflict] returns, the
    state it returns is the state it was called in, and its result is
    [None] or a node of the tree, which is not the sentinel and whose
    interval overlaps the query. *)
Theorem find_conflict_is_a_read nc s t st en :
  Rep nc s t ->
  exists r,
    find_conflict st en s = Ok (r, s) /\
    match r with
    | None => True
    | Some a =>
        a <> NIL_LEAF s /\ a ∈ addrs t /\
        exists v, v ∈ elements t /\ i_addr v = a /\ overlaps st en v
    end.
Proof.
  intros H. exists (i_addr <$> search st en t).
  split; [by eapply find_conflict_spec|].
  destruct (search st en t) as [v|] eqn:Hv; [|done]. simpl.
  destruct (search_sound _ _ _ _ Hv) as [Hin Ho].
  assert (i_addr v ∈ addrs t) as Ha by (by apply list_elem_of_fmap_2).
  split; [|split; [done|by exists v]].
  intros Heq. apply (Rep_notin_NIL _ _ _ H). by rewrite <- Heq.
Qed.

(** ** Further properties *)

(** X1.  [delete] keeps every node: in a state that holds a tree, the
    deletion of a node of the tree returns, and the walk from the root of
    the state it leaves finds the same nodes with the same intervals in
    the same in-order. *)
Theorem delete_keeps_every_node nc s t a :
  Rep nc s t -> a ∈ addrs t ->
  exists s' t',
    delete a s = Ok (tt, s') /\ tree_of s' = Some t' /\ keys t' = keys t.
Proof.
  intros H Ha.
  destruct (delete_spec _ _ _ _ H (or_introl Ha))
    as (s' & nc' & t' & Hs' & _ & H' & Hk & _).
  exists s', t'. split; [done|]. split; [by eapply tree_of_Rep|done].
Qed.

(** X2.  Without deletions the sentinel and the root stay BLACK: after
    every sequence of insertions of valid intervals into a new tree, and
    after a search in the state they leave. *)
Theorem insert_only_sentinel_and_root_black l st en :
  Forall valid_interval l ->
  exists s r,
    run (insert_all l) = Ok (tt, s) /\
    sentinel_color s = Some BLACK /\ root_color s = Some BLACK /\
    find_conflict st en s = Ok (r, s).
Proof.
  intros Hl.
  destruct (run_insert_all l Hl) as (s & t & Hs & H & _ & _ & Hc & _).
  exists s, (i_addr <$> search st en t). split; [done|].
  split; [by eapply sentinel_color_Rep|].
  split; [|by eapply find_conflict_spec].
  rewrite (root_color_Rep _ _ _ H). destruct t; [done|]. simpl in *. by rewrite Hc.
Qed.

(** X3.  Programs of insertions, deletions and searches keep the start
    times in order: after every such program on a new tree the program
    has returned, the walk from the root finds a tree with exactly the
    nodes the insertions made, and an in-order walk meets their start
    times in non-decreasing order. *)
Theorem client_keeps_order cs :
  Forall call_ok cs ->
  exists nodes s t,
    run (client cs []) = Ok (nodes, s) /\ tree_of s = Some t /\
    nodes ≡ₚ addrs t /\ bst_weak t = true.
Proof.
  intros Hcs.
  destruct (run_client cs Hcs) as (nodes & s & nc & t & Hs & H & Hn & _ & Ho).
  exists nodes, s, t. split; [done|]. split; [by eapply tree_of_Rep|].
  split; [done|by apply ordered_bst_weak].
Qed.

(** X4.  After every program of insertions, deletions and searches on a
    new tree, [find_conflict] returns in the state the program leaves,
    changes nothing, and its result is [None] or one of the nodes that
    the insertions of the program made, never the sentinel. *)
Theorem find_conflict_returns_an_inserted_node cs st en :
  Forall call_ok cs ->
  exists nodes s r,
    run (client cs []) = Ok (nodes, s) /\
    find_conflict st en s = Ok (r, s) /\
    match r with
    | None => True
    | Some a => a ∈ nodes /\ a <> NIL_LEAF s
    end.
Proof.
  intros Hcs.
  destruct (run_client cs Hcs) as (nodes & s & nc & t & Hs & H & Hn & _).
  exists nodes, s, (i_addr <$> search st en t). split; [done|].
  split; [by eapply find_conflict_spec|].
  destruct (search st en t) as [v|] eqn:Hv; [|done]. simpl.
  destruct (search_sound _ _ _ _ Hv) as [Hin _].
  assert (i_addr v ∈ addrs t) as Ha by (by apply list_elem_of_fmap_2).
  split; [by rewrite Hn|].
  intros Heq. apply (Rep_notin_NIL _ _ _ H). by rewrite <- Heq.
Qed.

(** X5.  Away from touching ends [find_conflict] misses nothing.  After
    every program of insertions, deletions and searches on a new tree,
    and for every query whose start is the end of none of the inserted
    intervals, [find_conflict] returns a node exactly when one of the
    inserted intervals overlaps the query, both taken as half-open.  The
    intervals of deleted nodes count: [delete] leaves them in the tree. *)
Theorem find_conflict_complete cs st en :
  Forall call_ok cs ->
  Forall (fun x => x.1.2 <> st) (inserted cs) ->
  exists nodes s r,
    run (client cs []) = Ok (nodes, s) /\
    find_conflict st en s = Ok (r, s) /\
    (is_Some r <-> Exists (fun x => x.1.1 < en /\ st < x.1.2) (inserted cs)).
Proof.
  intros Hcs Hst.
  destruct (client_stored cs Hcs) as (nodes & s & nc & t & Hs & H & Ha & Ho & Hp).
  exists nodes, s, (i_addr <$> search st en t). split; [done|].
  split; [by eapply find_conflict_spec|].
  rewrite fmap_is_Some, Exists_exists. split.
  - intros [v Hv]. destruct (search_sound _ _ _ _ Hv) as [Hin [Hv1 Hv2]].
    assert ((i_start v, i_end v) ∈ (fun x => x.1) <$> inserted cs) as Hx.
    { rewrite <- Hp. by apply (list_elem_of_fmap_2 (fun v => (i_start v, i_end v))). }
    apply list_elem_of_fmap in Hx as ([[xs xe] xd] & [= Hxs Hxe] & Hx).
    exists (xs, xe, xd). split; [done|]. simpl. by rewrite <- Hxs, <- Hxe.
  - intros ([[xs xe] xd] & Hx & Hx1 & Hx2). simpl in *.
    apply search_complete; [done|by apply ordered_bst_weak|..].
    + intros v Hv.
      assert ((i_start v, i_end v) ∈ (fun x => x.1) <$> inserted cs) as Hy.
      { rewrite <- Hp.
        by apply (list_elem_of_fmap_2 (fun v => (i_start v, i_end v))). }
      apply list_elem_of_fmap in Hy as ([[ys ye] yd] & [= _ Hye] & Hy).
      rewrite Forall_forall in Hst. rewrite Hye. apply (Hst _ Hy).
    + assert ((xs, xe) ∈ (fun v => (i_start v, i_end v)) <$> elements t) as Hy.
      { rewrite Hp. by apply (list_elem_of_fmap_2 (fun x => x.1) _ (xs, xe, xd)). }
      apply list_elem_of_fmap in Hy as (v & [= Hvs Hve] & Hv).
      exists v. split; [done|]. unfold overlaps. by rewrite <- Hvs, <- Hve.
Qed.

(** X6.  Insertions keep the tree shallow: after the insertion of [n]
    valid intervals into a new tree, the tree has [n] nodes, and no path
    from the root to a node is longer than twice the binary logarithm of
    [n + 1]. *)
Theorem insert_only_height l :
  Forall valid_interval l ->
  exists s t,
    run (insert_all l) = Ok (tt, s) /\ tree_of s = Some t /\
    size t = length l /\ (height t <= 2 * Nat.log2 (S (length l)))%nat.
Proof.
  intros Hl. destruct (init_spec []) as (s0 & Hs0 & H0 & _).
  destruct (insert_all_size l Hl _ _ _ H0) as (s & nc & t & Hs & H & Hsz & Hrb).
  destruct (Hrb eq_refl rb_valid_E) as [_ Hv].
  exists s, t. unfold run. rewrite Hs0. split; [done|].
  split; [by eapply tree_of_Rep|]. simpl in Hsz. split; [done|].
  rewrite <- Hsz. by apply rb_valid_height.
Qed.

(** X7.  The search is logarithmic after insertions: after the insertion
    of [n] valid intervals into a new tree, the loop of [find_conflict]
    ends, with the result of [find_conflict], before it has tested its
    condition more than [2 * log2 (n + 1) + 1] times. *)
Theorem find_conflict_logarithmic l st en :
  Forall valid_interval l ->
  exists s r,
    run (insert_all l) = Ok (tt, s) /\
    find_conflict st en s = Ok (r, s) /\
    find_conflict_loop (S (2 * Nat.log2 (S (length l)))) st en
      (Some (root s)) s = Ok (r, s).
Proof.
  intros Hl. destruct (init_spec []) as (s0 & Hs0 & H0 & _).
  destruct (insert_all_size l Hl _ _ _ H0) as (s & nc & t & Hs & H & Hsz & Hrb).
  destruct (Hrb eq_refl rb_valid_E) as [_ Hv%rb_valid_height].
  exists s, (i_addr <$> search st en t). unfold run. rewrite Hs0.
  split; [done|]. split; [by eapply find_conflict_spec|].
  eapply find_conflict_steps; [done|]. simpl in Hsz. rewrite <- Hsz. lia.
Qed.

(** X8.  No method writes the interval or the payload of a node.  After
    every program of insertions, deletions and searches on a new tree
    the store holds the sentinel and then one object for each insertion,
    in the order of the calls, each with the [start], the [end] and the
    [data] of its call; the insertions have returned these objects. *)
Theorem client_keeps_payload cs :
  Forall call_ok cs ->
  exists nodes s,
    run (client cs []) = Ok (nodes, s) /\
    nodes = seq 1 (length (inserted cs)) /\
    payload <$> heap s =
      (datetime_min, datetime_min + timedelta 1, PNone) :: inserted cs.
Proof.
  intros Hcs. destruct (run_client cs Hcs) as (nodes & s & _ & _ & Hs & _).
  exists nodes, s. split; [done|].
  revert Hs. unfold run. simpl. by intros ?%client_payload.
Qed.

(** X9.  [repr] of a tree walks it in in-order.  After every program of
    insertions, deletions and searches on a new tree, [repr(tree)]
    returns, changes nothing, and is the [repr] of the nodes of the tree
    in in-order, joined by spaces: every inserted node once, in
    non-decreasing order of [start].  The result holds for every
    formatting [py_str] of the values. *)
Theorem repr_lists_in_order py_str cs :
  Forall call_ok cs ->
  exists nodes s t,
    run (client cs []) = Ok (nodes, s) /\ tree_of s = Some t /\
    RedBlackIntervalTree_repr py_str s =
      Ok (String.concat " "
            (IntervalNode_repr py_str <$> records s (elements t)), s) /\
    payload <$> records s (elements t) ≡ₚ inserted cs /\
    StronglySorted N.le (start <$> records s (elements t)).
Proof.
  intros Hcs.
  destruct (client_records cs Hcs) as (nodes & s & nc & t & Hs & H & Hp & Ho).
  exists nodes, s, t. split; [done|]. split; [by eapply tree_of_Rep|].
  split; [by eapply repr_spec|done].
Qed.

(** X10.  [print_tree_levels] prints the tree level by level.  After
    every program of insertions, deletions and searches on a new tree it
    returns and changes nothing; it prints [Empty tree] when the tree is
    empty, and otherwise one line for each depth, from the root down,
    with the number of the depth and the nodes at that depth from left to
    right.  Every node of the tree is on one line, once. *)
Theorem print_tree_levels_by_level py_str strftime cs :
  Forall call_ok cs ->
  exists nodes s t,
    run (client cs []) = Ok (nodes, s) /\ tree_of s = Some t /\
    print_tree_levels py_str strftime s =
      Ok (match t with
          | E => ["Empty tree"%string]
          | _ => imap (fun i l => level_line py_str i
                                    (level_text strftime <$> records s l))
                   (levels t)
          end, s) /\
    concat (levels t) ≡ₚ elements t.
Proof.
  intros Hcs.
  destruct (run_client cs Hcs) as (nodes & s & nc & t & Hs & H & _).
  exists nodes, s, t. split; [done|]. split; [by eapply tree_of_Rep|].
  split; [by eapply print_tree_levels_spec|apply levels_perm].
Qed.

(** X11.  [display_tree] draws the outline of the tree.  After every
    program of insertions, deletions and searches on a new tree,
    [display_tree()] returns and changes nothing.  Its text is a sequence
    of rows: the row of a node, indented by its depth, comes before the
    rows of its left subtree, and these before the rows of its right
    subtree; a node with one child has a [NIL] row in the place of the
    other, a node without children has none.  The rows of nodes are the
    nodes in pre-order. *)
Theorem display_tree_outline py_str strftime cs :
  Forall call_ok cs ->
  exists nodes s t,
    run (client cs []) = Ok (nodes, s) /\ tree_of s = Some t /\
    display_tree_call py_str strftime s =
      Ok (rows_text (outline_row py_str strftime s <$>
                       outline_rows O "Root: " t), s) /\
    omap snd (outline_rows O "Root: " t) = preorder t.
Proof.
  intros Hcs.
  destruct (run_client cs Hcs) as (nodes & s & nc & t & Hs & H & _).
  exists nodes, s, t. split; [done|]. split; [by eapply tree_of_Rep|].
  split; [by eapply display_tree_spec|apply outline_rows_nodes].
Qed.

(** X12.  [display_tree_ascii] draws the tree on its side.  After every
    program of insertions, deletions and searches on a new tree,
    [display_tree_ascii()] returns and changes nothing.  Its text has one
    row for each node, a branch and then the text of the node; the rows
    of the right subtree of a node come before the row of the node and
    those of the left subtree after it, so that the rows are the nodes
    from the last to the first of the in-order walk. *)
Theorem display_tree_ascii_rows py_str strftime cs :
  Forall call_ok cs ->
  exists nodes s t,
    run (client cs []) = Ok (nodes, s) /\ tree_of s = Some t /\
    display_tree_ascii_call py_str strftime s =
      Ok (rows_text (ascii_row py_str strftime s <$> ascii_rows O "" true t),
          s) /\
    snd <$> ascii_rows O "" true t = reverse (elements t).
Proof.
  intros Hcs.
  destruct (run_client cs Hcs) as (nodes & s & nc & t & Hs & H & _).
  exists nodes, s, t. split; [done|]. split; [by eapply tree_of_Rep|].
  split; [by eapply display_tree_ascii_spec|apply ascii_rows_nodes].
Qed.

(** X13.  A rotation is undone by the opposite rotation.  At a node [x]
    of a tree with a right child [y], where the [max_end] of the nodes
    below [x] and of [x] are those of the augmentation,
    [_left_rotate(x)] and then [_right_rotate(y)] return and leave the
    tree the state held; from the state in between, [_right_rotate(y)]
    and then [_left_rotate(x)] lead back to the tree in between. *)
Theorem opposite_rotations_cancel nc s c l x rl y rr :
  Rep nc s (plug c (T l x (T rl y rr))) ->
  aug (T l x (T rl y rr)) = true ->
  exists s1 s2 s3,
    _left_rotate (i_addr x) s = Ok (tt, s1) /\
    _right_rotate (i_addr y) s1 = Ok (tt, s2) /\
    _left_rotate (i_addr x) s2 = Ok (tt, s3) /\
    tree_of s2 = tree_of s /\ tree_of s3 = tree_of s1.
Proof.
  intros H Ha.
  destruct (left_rotate_focus _ _ _ _ _ _ _ _ H) as (s1 & Hs1 & _ & H1).
  pose proof H1 as H1'. cbn [rot_left] in H1'.
  destruct (right_rotate_focus _ _ _ _ _ _ _ _ H1') as (s2 & Hs2 & _ & H2).
  change (T (T l (fresh_max l x rl) rl)
            (fresh_max (T l (fresh_max l x rl) rl) y rr) rr)
    with (rot_left (T l x (T rl y rr))) in H2.
  rewrite (rot_right_left _ _ _ _ _ Ha) in H2.
  destruct (left_rotate_focus _ _ _ _ _ _ _ _ H2) as (s3 & Hs3 & _ & H3).
  exists s1, s2, s3. do 3 (split; [done|]).
  rewrite (tree_of_Rep _ _ _ H), (tree_of_Rep _ _ _ H1), (tree_of_Rep _ _ _ H2),
    (tree_of_Rep _ _ _ H3). done.
Qed.




(** X17.  What [find_conflict] returns is an inserted interval that
    overlaps.  After every program of insertions, deletions and searches
    on a new tree, a node that [find_conflict] returns is the object of
    one of the insertions of the program, it carries the [start], the
    [end] and the [data] of that insertion, and its interval overlaps the
    query, both taken as half-open. *)
Theorem find_conflict_result cs st en :
  Forall call_ok cs ->
  exists nodes s r,
    run (client cs []) = Ok (nodes, s) /\
    find_conflict st en s = Ok (r, s) /\
    forall a, r = Some a ->
      exists n x,
        heap s !! a = Some n /\ inserted cs !! (a - 1)%nat = Some x /\
        nodes !! (a - 1)%nat = Some a /\
        payload n = x /\ x.1.1 < en /\ st < x.1.2.
Proof.
  intros Hcs.
  destruct (run_client cs Hcs) as (nodes & s & nc & t & Hs & H & Hn & _).
  exists nodes, s, (i_addr <$> search st en t). split; [done|].
  split; [by eapply find_conflict_spec|].
  assert (nodes = seq 1 (length (inserted cs)) /\
          payload <$> heap s =
            (datetime_min, datetime_min + timedelta 1, PNone) :: inserted cs)
    as [-> Hp].
  { revert Hs. unfold run. simpl. by intros ?%client_payload. }
  intros a Ha. destruct (search st en t) as [v|] eqn:Hv; [|done].
  injection Ha as <-.
  destruct (search_sound _ _ _ _ Hv) as [Hin [Hv1 Hv2]].
  destruct (Rep_item _ _ _ _ H Hin) as (n & Hn' & Hitem).
  assert (i_addr v ∈ seq 1 (length (inserted cs))) as Hseq.
  { rewrite Hn. by apply list_elem_of_fmap_2. }
  apply elem_of_seq in Hseq as [Hge Hlt].
  assert ((payload <$> heap s) !! i_addr v = Some (payload n)) as Hpn.
  { rewrite list_lookup_fmap.
    transitivity (payload <$> Some n); [f_equal; exact Hn'|done]. }
  rewrite Hp in Hpn.
  destruct (i_addr v) as [|a] eqn:Hav; [lia|]. simpl in Hpn.
  exists n, (payload n). replace (S a - 1)%nat with a by lia.
  split; [done|]. split; [done|]. split; [by apply lookup_seq; lia|].
  split; [done|]. rewrite Hitem in Hv1, Hv2. done.
Qed.

(** ** The statements at work *)

Lemma augmentation_invariant_witness :
  aug two_node_tree = true /\
  (exists a s' t',
     insert_interval 3 7 PNone two_node_state = Ok (a, s') /\
     tree_of s' = Some t' /\ aug t' = true) /\
  (exists s' t',
     delete 2%nat two_node_state = Ok (tt, s') /\
     tree_of s' = Some t' /\ aug t' = true).
Proof.
  destruct (augmentation_invariant BLACK two_node_state two_node_tree
              two_node_Rep eq_refl) as (Hi & Hd & _).
  split; [reflexivity|]. split; [apply Hi; lia|apply Hd].
  vm_compute. repeat constructor.
Defined.

Lemma insert_only_invariants_witness :
  exists s t,
    run (insert_all same_start3) = Ok (tt, s) /\ tree_of s = Some t /\
    bst_weak t = true /\ no_red_red t = true /\
    (exists n, black_height t = Some n) /\ color_of t = BLACK.
Proof.
  apply (insert_only_invariants same_start3).
  repeat constructor.
Defined.

Lemma find_conflict_half_open_witness :
  (exists b s,
     run (insert_interval 5 9 PNone) = Ok (b, s) /\
     find_conflict 1 5 s = Ok (None, s)) /\
  (exists b s,
     run (insert_interval 4 9 PNone) = Ok (b, s) /\
     find_conflict 1 5 s = Ok (Some b, s)).
Proof.
  split.
  - destruct (find_conflict_half_open 5 9 PNone 1 5) as [H _]; [lia|exact H].
  - destruct (find_conflict_half_open 4 9 PNone 1 5) as [H _]; [lia|exact H].
Defined.

Lemma insert_goes_right_on_ties_witness :
  exists a s' t' c,
    insert_interval 1 9 PNone two_node_state = Ok (a, s') /\
    tree_of s' = Some t' /\
    plug c E = two_node_tree /\ Forall (dir_ok 1) c /\
    keys two_node_tree = (key <$> before c) ++ (key <$> after c) /\
    keys t' = (key <$> before c) ++ (a, 1, 9) :: (key <$> after c) /\
    (ordered two_node_tree ->
     Forall (fun k => k.1.2 <= 1) (key <$> before c) /\
     Forall (fun k => 1 < k.1.2) (key <$> after c) /\
     ordered t').
Proof.
  apply (insert_goes_right_on_ties BLACK two_node_state two_node_tree 1 9 PNone
           two_node_Rep).
  lia.
Defined.

Lemma rotation_spec_witness :
  exists s',
    _left_rotate 1%nat two_node_state = Ok (tt, s') /\
    tree_of s' =
      Some (T (T E (mkItem 1%nat 1 5 5 BLACK) E) (mkItem 2%nat 2 6 6 RED) E).
Proof.
  destruct (rotation_spec BLACK two_node_state [] E (mkItem 1%nat 1 5 6 BLACK)
              (T E (mkItem 2%nat 2 6 6 RED) E) two_node_Rep)
    as (_ & _ & _ & Hl & _).
  destruct (Hl E _ E eq_refl) as (s' & x' & y' & Hs' & Ht & -> & -> & _).
  exists s'. split; [exact Hs'|exact Ht].
Defined.

Lemma find_conflict_is_a_read_witness :
  exists r,
    find_conflict 4 8 two_node_state = Ok (r, two_node_state) /\
    match r with
    | None => True
    | Some a =>
        a <> NIL_LEAF two_node_state /\ a ∈ addrs two_node_tree /\
        exists v, v ∈ elements two_node_tree /\ i_addr v = a /\ overlaps 4 8 v
    end.
Proof.
  exact (find_conflict_is_a_read BLACK two_node_state two_node_tree 4 8
           two_node_Rep).
Defined.

Lemma delete_keeps_every_node_witness :
  exists s' t',
    delete 2%nat two_node_state = Ok (tt, s') /\ tree_of s' = Some t' /\
    keys t' = keys two_node_tree.
Proof.
  apply (delete_keeps_every_node BLACK two_node_state two_node_tree 2%nat
           two_node_Rep).
  vm_compute. repeat constructor.
Defined.

Lemma insert_only_sentinel_and_root_black_witness :
  exists s r,
    run (insert_all same_start4) = Ok (tt, s) /\
    sentinel_color s = Some BLACK /\ root_color s = Some BLACK /\
    find_conflict 1 2 s = Ok (r, s).
Proof.
  apply (insert_only_sentinel_and_root_black same_start4 1 2).
  repeat constructor.
Defined.

Lemma client_keeps_order_witness :
  exists nodes s t,
    run (client two_deletions []) = Ok (nodes, s) /\ tree_of s = Some t /\
    nodes ≡ₚ addrs t /\ bst_weak t = true.
Proof.
  apply (client_keeps_order two_deletions).
  repeat constructor.
Defined.

Lemma find_conflict_returns_an_inserted_node_witness :
  exists nodes s r,
    run (client two_deletions []) = Ok (nodes, s) /\
    find_conflict 2 4 s = Ok (r, s) /\
    match r with
    | None => True
    | Some a => a ∈ nodes /\ a <> NIL_LEAF s
    end.
Proof.
  apply (find_conflict_returns_an_inserted_node two_deletions 2 4).
  repeat constructor.
Defined.

Lemma find_conflict_complete_witness :
  exists nodes s r,
    run (client two_deletions []) = Ok (nodes, s) /\
    find_conflict 6 9 s = Ok (r, s) /\
    (is_Some r <->
     Exists (fun x => x.1.1 < 9 /\ 6 < x.1.2) (inserted two_deletions)).
Proof.
  apply (find_conflict_complete two_deletions 6 9).
  - repeat constructor.
  - repeat constructor; done.
Defined.

Lemma insert_only_height_witness :
  exists s t,
    run (insert_all same_start4) = Ok (tt, s) /\ tree_of s = Some t /\
    size t = length same_start4 /\
    (height t <= 2 * Nat.log2 (S (length same_start4)))%nat.
Proof.
  apply (insert_only_height same_start4).
  repeat constructor.
Defined.

Lemma find_conflict_logarithmic_witness :
  exists s r,
    run (insert_all same_start4) = Ok (tt, s) /\
    find_conflict 1 2 s = Ok (r, s) /\
    find_conflict_loop (S (2 * Nat.log2 (S (length same_start4)))) 1 2
      (Some (root s)) s = Ok (r, s).
Proof.
  apply (find_conflict_logarithmic same_start4 1 2).
  repeat constructor.
Defined.

Lemma client_keeps_payload_witness :
  exists nodes s,
    run (client two_deletions []) = Ok (nodes, s) /\
    nodes = seq 1 (length (inserted two_deletions)) /\
    payload <$> heap s =
      (datetime_min, datetime_min + timedelta 1, PNone)
      :: inserted two_deletions.
Proof.
  apply (client_keeps_payload two_deletions).
  repeat constructor.
Defined.

Lemma repr_lists_in_order_witness :
  exists nodes s t,
    run (client two_deletions []) = Ok (nodes, s) /\ tree_of s = Some t /\
    RedBlackIntervalTree_repr (fun _ => EmptyString) s =
      Ok (String.concat " "
            (IntervalNode_repr (fun _ => EmptyString) <$>
               records s (elements t)), s) /\
    payload <$> records s (elements t) ≡ₚ inserted two_deletions /\
    StronglySorted N.le (start <$> records s (elements t)).
Proof.
  apply (repr_lists_in_order (fun _ => EmptyString) two_deletions).
  repeat constructor.
Defined.

Lemma print_tree_levels_by_level_witness :
  exists nodes s t,
    run (client two_deletions []) = Ok (nodes, s) /\ tree_of s = Some t /\
    print_tree_levels (fun _ => EmptyString) (fun _ _ => EmptyString) s =
      Ok (match t with
          | E => ["Empty tree"%string]
          | _ => imap (fun i l => level_line (fun _ => EmptyString) i
                                    (level_text (fun _ _ => EmptyString) <$>
                                       records s l))
                   (levels t)
          end, s) /\
    concat (levels t) ≡ₚ elements t.
Proof.
  apply (print_tree_levels_by_level (fun _ => EmptyString)
           (fun _ _ => EmptyString) two_deletions).
  repeat constructor.
Defined.

Lemma display_tree_outline_witness :
  exists nodes s t,
    run (client two_deletions []) = Ok (nodes, s) /\ tree_of s = Some t /\
    display_tree_call (fun _ => EmptyString) (fun _ _ => EmptyString) s =
      Ok (rows_text (outline_row (fun _ => EmptyString)
                       (fun _ _ => EmptyString) s <$>
                       outline_rows O "Root: " t), s) /\
    omap snd (outline_rows O "Root: " t) = preorder t.
Proof.
  apply (display_tree_outline (fun _ => EmptyString)
           (fun _ _ => EmptyString) two_deletions).
  repeat constructor.
Defined.

Lemma display_tree_ascii_rows_witness :
  exists nodes s t,
    run (client two_deletions []) = Ok (nodes, s) /\ tree_of s = Some t /\
    display_tree_ascii_call (fun _ => EmptyString) (fun _ _ => EmptyString) s =
      Ok (rows_text (ascii_row (fun _ => EmptyString)
                       (fun _ _ => EmptyString) s <$>
                       ascii_rows O "" true t), s) /\
    snd <$> ascii_rows O "" true t = reverse (elements t).
Proof.
  apply (display_tree_ascii_rows (fun _ => EmptyString)
           (fun _ _ => EmptyString) two_deletions).
  repeat constructor.
Defined.

Lemma opposite_rotations_cancel_witness :
  exists s1 s2 s3,
    _left_rotate 1%nat two_node_state = Ok (tt, s1) /\
    _right_rotate 2%nat s1 = Ok (tt, s2) /\
    _left_rotate 1%nat s2 = Ok (tt, s3) /\
    tree_of s2 = tree_of two_node_state /\ tree_of s3 = tree_of s1.
Proof.
  apply (opposite_rotations_cancel BLACK two_node_state [] E (mkItem 1%nat 1 5 6 BLACK)
           E (mkItem 2%nat 2 6 6 RED) E two_node_Rep).
  reflexivity.
Defined.




Lemma find_conflict_result_witness :
  exists nodes s r,
    run (client two_deletions []) = Ok (nodes, s) /\
    find_conflict 2 4 s = Ok (r, s) /\
    forall a, r = Some a ->
      exists n x,
        heap s !! a = Some n /\
        inserted two_deletions !! (a - 1)%nat = Some x /\
        nodes !! (a - 1)%nat = Some a /\
        payload n = x /\ x.1.1 < 4 /\ 2 < x.1.2.
Proof.
  apply (find_conflict_result two_deletions 2 4).
  repeat constructor.
Defined.
